(** * ProcessGroupAgent: a shallow embedding of
    torch/csrc/distributed/rpc/process_group_agent.cpp

    The agent turns a ranked point-to-point transport (a c10d ProcessGroup)
    into a request/response RPC layer.  This file embeds the wire codec
    ([serialize], [deserialize]), the constructor, [getWorkerId], [send],
    the jobs queued by [enqueueSend] and [enqueueRecv], an interleaving
    semantics for the send jobs of the thread pool, [listenLoop] and the
    shutdown that [join] sends round the ring, and proves the properties
    the specification states about them and further ones the code shows. *)

From Stdlib Require Import ZArith Lia.
From Stdlib.Strings Require Import Byte.
From stdpp Require Import base option list gmap strings fin_maps.

Open Scope Z_scope.

(** ** Fixed-width integers

    [int16_t], [int] and [int64_t] values are integers of [Z]; a conversion
    to a w-bit signed type keeps the low w bits (two's complement). *)

Definition wrap_signed (w : Z) (z : Z) : Z :=
  (z + 2 ^ (w - 1)) mod 2 ^ w - 2 ^ (w - 1).

Definition in_signed (w : Z) (z : Z) : Prop :=
  - 2 ^ (w - 1) <= z < 2 ^ (w - 1).

(** [worker_id_t] is [int16_t] (it is the return type of
    [ProcessGroupAgent::getWorkerId()]). *)
Definition worker_id_t (z : Z) : Z := wrap_signed 16 z.
Definition int64_t (z : Z) : Z := wrap_signed 64 z.

Definition is_int64 (z : Z) : Prop := in_signed 64 z.

(** Modelled from the spec: the type of a message is one of REQUEST,
    RESPONSE and SHUTDOWN (the enumeration is declared in message.h, which
    is not part of the sources at hand); on the wire it travels as an
    [int64_t], here the position in the enumeration. *)
Inductive MessageType : Type :=
| REQUEST
| RESPONSE
| SHUTDOWN.

Definition MessageType_value (t : MessageType) : Z :=
  match t with
  | REQUEST => 0
  | RESPONSE => 1
  | SHUTDOWN => 2
  end.

#[global] Instance MessageType_eq_dec : EqDecision MessageType.
Proof. solve_decision. Defined.

(** ** Outcomes of a call

    A call returns, throws the [c10::Error] that [TORCH_CHECK] and
    [AT_ERROR] raise (a diagnosed failure carrying the message arguments),
    throws another C++ exception, or has undefined behaviour. *)

Inductive MsgArg : Type :=
| Str (s : string)
| Num (z : Z)
| Enum (t : MessageType).

Inductive UB : Type :=
| NullDereference
| OutOfBounds.

Inductive Result (A : Type) : Type :=
| Ok (a : A)
| Error (what : list MsgArg)
| Exception (what : string)
| Undefined (why : UB).

Arguments Ok {A} a.
Arguments Error {A} what.
Arguments Exception {A} what.
Arguments Undefined {A} why.

Definition Result_bind {A B : Type} (f : A -> Result B) (r : Result A)
  : Result B :=
  match r with
  | Ok a => f a
  | Error what => Error what
  | Exception what => Exception what
  | Undefined why => Undefined why
  end.

#[global] Instance Result_ret : MRet Result := fun _ a => Ok a.
#[global] Instance Result_mbind : MBind Result := fun _ _ f r => Result_bind f r.

Definition TORCH_CHECK (cond : bool) (what : list MsgArg) : Result unit :=
  if cond then Ok tt else Error what.

Definition returns {A : Type} (r : Result A) : Prop :=
  exists a, r = Ok a.

Definition diagnosed {A : Type} (r : Result A) : Prop :=
  exists what, r = Error what.

(** ** Tensors

    A tensor is seen as the code sees it: a scalar type and the bytes of its
    storage (one-dimensional, contiguous, offset 0). *)

Inductive ScalarType : Type :=
| kByte | kChar | kShort | kInt | kLong | kFloat | kDouble.

#[global] Instance ScalarType_eq_dec : EqDecision ScalarType.
Proof. solve_decision. Defined.

Definition elementSize (t : ScalarType) : nat :=
  match t with
  | kByte | kChar => 1
  | kShort => 2
  | kInt | kFloat => 4
  | kLong | kDouble => 8
  end%nat.

Module Tensor.
Record t : Type := Build {
  scalar_type : ScalarType;
  storage : list byte
}.

Definition numel (x : t) : nat :=
  (length (storage x) / elementSize (scalar_type x))%nat.
End Tensor.

Definition byte_of_Z (z : Z) : byte :=
  match Byte.of_N (Z.to_N (z mod 256)) with
  | Some b => b
  | None => x00
  end.

Definition Z_of_byte (b : byte) : Z := Z.of_N (Byte.to_N b).

(** Little-endian object representation of an integer on [n] bytes. *)
Fixpoint le_bytes (n : nat) (z : Z) : list byte :=
  match n with
  | O => []
  | S n' => byte_of_Z z :: le_bytes n' (z / 256)
  end.

Fixpoint le_value (bs : list byte) : Z :=
  match bs with
  | [] => 0
  | b :: bs' => Z_of_byte b + 256 * le_value bs'
  end.

(** [torch::from_blob(data, size, {torch::kChar})] *)
Definition from_blob (data : list byte) (size : nat) : Tensor.t :=
  Tensor.Build kChar (take size data).

(** [torch::tensor({v}, {torch::kInt64})] *)
Definition tensor_int64 (v : Z) : Tensor.t :=
  Tensor.Build kLong (le_bytes 8 v).

(** [x.storage().data<int64_t>()[0]]: the typed accessor raises when the
    storage holds another scalar type; reading element 0 of a storage
    shorter than one element is out of bounds. *)
Definition storage_data_int64_0 (x : Tensor.t) : Result Z :=
  _ ← TORCH_CHECK (bool_decide (Tensor.scalar_type x = kLong))
        [Str "Attempt to access StorageImpl having another data type as int64_t"];
  if (8 <=? length (Tensor.storage x))%nat
  then Ok (int64_t (le_value (take 8 (Tensor.storage x))))
  else Undefined OutOfBounds.

(** ** Messages *)

(** Modelled from the spec: [Message] (message.h is not part of the sources
    at hand) carries a payload, auxiliary tensors, a type and an id; a
    message is a request, a response or a shutdown notice. *)
Module Message.
Record t : Type := Build {
  payload : list byte;
  tensors : list Tensor.t;
  type : MessageType;
  id : Z
}.

Definition isRequest (m : t) : bool := bool_decide (type m = REQUEST).
Definition isResponse (m : t) : bool := bool_decide (type m = RESPONSE).
Definition isShutdown (m : t) : bool := bool_decide (type m = SHUTDOWN).

Definition setId (m : t) (i : Z) : t :=
  Build (payload m) (tensors m) (type m) i.
End Message.

(** [v.back()] on a [std::vector]: undefined on an empty vector. *)
Definition back {A : Type} (v : list A) : Result A :=
  match last v with
  | Some x => Ok x
  | None => Undefined OutOfBounds
  end.

Definition pop_back {A : Type} (v : list A) : list A := removelast v.

(** ** Wire codec *)

Section Codec.

(** [torch::save] and [torch::load] on a vector of tensors: the archive
    format is the serializer's own business; [load] raises on bytes that
    are no archive. *)
Variable save : list Tensor.t -> list byte.
Variable load : list byte -> option (list Tensor.t).

Definition torch_load (body : list byte) : Result (list Tensor.t) :=
  match load body with
  | Some ts => Ok ts
  | None => Exception "torch::load"
  end.

Definition serialize_tensors (message : Message.t) : list Tensor.t :=
  let payload := Message.payload message in
  let payload_size := length (Message.payload message) in
  let tensors := Message.tensors message in
  let tensors := tensors ++ [from_blob payload payload_size] in
  let tensors := tensors ++ [tensor_int64 (Message.id message)] in
  tensors.

Definition serialize (message : Message.t) : list byte :=
  save (serialize_tensors message).

Definition deserialize (type : MessageType) (body : list byte)
  : Result Message.t :=
  tensors ← torch_load body;
  _ ← TORCH_CHECK (2 <=? length tensors)%nat
        [Str "Failed to deserialize a message."];
  idTensor ← back tensors;
  let tensors := pop_back tensors in
  payloadTensor ← back tensors;
  let tensors := pop_back tensors in
  id ← storage_data_int64_0 idTensor;
  let payload :=
    take (Tensor.numel payloadTensor) (Tensor.storage payloadTensor) in
  Ok (Message.Build payload tensors type id).

End Codec.

(** ** Data of the agent *)

(** Modelled from the spec: [WorkerId] (declared in rpc_agent.h, not part of
    the sources at hand) is the pair of a worker name and its rank; the rank
    is stored as a [worker_id_t]. *)
Module WorkerId.
Record t : Type := Build {
  name_ : string;
  id_ : Z
}.
End WorkerId.

(** [WorkerId(std::string name, int id)] *)
Definition WorkerId_new (name : string) (id : Z) : WorkerId.t :=
  WorkerId.Build name (worker_id_t id).

(** The transport group, as far as the agent reads it: [getRank()] and
    [getSize()], both [int]. *)
Record ProcessGroup : Type := {
  getRank : Z;
  getSize : Z
}.

(** Modelled from the spec: [FutureMessage] (future_message.h is not part of
    the sources at hand) is a single-assignment container: it is marked
    completed exactly once, with a Message ([markCompleted(message)]) or
    without one ([markCompleted()]); marking a completed future again is a
    diagnosed failure. *)
Module FutureMessage.
Record t : Type := Build {
  completed : bool;
  message : option Message.t
}.

Definition fresh : t := Build false None.

Definition markCompleted (m : option Message.t) (f : t) : Result t :=
  _ ← TORCH_CHECK (negb (completed f)) [Str "Future already completed."];
  Ok (Build true m).
End FutureMessage.

(** A [std::shared_ptr<FutureMessage>]: null, or the address of a future in
    the store of shared objects. *)
Inductive shared_ptr : Type :=
| null
| ptr (l : nat).

#[global] Instance shared_ptr_eq_dec : EqDecision shared_ptr.
Proof. solve_decision. Defined.

Record SendWork : Type := {
  to_ : WorkerId.t;
  message_ : Message.t
}.

Record RecvWork : Type := {
  from_ : WorkerId.t;
  type_ : MessageType;
  payload_ : Tensor.t
}.

(** The jobs handed to [threadPool_.run]. *)
Inductive Job : Type :=
| SendJob (work : SendWork)
| RecvJob (work : RecvWork).

Record Agent : Type := {
  workerId_ : WorkerId.t;
  nameMap_ : gmap string Z;
  pg_ : ProcessGroup;
  nextId_ : Z;
  workerIds_ : list WorkerId.t;
  futures_ : gmap Z shared_ptr;
  (** jobs submitted to the thread pool, oldest first *)
  threadPool_ : list Job;
  (** the [FutureMessage] objects behind the shared pointers *)
  heap : list FutureMessage.t
}.

Definition set_nextId (v : Z) (a : Agent) : Agent :=
  {| workerId_ := workerId_ a; nameMap_ := nameMap_ a; pg_ := pg_ a;
     nextId_ := v; workerIds_ := workerIds_ a; futures_ := futures_ a;
     threadPool_ := threadPool_ a; heap := heap a |}.

Definition set_futures (v : gmap Z shared_ptr) (a : Agent) : Agent :=
  {| workerId_ := workerId_ a; nameMap_ := nameMap_ a; pg_ := pg_ a;
     nextId_ := nextId_ a; workerIds_ := workerIds_ a; futures_ := v;
     threadPool_ := threadPool_ a; heap := heap a |}.

Definition set_threadPool (v : list Job) (a : Agent) : Agent :=
  {| workerId_ := workerId_ a; nameMap_ := nameMap_ a; pg_ := pg_ a;
     nextId_ := nextId_ a; workerIds_ := workerIds_ a; futures_ := futures_ a;
     threadPool_ := v; heap := heap a |}.

Definition set_heap (v : list FutureMessage.t) (a : Agent) : Agent :=
  {| workerId_ := workerId_ a; nameMap_ := nameMap_ a; pg_ := pg_ a;
     nextId_ := nextId_ a; workerIds_ := workerIds_ a; futures_ := futures_ a;
     threadPool_ := threadPool_ a; heap := v |}.

(** [v[i]] and [v[i] = x] on a [std::vector]: no bounds check, undefined
    outside [0, v.size()). *)
Definition vector_at {A : Type} (v : list A) (i : Z) : Result A :=
  if bool_decide (0 <= i) then
    match v !! Z.to_nat i with
    | Some x => Ok x
    | None => Undefined OutOfBounds
    end
  else Undefined OutOfBounds.

Definition vector_set {A : Type} (v : list A) (i : Z) (x : A)
  : Result (list A) :=
  if bool_decide (0 <= i < Z.of_nat (length v))
  then Ok (<[Z.to_nat i := x]> v)
  else Undefined OutOfBounds.

(** [std::vector<T> v(n)] with [n] an [int]: a negative count converts to a
    size above [max_size()] and the constructor throws. *)
Definition vector_sized {A : Type} (n : Z) (x : A) : Result (list A) :=
  if bool_decide (0 <= n) then Ok (replicate (Z.to_nat n) x)
  else Exception "std::length_error".

(** ** Construction and the worker registry *)

(** The loop [for (auto& entry : nameMap_) tmpWorkerIds[entry.second] =
    entry.first;], in the iteration order of the map. *)
Definition fill_one (acc : Result (list string)) (entry : string * Z)
  : Result (list string) :=
  tmp ← acc; vector_set tmp entry.2 entry.1.

Definition fill_names (entries : list (string * Z)) (tmpWorkerIds : list string)
  : Result (list string) :=
  foldl fill_one (Ok tmpWorkerIds) entries.

(** The ProcessGroupAgent constructor.  Starting the Python handler and the
    listener thread, which end it, do not touch the registry and are left
    out. *)
Definition ProcessGroupAgent_new
    (workerName : string) (nameMap : gmap string Z) (pg : ProcessGroup)
  : Result Agent :=
  let workerId := WorkerId_new workerName (getRank pg) in
  sendMutexes ← vector_sized (getSize pg) tt;
  _ ← TORCH_CHECK (bool_decide (1 < size nameMap)%nat)
        [Str "ProcessGroupAgent requires world_size to be at least 2, but got ";
         Num (Z.of_nat (size nameMap))];
  match nameMap !! WorkerId.name_ workerId with
  | None =>
      Error [Str "Failed to resolve worker name "; Str (WorkerId.name_ workerId);
             Str " to a ProcessGroup rank."]
  | Some workerRank =>
      _ ← TORCH_CHECK (bool_decide (getRank pg = workerRank))
            [Str "Resolved worker rank "; Num workerRank;
             Str " does not match ProcessGroup rank "; Num (getRank pg)];
      tmpWorkerIds ← vector_sized (getSize pg) "";
      tmpWorkerIds ← fill_names (map_to_list nameMap) tmpWorkerIds;
      let workerIds :=
        imap (fun rank name => WorkerId_new name (Z.of_nat rank)) tmpWorkerIds in
      Ok {| workerId_ := workerId; nameMap_ := nameMap; pg_ := pg;
            nextId_ := 0; workerIds_ := workerIds; futures_ := ∅;
            threadPool_ := []; heap := [] |}
  end.

(** Every rank of the map is a rank of the group. *)
Definition ranks_in_range (nameMap : gmap string Z) (pg : ProcessGroup) : Prop :=
  forall name r, nameMap !! name = Some r -> 0 <= r < getSize pg.

(** The agent the constructor leaves, given the filled vector of names. *)
Definition built (workerName : string) (nameMap : gmap string Z)
    (pg : ProcessGroup) (tmp : list string) : Agent :=
  {| workerId_ := WorkerId_new workerName (getRank pg);
     nameMap_ := nameMap; pg_ := pg; nextId_ := 0;
     workerIds_ := imap (fun rank name => WorkerId_new name (Z.of_nat rank)) tmp;
     futures_ := ∅; threadPool_ := []; heap := [] |}.

(** [getWorkerId(const std::string&)] *)
Definition getWorkerId (a : Agent) (workerName : string) : Result WorkerId.t :=
  match nameMap_ a !! workerName with
  | None => Error [Str "Unknown destination worker "; Str workerName]
  | Some rank => vector_at (workerIds_ a) rank
  end.

(** [int16_t getWorkerId()] *)
Definition getWorkerId_self (a : Agent) : Z := worker_id_t (getRank (pg_ a)).

(** ** The agent's operations: state and failure threaded through calls *)

Definition M (A : Type) : Type := Agent -> Result (A * Agent).

#[global] Instance M_ret : MRet M := fun _ x a => Ok (x, a).
#[global] Instance M_bind : MBind M := fun _ _ f m a =>
  match m a with
  | Ok (x, a') => f x a'
  | Error what => Error what
  | Exception what => Exception what
  | Undefined why => Undefined why
  end.

Definition lift {A : Type} (r : Result A) : M A := fun a =>
  match r with
  | Ok x => Ok (x, a)
  | Error what => Error what
  | Exception what => Exception what
  | Undefined why => Undefined why
  end.

Definition gets {A : Type} (f : Agent -> A) : M A := fun a => Ok (f a, a).

Definition modify (f : Agent -> Agent) : M unit := fun a => Ok (tt, f a).

(** Modelled from the spec: [nextId()] (defined in process_group_agent.h, not
    part of the sources at hand) hands out the process-local, monotonically
    increasing counter [nextId_], an [int64_t] that the constructor sets to
    0: it returns the current value and advances the counter by one. *)
Definition nextId : M Z := fun a =>
  Ok (nextId_ a, set_nextId (int64_t (nextId_ a + 1)) a).

(** [std::make_shared<FutureMessage>()]: a fresh object, not yet completed. *)
Definition make_shared_FutureMessage : M shared_ptr := fun a =>
  Ok (ptr (length (heap a)), set_heap (heap a ++ [FutureMessage.fresh]) a).

(** [p->markCompleted(...)]: dereferencing a null pointer is undefined. *)
Definition markCompleted (p : shared_ptr) (m : option Message.t) : M unit :=
  fun a =>
    match p with
    | null => Undefined NullDereference
    | ptr l =>
        match heap a !! l with
        | None => Undefined NullDereference
        | Some f =>
            f' ← FutureMessage.markCompleted m f;
            Ok (tt, set_heap (<[l := f']> (heap a)) a)
        end
    end.

(** [futures_[id] = future] under [futureMutex_] *)
Definition futures_assign (id : Z) (future : shared_ptr) : M unit :=
  modify (fun a => set_futures (<[id := future]> (futures_ a)) a).

(** [futures_[id]] read through [operator[]]: a missing key is first
    inserted with a value-initialised (null) pointer. *)
Definition futures_subscript (id : Z) : M shared_ptr := fun a =>
  match futures_ a !! id with
  | Some p => Ok (p, a)
  | None => Ok (null, set_futures (<[id := null]> (futures_ a)) a)
  end.

(** [futures_.erase(id)] *)
Definition futures_erase (id : Z) : M unit :=
  modify (fun a => set_futures (delete id (futures_ a)) a).

(** [enqueueSend]: the job is bound to its own copy of the work and handed
    to the thread pool; what the job does is [sendJob] below. *)
Definition enqueueSend (work : SendWork) : M unit :=
  modify (fun a => set_threadPool (threadPool_ a ++ [SendJob work]) a).

(** [enqueueRecv]: likewise; the job is [recvJob] below. *)
Definition enqueueRecv (work : RecvWork) : M unit :=
  modify (fun a => set_threadPool (threadPool_ a ++ [RecvJob work]) a).

(** [send], up to the point where it calls [enqueueSend]: the two
    precondition checks, the id, the future, its registration or
    completion, and the argument [SendWork(workerIds_[to.id_], message)]. *)
Definition send_prepare (to : WorkerId.t) (message : Message.t)
  : M (SendWork * shared_ptr) :=
  pg ← gets pg_;
  _ ← lift (TORCH_CHECK
        (bool_decide (WorkerId.id_ to ≠ worker_id_t (getRank pg)))
        [Str "ProcessGroupAgent does not support making RPC calls to self."]);
  _ ← lift (TORCH_CHECK
        (bool_decide (WorkerId.id_ to < worker_id_t (getSize pg)))
        [Str "Destination rank is out of bound, got "; Num (WorkerId.id_ to);
         Str ", but world size is "; Num (getRank pg)]);
  requestId ← nextId;
  future ← make_shared_FutureMessage;
  message ← (if Message.isRequest message then
               _ ← futures_assign requestId future;
               mret (Message.setId message requestId)
             else
               _ ← markCompleted future None;
               mret message);
  workerIds ← gets workerIds_;
  dst ← lift (vector_at workerIds (WorkerId.id_ to));
  mret ({| to_ := dst; message_ := message |}, future).

Definition send (to : WorkerId.t) (message : Message.t) : M shared_ptr :=
  '(work, future) ← send_prepare to message;
  _ ← enqueueSend work;
  mret future.

(** [payload.storage().data<signed char>()] read over [payload.numel()]
    bytes, as the receive job builds its stream. *)
Definition storage_data_char (x : Tensor.t) : Result (list byte) :=
  _ ← TORCH_CHECK (bool_decide (Tensor.scalar_type x = kChar))
        [Str "Attempt to access StorageImpl having another data type as signed char"];
  Ok (take (Tensor.numel x) (Tensor.storage x)).

Section Jobs.

Variable load : list byte -> option (list Tensor.t).

(** [cb_]: the callback that turns a request into its response. *)
Variable cb_ : Message.t -> Result Message.t.

(** The first statements of the job that [enqueueRecv] queues: the
    stream over the received bytes and the message decoded from it. *)
Definition received (work : RecvWork) : Result Message.t :=
  let payload := payload_ work in
  ss ← storage_data_char payload;
  deserialize load (type_ work) ss.

(** The job that [enqueueRecv] queues. *)
Definition recvJob (work : RecvWork) : M unit :=
  message ← lift (received work);
  if Message.isRequest message then
    response ← lift (cb_ message);
    _ ← send (from_ work) response;
    mret tt
  else if Message.isResponse message then
    let id := Message.id message in
    future ← futures_subscript id;
    _ ← markCompleted future (Some message);
    futures_erase id
  else
    lift (Error [Str "unrecognized message type "; Enum (Message.type message)]).

(** What the agent does, one operation at a time: a caller's [send], or a
    pool thread running a receive job.  An operation is one step: the id
    counter is atomic, the table is only touched under [futureMutex_], and
    operations on different ids commute. *)
Inductive Event : Type :=
| CallSend (to : WorkerId.t) (message : Message.t)
| RunRecv (work : RecvWork).

(** The event is a receive job whose message is a RESPONSE carrying [id]. *)
Definition response_to (id : Z) (e : Event) : Prop :=
  match e with
  | CallSend _ _ => False
  | RunRecv work =>
      exists resp, received work = Ok resp /\
                   Message.isResponse resp = true /\ Message.id resp = id
  end.

Definition step (e : Event) : M unit :=
  match e with
  | CallSend to message => _ ← send to message; mret tt
  | RunRecv work => recvJob work
  end.

Fixpoint run (es : list Event) : M unit :=
  match es with
  | [] => mret tt
  | e :: es' => _ ← step e; run es'
  end.

End Jobs.

(** ** The send job and the pool threads that run it

    A send job is the sequence of its actions on what it shares with other
    threads: the per-destination mutexes and the transport.  The pool runs
    the jobs concurrently; a schedule names, step by step, the job that
    moves next. *)

(** [torch::tensor({v0, v1, ...}, {torch::kLong})] *)
Definition tensor_int64s (vs : list Z) : Tensor.t :=
  Tensor.Build kLong (flat_map (le_bytes 8) vs).

Inductive Instr : Type :=
| Lock (m : Z)      (* std::lock_guard on sendMutexes_[m] is constructed *)
| Unlock (m : Z)    (* ... and destroyed at the end of its block *)
| PgSend (tensors : list Tensor.t) (dst : Z) (tag : Z)  (* pg_->send(...) *)
| Wait (k : nat).   (* pendingSends[k]->wait() *)

Section SendJob.

Variable save : list Tensor.t -> list byte.

(** The job that [enqueueSend] queues. *)
Definition sendJob (pg : ProcessGroup) (work : SendWork) : list Instr :=
  let serializedPayload := serialize save (message_ work) in
  let preamble :=
    [tensor_int64s [getRank pg;
                    Z.of_nat (length serializedPayload);
                    MessageType_value (Message.type (message_ work))]] in
  let dst := WorkerId.id_ (to_ work) in
  if Message.isShutdown (message_ work) then
    [Lock dst; PgSend preamble dst dst; Unlock dst; Wait 0]
  else
    let payload :=
      [from_blob serializedPayload (length serializedPayload)] in
    [Lock dst; PgSend preamble dst dst; PgSend payload dst dst; Unlock dst;
     Wait 0; Wait 1].

End SendJob.

(** One call of the transport's [send], as a recording transport sees it. *)
Record Sent : Type := {
  sender : nat;             (* the job that made the call *)
  sent_dst : Z;
  sent_tag : Z;
  sent_tensors : list Tensor.t
}.

Record Pool : Type := {
  (** what is left to run of each job *)
  threads : list (list Instr);
  (** [sendMutexes_]: one mutex per rank, with its owner when locked *)
  sendMutexes_ : list (option nat);
  (** the calls of [pg_->send], in the order they were made *)
  wire : list Sent
}.

Definition pool_init (programs : list (list Instr)) (size : Z) : Result Pool :=
  sendMutexes ← vector_sized size None;
  Ok {| threads := programs; sendMutexes_ := sendMutexes; wire := [] |}.

(** Job [i] makes its next move.  A job that is finished, or waits for a
    mutex another job owns, does not move. *)
Definition pool_step (i : nat) (p : Pool) : Result Pool :=
  match threads p !! i with
  | None | Some [] => Ok p
  | Some (instr :: rest) =>
      let threads' := <[i := rest]> (threads p) in
      match instr with
      | Lock m =>
          owner ← vector_at (sendMutexes_ p) m;
          match owner with
          | Some _ => Ok p
          | None =>
              mutexes ← vector_set (sendMutexes_ p) m (Some i);
              Ok {| threads := threads'; sendMutexes_ := mutexes;
                    wire := wire p |}
          end
      | Unlock m =>
          mutexes ← vector_set (sendMutexes_ p) m None;
          Ok {| threads := threads'; sendMutexes_ := mutexes;
                wire := wire p |}
      | PgSend tensors dst tag =>
          Ok {| threads := threads'; sendMutexes_ := sendMutexes_ p;
                wire := wire p ++ [{| sender := i; sent_dst := dst;
                                      sent_tag := tag;
                                      sent_tensors := tensors |}] |}
      | Wait _ =>
          Ok {| threads := threads'; sendMutexes_ := sendMutexes_ p;
                wire := wire p |}
      end
  end.

Fixpoint pool_run (schedule : list nat) (p : Pool) : Result Pool :=
  match schedule with
  | [] => Ok p
  | i :: schedule' => p' ← pool_step i p; pool_run schedule' p'
  end.

(** The pool of an agent whose queue holds the send jobs of [works]. *)
Definition pool_start (save : list Tensor.t -> list byte) (pg : ProcessGroup)
    (works : list SendWork) : Result Pool :=
  pool_init (map (sendJob save pg) works) (getSize pg).

(** The transmissions of job [j] interleave with those of job [i]: one of
    [j] lies between two of [i]. *)
Definition interleaved (i j : nat) (w : list Sent) : Prop :=
  exists (p1 p2 p3 : nat) (a b c : Sent),
    (p1 < p2 < p3)%nat /\
    w !! p1 = Some a /\ w !! p2 = Some b /\ w !! p3 = Some c /\
    sender a = i /\ sender b = j /\ sender c = i.

(** What is left of a send job to destination [d]: the job has yet to take
    the mutex ([Lock] first), is between taking and releasing it
    ([sending]), or has released it ([waits]). *)
Inductive waits : list Instr -> Prop :=
| waits_nil : waits []
| waits_cons (k : nat) (r : list Instr) : waits r -> waits (Wait k :: r).

Inductive sending (d : Z) : list Instr -> Prop :=
| sending_send (ts : list Tensor.t) (tag : Z) (r : list Instr) :
    sending d r -> sending d (PgSend ts d tag :: r)
| sending_unlock (r : list Instr) :
    waits r -> sending d (Unlock d :: r).

Inductive shape (d : Z) : list Instr -> Prop :=
| shape_lock (r : list Instr) : sending d r -> shape d (Lock d :: r)
| shape_sending (r : list Instr) : sending d r -> shape d r
| shape_waits (r : list Instr) : waits r -> shape d r.

(** The invariant of the pool, [dsts] being the destination of each job. *)
Record pool_inv (dsts : list Z) (p : Pool) : Prop := {
  inv_shape : forall i rem, threads p !! i = Some rem ->
    exists d, dsts !! i = Some d /\ shape d rem;
  inv_owner : forall i rem d, threads p !! i = Some rem ->
    dsts !! i = Some d -> sending d rem ->
    0 <= d /\ sendMutexes_ p !! Z.to_nat d = Some (Some i);
  inv_idle : forall i m rest e, threads p !! i = Some (Lock m :: rest) ->
    e ∈ wire p -> sender e ≠ i;
  inv_dst : forall e, e ∈ wire p -> dsts !! sender e = Some (sent_dst e);
  inv_tail : forall i rem d p1 p2 a b, threads p !! i = Some rem ->
    dsts !! i = Some d -> sending d rem -> (p1 < p2)%nat ->
    wire p !! p1 = Some a -> wire p !! p2 = Some b ->
    sender a = i -> sent_dst b = d -> sender b = i;
  inv_block : forall p1 p2 p3 a b c, (p1 < p2 < p3)%nat ->
    wire p !! p1 = Some a -> wire p !! p2 = Some b -> wire p !! p3 = Some c ->
    sender a = sender c -> sent_dst b = sent_dst a -> sender b = sender a
}.

(** ** A reference archive format

    One concrete serializer for vectors of tensors, to run the codec on:
    a tensor is written as a byte for its scalar type, then each storage
    byte behind a [x01] marker, then [x00]. *)
Module Archive.

Definition code (t : ScalarType) : byte :=
  match t with
  | kByte => x00 | kChar => x01 | kShort => x02 | kInt => x03
  | kLong => x04 | kFloat => x05 | kDouble => x06
  end.

Definition decode (b : byte) : option ScalarType :=
  match Byte.to_N b with
  | 0%N => Some kByte | 1%N => Some kChar | 2%N => Some kShort
  | 3%N => Some kInt | 4%N => Some kLong | 5%N => Some kFloat
  | 6%N => Some kDouble | _ => None
  end.

Definition save_storage (bs : list byte) : list byte :=
  flat_map (fun b => [x01; b]) bs ++ [x00].

Definition save_tensor (x : Tensor.t) : list byte :=
  code (Tensor.scalar_type x) :: save_storage (Tensor.storage x).

Definition save (ts : list Tensor.t) : list byte :=
  flat_map save_tensor ts.

Fixpoint load_from (bs : list byte) (cur : option (ScalarType * list byte))
    (acc : list Tensor.t) : option (list Tensor.t) :=
  match cur, bs with
  | None, [] => Some (rev acc)
  | None, d :: bs' =>
      match decode d with
      | Some t => load_from bs' (Some (t, [])) acc
      | None => None
      end
  | Some _, [] => None
  | Some (t, st), m :: bs' =>
      if Byte.eqb m x00 then
        load_from bs' None (Tensor.Build t (rev st) :: acc)
      else if Byte.eqb m x01 then
        match bs' with
        | b :: bs'' => load_from bs'' (Some (t, b :: st)) acc
        | [] => None
        end
      else None
  end.

Definition load (bs : list byte) : option (list Tensor.t) :=
  load_from bs None [].

End Archive.

(** ** Observations on an agent *)

(** The future a shared pointer designates. *)
Definition future_at (a : Agent) (p : shared_ptr) : option FutureMessage.t :=
  match p with
  | null => None
  | ptr l => heap a !! l
  end.

Definition completed (a : Agent) (p : shared_ptr) : Prop :=
  exists f, future_at a p = Some f /\ FutureMessage.completed f = true.

Definition unresolved (a : Agent) (p : shared_ptr) : Prop :=
  exists f, future_at a p = Some f /\ FutureMessage.completed f = false.

Definition resolved_with (a : Agent) (p : shared_ptr) (m : Message.t) : Prop :=
  future_at a p = Some (FutureMessage.Build true (Some m)).

(** The id counter is an [int64_t] and every registered pointer designates
    a live future. *)
Definition table_wf (a : Agent) : Prop :=
  is_int64 (nextId_ a) /\
  forall id p, futures_ a !! id = Some p ->
    exists l, p = ptr l /\ (l < length (heap a))%nat.

(** The transport's rank and size are those of a group, both are worker
    ids, and the registry lists one worker per rank. *)
Definition registry_wf (a : Agent) : Prop :=
  0 <= getRank (pg_ a) < getSize (pg_ a) /\
  getSize (pg_ a) < 2 ^ 15 /\
  length (workerIds_ a) = Z.to_nat (getSize (pg_ a)).

(** The request [id] is pending on the future at address [l]: the table
    maps [id], and no other id, to that future, which is not completed. *)
Definition pending (a : Agent) (id : Z) (l : nat) : Prop :=
  futures_ a !! id = Some (ptr l) /\
  unresolved a (ptr l) /\
  forall id' p, futures_ a !! id' = Some p ->
    exists l', p = ptr l' /\ (l' < length (heap a))%nat /\ (l' = l -> id' = id).

(** The agent after a receive job has completed the future at [l] with the
    response [m] and erased its entry. *)
Definition answered (a : Agent) (l : nat) (m : Message.t) : Agent :=
  set_futures (delete (Message.id m) (futures_ a))
    (set_heap (<[l := FutureMessage.Build true (Some m)]> (heap a)) a).

(** The agent as [send] has it when it calls [enqueueSend] for a message
    bound to [workerIds_[to.id_]], and as it leaves it on return. *)
Definition prepared (a : Agent) (message : Message.t) : Agent :=
  let future := ptr (length (heap a)) in
  {| workerId_ := workerId_ a; nameMap_ := nameMap_ a; pg_ := pg_ a;
     nextId_ := int64_t (nextId_ a + 1);
     workerIds_ := workerIds_ a;
     futures_ := if Message.isRequest message
                 then <[nextId_ a := future]> (futures_ a)
                 else futures_ a;
     threadPool_ := threadPool_ a;
     heap := heap a ++ [if Message.isRequest message
                        then FutureMessage.fresh
                        else FutureMessage.Build true None] |}.

Definition outgoing (a : Agent) (dst : WorkerId.t) (message : Message.t)
  : SendWork :=
  {| to_ := dst;
     message_ := if Message.isRequest message
                 then Message.setId message (nextId_ a)
                 else message |}.

Definition sent (a : Agent) (dst : WorkerId.t) (message : Message.t) : Agent :=
  set_threadPool (threadPool_ a ++ [SendJob (outgoing a dst message)])
                 (prepared a message).

(** ** A three-worker group

    Workers A, B and C at ranks 0, 1 and 2, seen from A; A sends the request
    "ping" to B and B answers "pong". *)
Module Scenario.

Definition nameMap : gmap string Z :=
  <["A" := 0]> (<["B" := 1]> (<["C" := 2]> ∅)).

Definition pg : ProcessGroup := {| getRank := 0; getSize := 3 |}.

Definition agent : Agent := built "A" nameMap pg ["A"; "B"; "C"]%string.

Definition B : WorkerId.t := WorkerId.Build "B" 1.

Definition ping : Message.t :=
  Message.Build [x70; x69; x6e; x67] [] REQUEST (-1).

(** The agent and the future A holds once it has sent [ping]: the request
    got id 0. *)
Definition waiting : Agent := sent agent B ping.
Definition future : shared_ptr := ptr 0.

Definition pong (id : Z) : Message.t :=
  Message.Build [x70; x6f; x6e; x67] [] RESPONSE id.

(** What the listener hands to [enqueueRecv] when [m] arrives from B. *)
Definition arrival (m : Message.t) : RecvWork :=
  let body := serialize Archive.save m in
  {| from_ := B; type_ := Message.type m;
     payload_ := from_blob body (length body) |}.

(** The callback of this worker answers every request with "pong". *)
Definition cb (m : Message.t) : Result Message.t := Ok (pong (Message.id m)).

Definition C : WorkerId.t := WorkerId.Build "C" 2.

(** Other traffic of the agent while the request is out: a request from B
    comes in and is answered, and the agent sends a response to C. *)
Definition traffic : list Event :=
  [RunRecv (arrival (Message.Build [x68; x69] [] REQUEST 9));
   CallSend C (pong 3)].

(** Three send jobs, two of them to B, and a schedule that alternates
    between the jobs. *)
Definition works : list SendWork :=
  [{| to_ := B; message_ := Message.setId ping 0 |};
   {| to_ := B; message_ := pong 9 |};
   {| to_ := C; message_ := pong 3 |}].

Definition schedule : list nat :=
  [0; 1; 2; 0; 1; 2; 0; 1; 2; 0; 1; 2; 1; 1; 0; 1]%nat.

(** A destination below rank 0. *)
Definition nobody : WorkerId.t := WorkerId.Build "nobody" (-1).

(** A map that names a rank outside the group of size 3. *)
Definition strayMap : gmap string Z :=
  <["A" := 0]> (<["B" := 1]> (<["C" := 7]> ∅)).

End Scenario.

(** ** More of the agent: the registry seen by rank, the tables' invariant *)

(** The registry lists the workers by rank: the entry at index [i] has id
    [i]. *)
Definition registry_ranked (a : Agent) : Prop :=
  forall (i : nat) (w : WorkerId.t),
    workerIds_ a !! i = Some w -> WorkerId.id_ w = Z.of_nat i.

(** The table of pending requests, as the operations keep it: the counter
    has not wrapped, every registered id is below it, and every entry
    points at a future of its own that is not completed. *)
Definition table_inv (a : Agent) : Prop :=
  0 <= nextId_ a < 2 ^ 63 /\
  forall id p, futures_ a !! id = Some p ->
    0 <= id < nextId_ a /\
    exists l f, p = ptr l /\ heap a !! l = Some f /\
                FutureMessage.completed f = false /\
                forall id', futures_ a !! id' = Some (ptr l) -> id' = id.

(** The work a listener hands to [enqueueRecv] for the message [m] that the
    worker [from] sent: the type from the preamble and the encoded body as
    a tensor of chars. *)
Definition arrival (save : list Tensor.t -> list byte) (from : WorkerId.t)
    (m : Message.t) : RecvWork :=
  let body := serialize save m in
  {| from_ := from; type_ := Message.type m;
     payload_ := from_blob body (length body) |}.

(** ** More of the pool: what each job has transmitted, and termination *)

(** The transmissions a program makes, in program order: tensors,
    destination and tag of each [pg_->send]. *)
Definition sends_of (prog : list Instr) : list (list Tensor.t * Z * Z) :=
  flat_map (fun instr => match instr with
                         | PgSend ts dst tag => [(ts, dst, tag)]
                         | _ => []
                         end) prog.

(** The transmissions of job [i] on the wire, in wire order. *)
Definition sent_by (i : nat) (w : list Sent) : list (list Tensor.t * Z * Z) :=
  flat_map (fun e => if bool_decide (sender e = i)
                     then [(sent_tensors e, sent_dst e, sent_tag e)]
                     else []) w.

(** Every job has run to its end. *)
Definition finished (p : Pool) : Prop :=
  Forall (fun rem => rem = []) (threads p).

(** The number of actions the jobs have left. *)
Definition remaining (p : Pool) : nat := length (concat (threads p)).

(** The next action of the job can be taken whatever the mutexes are. *)
Definition moves_freely (rem : list Instr) : bool :=
  match rem with
  | [] => false
  | Lock _ :: _ => false
  | _ => true
  end.

(** The second half of the pool's invariant: a mutex that is owned is
    owned by a job between [Lock] and [Unlock] on it, and there is one
    mutex per rank of a group that holds every destination. *)
Record pool_inv2 (dsts : list Z) (p : Pool) : Prop := {
  inv_owned : forall m i, sendMutexes_ p !! m = Some (Some i) ->
    exists rem d, threads p !! i = Some rem /\ dsts !! i = Some d /\
                  sending d rem /\ Z.to_nat d = m;
  inv_ranks : forall i d, dsts !! i = Some d ->
    0 <= d < Z.of_nat (length (sendMutexes_ p))
}.

(** ** The listener and the shutdown ring *)

(** A conversion to [int]. *)
Definition int_t (z : Z) : Z := wrap_signed 32 z.

(** Modelled from the spec: the receiving side of the transport (c10d's
    ProcessGroup is not part of the sources at hand).  What has been sent
    to this process and not yet received is a queue of deliveries, oldest
    first, each with the rank it comes from, its tag and its tensors.
    [recvAnysource(tensors, tag)] takes the oldest delivery under the tag,
    [recv(tensors, srcRank, tag)] the oldest one from that rank under the
    tag; both block while there is none, and write the bytes of the
    delivery into the tensor they were given, which has to have that many
    bytes (anything else is a failure of the transport). *)
Record Delivery : Type := {
  source : Z;
  dtag : Z;
  data : list Tensor.t
}.

Fixpoint take_first (p : Delivery -> bool) (incoming : list Delivery)
  : option (Delivery * list Delivery) :=
  match incoming with
  | [] => None
  | d :: incoming' =>
      if p d then Some (d, incoming')
      else match take_first p incoming' with
           | Some (x, rest) => Some (x, d :: rest)
           | None => None
           end
  end.

Definition recvAnysource (tag : Z) (incoming : list Delivery)
  : option (Delivery * list Delivery) :=
  take_first (fun d => bool_decide (dtag d = tag)) incoming.

Definition recv (srcRank tag : Z) (incoming : list Delivery)
  : option (Delivery * list Delivery) :=
  take_first (fun d => bool_decide (source d = srcRank /\ dtag d = tag))
             incoming.

Definition fill_buffer (size : nat) (d : Delivery) : Result (list byte) :=
  let bytes := flat_map Tensor.storage (data d) in
  if bool_decide (length bytes = size) then Ok bytes
  else Exception "transport".

(** [data<int64_t>()[k]] on a buffer of [int64_t]. *)
Definition int64_item (bytes : list byte) (k : nat) : Z :=
  int64_t (le_value (take 8 (drop (8 * k) bytes))).

(** How [listenLoop] ends: it returns, or it stays blocked in a receive
    with nothing to read. *)
Inductive ListenEnd : Type :=
| Returned
| Blocked.

Section Listener.

(** [MessageType(v)]: how an [int64_t] reads as a message type (the
    enumeration is declared in message.h, not part of the sources at
    hand). *)
Variable MessageType_cast : Z -> MessageType.

(** [listenLoop], one iteration per unit of [fuel]; every iteration that
    goes round takes at least one delivery from the queue.  The result
    holds what is left unread. *)
Fixpoint listen (fuel : nat) (incoming : list Delivery)
  : M (ListenEnd * list Delivery) :=
  match fuel with
  | O => mret (Blocked, incoming)
  | S fuel' =>
      pg ← gets pg_;
      match recvAnysource (getRank pg) incoming with
      | None => mret (Blocked, incoming)
      | Some (d, incoming) =>
          preamble_items ← lift (fill_buffer 24 d);
          let srcRank := int64_item preamble_items 0 in
          let size := int64_item preamble_items 1 in
          let type := MessageType_cast (int64_item preamble_items 2) in
          if bool_decide (type = SHUTDOWN) then mret (Returned, incoming)
          else
            _ ← lift (TORCH_CHECK (bool_decide (0 <= size))
                  [Str "Trying to create tensor with negative dimension ";
                   Num size]);
            match recv (int_t srcRank) (getRank pg) incoming with
            | None => mret (Blocked, incoming)
            | Some (b, incoming) =>
                bytes ← lift (fill_buffer (Z.to_nat size) b);
                workerIds ← gets workerIds_;
                from ← lift (vector_at workerIds srcRank);
                _ ← enqueueRecv {| from_ := from; type_ := type;
                                   payload_ := Tensor.Build kChar bytes |};
                listen fuel' incoming
            end
      end
  end.

Definition listenLoop (incoming : list Delivery)
  : M (ListenEnd * list Delivery) :=
  listen (length incoming) incoming.

End Listener.

(** What a send job run at the rank of [pg] puts on the way to its
    destination. *)
Definition wire_of (save : list Tensor.t -> list byte) (pg : ProcessGroup)
    (work : SendWork) : list Delivery :=
  map (fun s : list Tensor.t * Z * Z =>
         {| source := getRank pg; dtag := s.2; data := s.1.1 |})
      (sends_of (sendJob save pg work)).

(** Modelled from the spec: [Message({}, {}, MessageType::SHUTDOWN)], a
    message built without an id, carries the sentinel id (message.h is not
    part of the sources at hand). *)
Definition Message_shutdown : Message.t := Message.Build [] [] SHUTDOWN (-1).

(** The rank [join] signals: [(pg_->getRank() + 1) % pg_->getSize()]. *)
Definition join_dst (pg : ProcessGroup) : Z :=
  Z.rem (getRank pg + 1) (getSize pg).

(** [join], as far as it acts on the agent: it queues the SHUTDOWN for the
    next rank.  The calls around it wait ([sync()] before, then
    [threadPool_.waitWorkComplete()] and [listenerThread_.join()]) and are
    left out.  The remainder by a size of 0 is undefined. *)
Definition join : M unit :=
  pg ← gets pg_;
  if bool_decide (getSize pg = 0) then lift (Undefined OutOfBounds)
  else
    let dst := join_dst pg in
    workerIds ← gets workerIds_;
    to ← lift (vector_at workerIds dst);
    enqueueSend {| to_ := to; message_ := Message_shutdown |}.

(** The agent with the receive jobs of [works] added to its queue. *)
Definition enqueued (works : list RecvWork) (a : Agent) : Agent :=
  set_threadPool (threadPool_ a ++ map RecvJob works) a.

(** The deliveries that the send jobs of [frames] put on the way, job
    after job; each frame is the transport group of the sender and the
    work of its job. *)
Definition stream (save : list Tensor.t -> list byte)
    (frames : list (ProcessGroup * SendWork)) : list Delivery :=
  flat_map (fun f => wire_of save f.1 f.2) frames.

(** The frame is one the agent [a] can take in, and [rw] is the work its
    listener makes of it: the job is addressed to the rank of [a], its
    message is no SHUTDOWN, the id and the length of the body are
    [int64_t], and the sender's rank is in the registry of [a], under the
    WorkerId that [rw] carries. *)
Definition delivers (save : list Tensor.t -> list byte) (a : Agent)
    (f : ProcessGroup * SendWork) (rw : RecvWork) : Prop :=
  WorkerId.id_ (to_ f.2) = getRank (pg_ a) /\
  Message.isShutdown (message_ f.2) = false /\
  is_int64 (Message.id (message_ f.2)) /\
  Z.of_nat (length (serialize save (message_ f.2))) < 2 ^ 63 /\
  0 <= getRank f.1 < 2 ^ 31 /\
  exists from, workerIds_ a !! Z.to_nat (getRank f.1) = Some from /\
               rw = arrival save from (message_ f.2).

(** ** The three-worker group, continued *)
Module Ring.

(** The message types as [int64_t], read back. *)
Definition cast (v : Z) : MessageType :=
  if bool_decide (v = 1) then RESPONSE
  else if bool_decide (v = 2) then SHUTDOWN
  else REQUEST.

(** The transport group as B (rank 1) and C (rank 2) see it. *)
Definition pgB : ProcessGroup := {| getRank := 1; getSize := 3 |}.
Definition pgC : ProcessGroup := {| getRank := 2; getSize := 3 |}.

Definition A : WorkerId.t := WorkerId.Build "A" 0.

(** B answers the request it got from A under id 0; C sends A a request of
    its own. *)
Definition fromB : SendWork := {| to_ := A; message_ := Scenario.pong 0 |}.
Definition fromC : SendWork :=
  {| to_ := A; message_ := Message.Build [x68; x69] [] REQUEST 4 |}.

(** C, the predecessor of A on the ring, signals the shutdown. *)
Definition shutdownFromC : SendWork :=
  {| to_ := A; message_ := Message_shutdown |}.

(** B as the constructor builds it. *)
Definition agentB : Agent :=
  built "B" Scenario.nameMap pgB ["A"; "B"; "C"]%string.

End Ring.

(** * Properties *)

Ltac result_simpl :=
  repeat (unfold mbind, mret, Result_mbind, Result_ret, M_bind, M_ret;
          cbn [Result_bind TORCH_CHECK]).

(** ** Integers and bytes *)

Lemma wrap_signed_id (w z : Z) : 0 < w -> in_signed w z -> wrap_signed w z = z.
Proof.
  unfold in_signed, wrap_signed. intros Hw Hz.
  assert (H2 : 2 ^ w = 2 * 2 ^ (w - 1)).
  { replace w with (Z.succ (w - 1)) at 1 by lia. rewrite Z.pow_succ_r; lia. }
  rewrite Z.mod_small; lia.
Qed.

Lemma wrap_signed_mod (w z : Z) :
  0 < w -> wrap_signed w (z mod 2 ^ w) = wrap_signed w z.
Proof.
  intros Hw. unfold wrap_signed. f_equal.
  rewrite Zplus_mod_idemp_l. reflexivity.
Qed.

Lemma wrap_signed_range (w z : Z) : 0 < w -> in_signed w (wrap_signed w z).
Proof.
  intros Hw. unfold in_signed, wrap_signed.
  assert (H2 : 2 ^ w = 2 * 2 ^ (w - 1)).
  { replace w with (Z.succ (w - 1)) at 1 by lia. rewrite Z.pow_succ_r; lia. }
  assert (0 < 2 ^ (w - 1)) by (apply Z.pow_pos_nonneg; lia).
  pose proof (Z.mod_pos_bound (z + 2 ^ (w - 1)) (2 ^ w)). lia.
Qed.

Lemma Z_of_byte_of_Z (z : Z) : Z_of_byte (byte_of_Z z) = z mod 256.
Proof.
  unfold Z_of_byte, byte_of_Z.
  pose proof (Z.mod_pos_bound z 256 eq_refl) as Hb.
  destruct (Byte.of_N (Z.to_N (z mod 256))) as [b|] eqn:E.
  - apply Byte.to_of_N in E. rewrite E. lia.
  - apply Byte.of_N_None_iff in E. lia.
Qed.

Lemma length_le_bytes (n : nat) (z : Z) : length (le_bytes n z) = n.
Proof. revert z. induction n as [|n IH]; intros z; simpl; [done | by rewrite IH]. Qed.

Lemma le_value_le_bytes (n : nat) (z : Z) :
  le_value (le_bytes n z) = z mod 2 ^ (8 * Z.of_nat n).
Proof.
  revert z. induction n as [|n IH]; intros z.
  - simpl. by rewrite Z.mod_1_r.
  - cbn [le_bytes le_value]. rewrite Z_of_byte_of_Z, IH.
    replace (8 * Z.of_nat (S n)) with (8 + 8 * Z.of_nat n) by lia.
    rewrite Z.pow_add_r by lia. change (2 ^ 8) with 256.
    rewrite Z.rem_mul_r by lia. reflexivity.
Qed.

Lemma storage_data_int64_0_tensor_int64 (v : Z) :
  is_int64 v -> storage_data_int64_0 (tensor_int64 v) = Ok v.
Proof.
  intros Hv. unfold storage_data_int64_0, tensor_int64. cbn [Tensor.scalar_type Tensor.storage].
  rewrite bool_decide_eq_true_2 by done. result_simpl.
  rewrite length_le_bytes. cbn [Nat.leb].
  rewrite firstn_all2 by (rewrite length_le_bytes; lia).
  rewrite le_value_le_bytes. unfold int64_t.
  change (8 * Z.of_nat 8) with 64.
  rewrite wrap_signed_mod by lia. by rewrite wrap_signed_id.
Qed.

(** ** The wire codec *)

Lemma back_snoc {A : Type} (v : list A) (x : A) : back (v ++ [x]) = Ok x.
Proof. unfold back. by rewrite last_snoc. Qed.

Lemma pop_back_snoc {A : Type} (v : list A) (x : A) : pop_back (v ++ [x]) = v.
Proof. apply removelast_last. Qed.

Lemma numel_from_blob (data : list byte) :
  Tensor.numel (from_blob data (length data)) = length data.
Proof.
  unfold Tensor.numel, from_blob. cbn [Tensor.storage Tensor.scalar_type elementSize].
  rewrite firstn_all. apply Nat.div_1_r.
Qed.

Section CodecFacts.

Variable save : list Tensor.t -> list byte.
Variable load : list byte -> option (list Tensor.t).

(** [torch::load] reads back what [torch::save] wrote. *)
Hypothesis load_save : forall ts, load (save ts) = Some ts.

Lemma deserialize_serialize (m : Message.t) :
  is_int64 (Message.id m) ->
  deserialize load (Message.type m) (serialize save m) = Ok m.
Proof using load_save.
  intros Hid. unfold deserialize, serialize, torch_load.
  rewrite load_save. unfold serialize_tensors.
  result_simpl.
  rewrite !length_app. cbn [length].
  replace (2 <=? _)%nat with true by (symmetry; apply Nat.leb_le; lia).
  result_simpl.
  rewrite back_snoc. result_simpl. rewrite pop_back_snoc.
  rewrite back_snoc. result_simpl. rewrite pop_back_snoc.
  rewrite storage_data_int64_0_tensor_int64 by done. result_simpl.
  rewrite numel_from_blob. unfold from_blob. cbn [Tensor.storage].
  rewrite firstn_all, firstn_all. by destruct m.
Qed.

(** C4: a message with a non-empty payload, any auxiliary tensors and type
    REQUEST or RESPONSE is decoded from its encoded body, under its own
    type, as the same message: same payload bytes, same auxiliary
    tensors, same type, same id. *)
Theorem deserialize_serialize_roundtrip (m : Message.t) :
  Message.payload m <> [] ->
  Message.type m = REQUEST \/ Message.type m = RESPONSE ->
  is_int64 (Message.id m) ->
  exists m',
    deserialize load (Message.type m) (serialize save m) = Ok m' /\
    Message.payload m' = Message.payload m /\
    Message.tensors m' = Message.tensors m /\
    Message.type m' = Message.type m /\
    Message.id m' = Message.id m /\
    m' = m.
Proof using load_save.
  intros _ _ Hid. exists m. by rewrite deserialize_serialize.
Qed.

End CodecFacts.

Section DecodeFacts.

Variable load : list byte -> option (list Tensor.t).

(** C8: a body that holds fewer than two tensors is refused with the
    decode error; no message comes out of it. *)
Theorem deserialize_too_few_blocks (type : MessageType) (body : list byte)
    (ts : list Tensor.t) :
  load body = Some ts ->
  (length ts < 2)%nat ->
  deserialize load type body = Error [Str "Failed to deserialize a message."]
  /\ ~ returns (deserialize load type body).
Proof.
  intros Hload Hlen.
  assert (E : deserialize load type body
              = Error [Str "Failed to deserialize a message."]).
  { unfold deserialize, torch_load. rewrite Hload.
    result_simpl.
    replace (2 <=? length ts)%nat with false
      by (symmetry; apply Nat.leb_gt; lia).
    reflexivity. }
  split; [exact E |]. rewrite E. intros [m' Hm']. discriminate.
Qed.

(** Bytes that the archive reader itself refuses give no message either. *)
Lemma deserialize_not_an_archive (type : MessageType) (body : list byte) :
  load body = None -> ~ returns (deserialize load type body).
Proof.
  intros Hload [m' Hm']. unfold deserialize, torch_load in Hm'.
  rewrite Hload in Hm'. discriminate.
Qed.

End DecodeFacts.

(** ** The reference archive format reads back what it wrote *)

Lemma Archive_decode_code (t : ScalarType) : Archive.decode (Archive.code t) = Some t.
Proof. by destruct t. Qed.

Lemma Archive_load_from_storage (st : list byte) :
  forall (t : ScalarType) (pre : list byte) (acc : list Tensor.t) (rest : list byte),
    Archive.load_from (Archive.save_storage st ++ rest) (Some (t, pre)) acc
    = Archive.load_from rest None (Tensor.Build t (rev pre ++ st) :: acc).
Proof.
  induction st as [|b st IH]; intros t pre acc rest.
  - cbn. by rewrite app_nil_r.
  - change (Archive.save_storage (b :: st) ++ rest)
      with (x01 :: b :: (Archive.save_storage st ++ rest)).
    cbn [Archive.load_from]. change (Byte.eqb x01 x00) with false.
    change (Byte.eqb x01 x01) with true. cbv iota.
    rewrite IH. cbn [rev]. by rewrite <- app_assoc.
Qed.

Lemma Archive_load_from_save (ts : list Tensor.t) :
  forall acc, Archive.load_from (Archive.save ts) None acc = Some (rev acc ++ ts).
Proof.
  induction ts as [|x ts IH]; intros acc.
  - cbn. by rewrite app_nil_r.
  - change (Archive.save (x :: ts))
      with (Archive.code (Tensor.scalar_type x)
              :: (Archive.save_storage (Tensor.storage x) ++ Archive.save ts)).
    cbn [Archive.load_from]. rewrite Archive_decode_code.
    rewrite Archive_load_from_storage, IH. cbn [rev app].
    rewrite <- app_assoc. by destruct x.
Qed.

Lemma Archive_load_save (ts : list Tensor.t) :
  Archive.load (Archive.save ts) = Some ts.
Proof. unfold Archive.load. by rewrite Archive_load_from_save. Qed.

Lemma deserialize_serialize_roundtrip_witness :
  exists m',
    deserialize Archive.load REQUEST (serialize Archive.save Scenario.ping)
    = Ok m' /\
    Message.payload m' = Message.payload Scenario.ping /\
    Message.tensors m' = Message.tensors Scenario.ping /\
    Message.type m' = Message.type Scenario.ping /\
    Message.id m' = Message.id Scenario.ping /\
    m' = Scenario.ping.
Proof.
  apply (deserialize_serialize_roundtrip Archive.save Archive.load
           Archive_load_save Scenario.ping).
  - discriminate.
  - left. reflexivity.
  - split; [vm_compute; discriminate | reflexivity].
Defined.

Lemma deserialize_too_few_blocks_witness :
  deserialize Archive.load RESPONSE (Archive.save [tensor_int64 7])
  = Error [Str "Failed to deserialize a message."] /\
  ~ returns (deserialize Archive.load RESPONSE (Archive.save [tensor_int64 7])).
Proof.
  apply (deserialize_too_few_blocks Archive.load RESPONSE
           (Archive.save [tensor_int64 7]) [tensor_int64 7]).
  - vm_compute. reflexivity.
  - cbn. lia.
Defined.

(** ** Construction and the worker registry *)

Lemma vector_set_Ok {A : Type} (v v' : list A) (i : Z) (x : A) :
  vector_set v i x = Ok v' ->
  0 <= i < Z.of_nat (length v) /\ v' = <[Z.to_nat i := x]> v.
Proof.
  unfold vector_set. case_bool_decide; [|discriminate].
  intros [= <-]. done.
Qed.

Lemma vector_at_Ok {A : Type} (v : list A) (i : Z) (x : A) :
  vector_at v i = Ok x <-> 0 <= i /\ v !! Z.to_nat i = Some x.
Proof.
  unfold vector_at. case_bool_decide.
  - destruct (v !! Z.to_nat i) eqn:E; split; intros H'; try discriminate.
    + injection H' as <-. done.
    + destruct H' as [_ [= <-]]. done.
    + destruct H' as [_ [=]].
  - split; [discriminate | lia].
Qed.

Lemma vector_at_in_range {A : Type} (v : list A) (i : Z) :
  0 <= i < Z.of_nat (length v) -> exists x, vector_at v i = Ok x.
Proof.
  intros Hi. destruct (lookup_lt_is_Some_2 v (Z.to_nat i)) as [x Hx]; [lia|].
  exists x. apply vector_at_Ok. split; [lia | done].
Qed.

Lemma vector_at_negative {A : Type} (v : list A) (i : Z) :
  i < 0 -> vector_at v i = Undefined OutOfBounds.
Proof. intros Hi. unfold vector_at. by rewrite bool_decide_eq_false_2 by lia. Qed.

Lemma fill_names_unfold (entries : list (string * Z)) (tmp : list string) :
  fill_names entries tmp = foldl fill_one (Ok tmp) entries.
Proof. reflexivity. Qed.

Lemma foldl_fill_one_Undefined (entries : list (string * Z)) (why : UB) :
  foldl fill_one (Undefined why) entries = Undefined why.
Proof. induction entries as [|e es IH]; [done | exact IH]. Qed.

Lemma fill_names_in_range (entries : list (string * Z)) :
  forall tmp : list string,
    Forall (fun e => 0 <= e.2 < Z.of_nat (length tmp)) entries ->
    exists tmp', fill_names entries tmp = Ok tmp' /\ length tmp' = length tmp.
Proof.
  induction entries as [|[name r] es IH]; intros tmp Hall.
  - exists tmp. done.
  - inversion Hall as [|? ? Hr Hes]; subst. cbn [snd] in Hr.
    rewrite fill_names_unfold. cbn [foldl]. unfold fill_one at 2.
    result_simpl. unfold vector_set. rewrite bool_decide_eq_true_2 by done.
    cbn [fst snd]. rewrite <- fill_names_unfold.
    destruct (IH (<[Z.to_nat r := name]> tmp)) as (tmp' & E & Hlen).
    { by rewrite length_insert. }
    exists tmp'. split; [done|]. by rewrite Hlen, length_insert.
Qed.

Lemma fill_names_out_of_range (entries : list (string * Z)) :
  forall tmp : list string,
    ~ Forall (fun e => 0 <= e.2 < Z.of_nat (length tmp)) entries ->
    fill_names entries tmp = Undefined OutOfBounds.
Proof.
  induction entries as [|[name r] es IH]; intros tmp Hall.
  - destruct Hall. constructor.
  - rewrite fill_names_unfold. cbn [foldl]. unfold fill_one at 2.
    result_simpl. unfold vector_set. cbn [fst snd]. case_bool_decide as Hr.
    + rewrite <- fill_names_unfold. apply IH. rewrite length_insert.
      intros Hes. apply Hall. by constructor.
    + apply foldl_fill_one_Undefined.
Qed.

Lemma fill_names_Ok (entries : list (string * Z)) (tmp tmp' : list string) :
  fill_names entries tmp = Ok tmp' ->
  Forall (fun e => 0 <= e.2 < Z.of_nat (length tmp)) entries /\
  length tmp' = length tmp.
Proof.
  intros E.
  destruct (decide (Forall (fun e => 0 <= e.2 < Z.of_nat (length tmp)) entries))
    as [Hall|Hall].
  - split; [done|]. destruct (fill_names_in_range _ _ Hall) as (t & E' & Hlen).
    congruence.
  - rewrite fill_names_out_of_range in E by done. discriminate.
Qed.

Lemma ranks_in_range_entries (nameMap : gmap string Z) (pg : ProcessGroup) :
  0 <= getSize pg ->
  ranks_in_range nameMap pg <->
  Forall (fun e : string * Z =>
            0 <= e.2 < Z.of_nat (length (replicate (Z.to_nat (getSize pg)) "")))
         (map_to_list nameMap).
Proof.
  intros Hsize. rewrite length_replicate, Z2Nat.id by done.
  rewrite Forall_forall. split.
  - intros H [name r] Hin. apply elem_of_map_to_list in Hin. by apply (H name).
  - intros H name r Hl. apply (H (name, r)). by apply elem_of_map_to_list.
Qed.

Lemma ProcessGroupAgent_new_Ok (workerName : string) (nameMap : gmap string Z)
    (pg : ProcessGroup) (a : Agent) :
  ProcessGroupAgent_new workerName nameMap pg = Ok a ->
  0 <= getSize pg /\ (1 < size nameMap)%nat /\
  nameMap !! workerName = Some (getRank pg) /\
  ranks_in_range nameMap pg /\
  exists tmp, length tmp = Z.to_nat (getSize pg) /\
              a = built workerName nameMap pg tmp.
Proof.
  unfold ProcessGroupAgent_new, vector_sized. cbn [WorkerId.name_ WorkerId_new].
  case_bool_decide as Hsize; [|discriminate]. result_simpl.
  case_bool_decide as Hn; [|discriminate]. result_simpl.
  destruct (nameMap !! workerName) as [r|] eqn:Hr; [|discriminate].
  case_bool_decide as Hrank; [|discriminate]. result_simpl.
  destruct (fill_names _ _) as [tmp| | |] eqn:Hfill; try discriminate.
  result_simpl. intros [= <-].
  apply fill_names_Ok in Hfill as [Hall Hlen].
  rewrite length_replicate in Hlen.
  split; [done|]. split; [done|]. split; [by subst r|].
  split; [by apply ranks_in_range_entries|]. by exists tmp.
Qed.

Lemma ProcessGroupAgent_new_returns (workerName : string)
    (nameMap : gmap string Z) (pg : ProcessGroup) :
  0 <= getSize pg -> (1 < size nameMap)%nat ->
  nameMap !! workerName = Some (getRank pg) ->
  ranks_in_range nameMap pg ->
  returns (ProcessGroupAgent_new workerName nameMap pg).
Proof.
  intros Hsize Hn Hr Hall.
  unfold ProcessGroupAgent_new, vector_sized. cbn [WorkerId.name_ WorkerId_new].
  rewrite bool_decide_eq_true_2 by done. result_simpl.
  rewrite bool_decide_eq_true_2 by done. result_simpl.
  rewrite Hr. rewrite bool_decide_eq_true_2 by done. result_simpl.
  apply ranks_in_range_entries in Hall; [|done].
  destruct (fill_names_in_range _ _ Hall) as (tmp & -> & _).
  result_simpl. eexists. reflexivity.
Qed.

(** When the three checks pass and a rank of the map is no rank of the
    group, the constructor writes outside its vector of names. *)
Lemma ProcessGroupAgent_new_out_of_range (workerName : string)
    (nameMap : gmap string Z) (pg : ProcessGroup) :
  0 <= getSize pg -> (1 < size nameMap)%nat ->
  nameMap !! workerName = Some (getRank pg) ->
  ~ ranks_in_range nameMap pg ->
  ProcessGroupAgent_new workerName nameMap pg = Undefined OutOfBounds.
Proof.
  intros Hsize Hn Hr Hall.
  unfold ProcessGroupAgent_new, vector_sized. cbn [WorkerId.name_ WorkerId_new].
  rewrite bool_decide_eq_true_2 by done. result_simpl.
  rewrite bool_decide_eq_true_2 by done. result_simpl.
  rewrite Hr. rewrite bool_decide_eq_true_2 by done. result_simpl.
  rewrite fill_names_out_of_range; [done|].
  intros H. apply Hall. by apply ranks_in_range_entries.
Qed.

(** When every rank of the map is a rank of the group, the constructor
    returns exactly when the three checks pass, and a failed check is
    diagnosed. *)
Lemma ProcessGroupAgent_new_checks (workerName : string)
    (nameMap : gmap string Z) (pg : ProcessGroup) :
  0 <= getSize pg -> ranks_in_range nameMap pg ->
  (((1 < size nameMap)%nat /\ nameMap !! workerName = Some (getRank pg)) ->
   returns (ProcessGroupAgent_new workerName nameMap pg)) /\
  (~ ((1 < size nameMap)%nat /\ nameMap !! workerName = Some (getRank pg)) ->
   diagnosed (ProcessGroupAgent_new workerName nameMap pg)).
Proof.
  intros Hsize Hall. split.
  - intros [Hn Hr]. by apply ProcessGroupAgent_new_returns.
  - intros Hnot.
    unfold ProcessGroupAgent_new, vector_sized. cbn [WorkerId.name_ WorkerId_new].
    rewrite bool_decide_eq_true_2 by done. result_simpl.
    case_bool_decide as Hn; result_simpl; [|by eexists].
    destruct (nameMap !! workerName) as [r|] eqn:Hr; [|by eexists].
    case_bool_decide as Hrank; result_simpl; [|by eexists].
    destruct Hnot. split; [done|]. by subst r.
Qed.

(** ** [send] *)

Ltac agent_simpl :=
  repeat (result_simpl;
          unfold gets, modify, lift, nextId, make_shared_FutureMessage,
            futures_assign, futures_erase, enqueueSend, markCompleted;
          cbn [workerId_ nameMap_ pg_ nextId_ workerIds_ futures_
               threadPool_ heap set_nextId set_futures set_threadPool
               set_heap]).

Lemma insert_snoc {A : Type} (l : list A) (x y : A) :
  <[length l := y]> (l ++ [x]) = l ++ [y].
Proof.
  replace (length l) with (length l + 0)%nat by lia.
  by rewrite insert_app_r.
Qed.

Lemma send_prepare_eval (a : Agent) (to : WorkerId.t) (m : Message.t) :
  send_prepare to m a =
  if bool_decide (WorkerId.id_ to ≠ worker_id_t (getRank (pg_ a))) then
    if bool_decide (WorkerId.id_ to < worker_id_t (getSize (pg_ a))) then
      match vector_at (workerIds_ a) (WorkerId.id_ to) with
      | Ok dst => Ok ((outgoing a dst m, ptr (length (heap a))), prepared a m)
      | Error what => Error what
      | Exception what => Exception what
      | Undefined why => Undefined why
      end
    else Error [Str "Destination rank is out of bound, got ";
                Num (WorkerId.id_ to); Str ", but world size is ";
                Num (getRank (pg_ a))]
  else Error [Str "ProcessGroupAgent does not support making RPC calls to self."].
Proof.
  unfold send_prepare. agent_simpl.
  case_bool_decide; agent_simpl; [|done].
  case_bool_decide; agent_simpl; [|done].
  unfold prepared, outgoing.
  destruct (Message.isRequest m); agent_simpl.
  - by destruct (vector_at _ _).
  - rewrite list_lookup_middle by done.
    unfold FutureMessage.markCompleted, FutureMessage.fresh.
    cbn [FutureMessage.completed negb]. agent_simpl.
    rewrite insert_snoc. by destruct (vector_at _ _).
Qed.

Lemma send_eval (a : Agent) (to : WorkerId.t) (m : Message.t) :
  send to m a =
  if bool_decide (WorkerId.id_ to ≠ worker_id_t (getRank (pg_ a))) then
    if bool_decide (WorkerId.id_ to < worker_id_t (getSize (pg_ a))) then
      match vector_at (workerIds_ a) (WorkerId.id_ to) with
      | Ok dst => Ok (ptr (length (heap a)), sent a dst m)
      | Error what => Error what
      | Exception what => Exception what
      | Undefined why => Undefined why
      end
    else Error [Str "Destination rank is out of bound, got ";
                Num (WorkerId.id_ to); Str ", but world size is ";
                Num (getRank (pg_ a))]
  else Error [Str "ProcessGroupAgent does not support making RPC calls to self."].
Proof.
  unfold send. result_simpl. rewrite send_prepare_eval.
  case_bool_decide; [|done]. case_bool_decide; [|done].
  by destruct (vector_at _ _).
Qed.

(** ** The receive job *)

Section JobFacts.

Variable load : list byte -> option (list Tensor.t).
Variable cb_ : Message.t -> Result Message.t.

Lemma isResponse_not_isRequest (m : Message.t) :
  Message.isResponse m = true -> Message.isRequest m = false.
Proof.
  unfold Message.isResponse, Message.isRequest.
  intros H%bool_decide_eq_true. apply bool_decide_eq_false. congruence.
Qed.

Lemma recvJob_request (work : RecvWork) (m : Message.t) (a : Agent) :
  received load work = Ok m -> Message.isRequest m = true ->
  recvJob load cb_ work a =
  match cb_ m with
  | Ok response =>
      match send (from_ work) response a with
      | Ok (_, a') => Ok (tt, a')
      | Error what => Error what
      | Exception what => Exception what
      | Undefined why => Undefined why
      end
  | Error what => Error what
  | Exception what => Exception what
  | Undefined why => Undefined why
  end.
Proof.
  intros Hm Hreq. unfold recvJob. agent_simpl. rewrite Hm, Hreq.
  by destruct (cb_ m).
Qed.

Lemma recvJob_response (work : RecvWork) (m : Message.t) (a : Agent) :
  received load work = Ok m -> Message.isResponse m = true ->
  recvJob load cb_ work a =
  match futures_ a !! Message.id m with
  | Some (ptr l) =>
      match heap a !! l with
      | Some f =>
          if FutureMessage.completed f
          then Error [Str "Future already completed."]
          else Ok (tt, answered a l m)
      | None => Undefined NullDereference
      end
  | Some null | None => Undefined NullDereference
  end.
Proof.
  intros Hm Hresp. unfold recvJob. agent_simpl. rewrite Hm.
  rewrite (isResponse_not_isRequest _ Hresp), Hresp.
  unfold futures_subscript.
  destruct (futures_ a !! Message.id m) as [[|l]|]; agent_simpl; try done.
  destruct (heap a !! l) as [f|]; [|done].
  unfold FutureMessage.markCompleted.
  destruct (FutureMessage.completed f); agent_simpl; done.
Qed.

Lemma recvJob_other (work : RecvWork) (m : Message.t) (a : Agent) :
  received load work = Ok m ->
  Message.isRequest m = false -> Message.isResponse m = false ->
  recvJob load cb_ work a
  = Error [Str "unrecognized message type "; Enum (Message.type m)].
Proof.
  intros Hm Hreq Hresp. unfold recvJob. agent_simpl.
  by rewrite Hm, Hreq, Hresp.
Qed.

Lemma recvJob_not_received (work : RecvWork) (a : Agent) :
  ~ returns (received load work) -> ~ returns (recvJob load cb_ work a).
Proof.
  intros Hno [[[] a'] E]. apply Hno. unfold recvJob in E.
  agent_simpl. destruct (received load work) as [m| | |]; try discriminate.
  by exists m.
Qed.

(** A response whose id is not in the table: the subscript inserts a null
    pointer and the job dereferences it. *)
Lemma recvJob_unknown_id (work : RecvWork) (m : Message.t) (a : Agent) :
  received load work = Ok m -> Message.isResponse m = true ->
  futures_ a !! Message.id m = None ->
  recvJob load cb_ work a = Undefined NullDereference.
Proof.
  intros Hm Hresp Hnone. rewrite (recvJob_response _ _ _ Hm Hresp).
  by rewrite Hnone.
Qed.

(** A response whose id is in the table, on a future not yet completed:
    the future is completed with the response and the entry is erased. *)
Lemma recvJob_known_id (work : RecvWork) (m : Message.t) (a : Agent)
    (p : shared_ptr) :
  received load work = Ok m -> Message.isResponse m = true ->
  futures_ a !! Message.id m = Some p -> unresolved a p ->
  exists a', recvJob load cb_ work a = Ok (tt, a') /\
             resolved_with a' p m /\
             futures_ a' = delete (Message.id m) (futures_ a).
Proof.
  intros Hm Hresp Hp (f & Hf & Hc).
  rewrite (recvJob_response _ _ _ Hm Hresp), Hp.
  destruct p as [|l]; [discriminate|]. cbn [future_at] in Hf.
  rewrite Hf, Hc. eexists. split; [done|]. split; [|done].
  unfold resolved_with, answered. cbn [future_at heap set_futures set_heap].
  apply list_lookup_insert_eq. by eapply lookup_lt_Some.
Qed.

End JobFacts.

(** ** The registry *)

Lemma built_registry_wf (workerName : string) (nameMap : gmap string Z)
    (pg : ProcessGroup) (tmp : list string) :
  0 <= getRank pg < getSize pg -> getSize pg < 2 ^ 15 ->
  length tmp = Z.to_nat (getSize pg) ->
  registry_wf (built workerName nameMap pg tmp).
Proof.
  intros Hr Hs Hlen. unfold registry_wf, built. cbn [pg_ workerIds_].
  split; [done|]. split; [done|]. by rewrite length_imap.
Qed.

Lemma built_table_wf (workerName : string) (nameMap : gmap string Z)
    (pg : ProcessGroup) (tmp : list string) :
  table_wf (built workerName nameMap pg tmp).
Proof.
  unfold table_wf, built. cbn [nextId_ futures_ heap]. split.
  - unfold is_int64, in_signed. split; [by vm_compute | reflexivity].
  - intros id p H. by rewrite lookup_empty in H.
Qed.

Lemma Scenario_constructed :
  ProcessGroupAgent_new "A" Scenario.nameMap Scenario.pg = Ok Scenario.agent.
Proof. by vm_compute. Qed.

(** C10: a name the registry does not hold is refused with a diagnostic
    that names it; a name it holds yields the WorkerId whose rank is the
    one the registry maps the name to (on an agent the constructor built,
    for a group whose ranks are worker ids). *)
Theorem getWorkerId_by_name (workerName : string) (nameMap : gmap string Z)
    (pg : ProcessGroup) (a : Agent) (name : string) :
  ProcessGroupAgent_new workerName nameMap pg = Ok a ->
  getSize pg <= 2 ^ 15 ->
  nameMap_ a = nameMap /\
  (nameMap_ a !! name = None ->
   getWorkerId a name = Error [Str "Unknown destination worker "; Str name]) /\
  (forall r, nameMap_ a !! name = Some r ->
     exists w, getWorkerId a name = Ok w /\ WorkerId.id_ w = r).
Proof.
  intros Hnew Hsize.
  apply ProcessGroupAgent_new_Ok in Hnew
    as (Hpos & _ & _ & Hall & tmp & Hlen & ->).
  cbn [built nameMap_]. split; [done|]. split.
  - intros Hnone. unfold getWorkerId. cbn [built nameMap_]. by rewrite Hnone.
  - intros r Hr. unfold getWorkerId. cbn [built nameMap_ workerIds_].
    rewrite Hr. destruct (Hall _ _ Hr) as [Hr0 Hr1].
    destruct (lookup_lt_is_Some_2 tmp (Z.to_nat r)) as [n Hn]; [lia|].
    exists (WorkerId_new n (Z.of_nat (Z.to_nat r))). split.
    + apply vector_at_Ok. split; [done|].
      rewrite list_lookup_imap, Hn. done.
    + cbn [WorkerId_new WorkerId.id_]. rewrite Z2Nat.id by done.
      apply wrap_signed_id; [lia|]. unfold in_signed.
      change (2 ^ (16 - 1)) with (2 ^ 15). lia.
Qed.

Lemma getWorkerId_by_name_witness :
  nameMap_ Scenario.agent = Scenario.nameMap /\
  (nameMap_ Scenario.agent !! "B" = None ->
   getWorkerId Scenario.agent "B"
   = Error [Str "Unknown destination worker "; Str "B"]) /\
  (forall r, nameMap_ Scenario.agent !! "B" = Some r ->
     exists w, getWorkerId Scenario.agent "B" = Ok w /\ WorkerId.id_ w = r).
Proof.
  apply (getWorkerId_by_name "A" Scenario.nameMap Scenario.pg Scenario.agent "B").
  - vm_compute. reflexivity.
  - vm_compute. discriminate.
Defined.

(** C5, at a map that names a rank outside the group: the three checks of
    the constructor pass, and the constructor then writes outside its
    vector of names; the failure is not diagnosed. *)
Theorem ProcessGroupAgent_new_stray_rank :
  (1 < size Scenario.strayMap)%nat /\
  Scenario.strayMap !! "A" = Some (getRank Scenario.pg) /\
  ~ ranks_in_range Scenario.strayMap Scenario.pg /\
  ProcessGroupAgent_new "A" Scenario.strayMap Scenario.pg
  = Undefined OutOfBounds /\
  ~ diagnosed (ProcessGroupAgent_new "A" Scenario.strayMap Scenario.pg) /\
  ~ returns (ProcessGroupAgent_new "A" Scenario.strayMap Scenario.pg).
Proof.
  assert (E : ProcessGroupAgent_new "A" Scenario.strayMap Scenario.pg
              = Undefined OutOfBounds) by (by vm_compute).
  split; [vm_compute; lia|]. split; [by vm_compute|]. split.
  - intros H. specialize (H "C"%string 7 eq_refl). cbn in H. lia.
  - split; [exact E|]. rewrite E. split; intros [? ?]; discriminate.
Qed.

(** ** What [send] checks, allocates and registers *)

Lemma worker_id_t_id (z : Z) : - 2 ^ 15 <= z < 2 ^ 15 -> worker_id_t z = z.
Proof. intros Hz. apply wrap_signed_id; [lia | exact Hz]. Qed.

Lemma registry_wf_rank (a : Agent) :
  registry_wf a -> worker_id_t (getRank (pg_ a)) = getRank (pg_ a).
Proof. intros (Hr & Hs & _). apply worker_id_t_id. lia. Qed.

Lemma registry_wf_size (a : Agent) :
  registry_wf a -> worker_id_t (getSize (pg_ a)) = getSize (pg_ a).
Proof. intros (Hr & Hs & _). apply worker_id_t_id. lia. Qed.

Lemma send_Ok (a a' : Agent) (to : WorkerId.t) (m : Message.t) (f : shared_ptr) :
  send to m a = Ok (f, a') ->
  WorkerId.id_ to ≠ worker_id_t (getRank (pg_ a)) /\
  WorkerId.id_ to < worker_id_t (getSize (pg_ a)) /\
  exists dst, vector_at (workerIds_ a) (WorkerId.id_ to) = Ok dst /\
              f = ptr (length (heap a)) /\ a' = sent a dst m.
Proof.
  rewrite send_eval. case_bool_decide; [|discriminate].
  case_bool_decide; [|discriminate].
  destruct (vector_at _ _) as [dst| | |]; try discriminate.
  intros [= <- <-]. split; [done|]. split; [done|]. by exists dst.
Qed.

Lemma send_returns (a : Agent) (to : WorkerId.t) (m : Message.t) :
  registry_wf a ->
  0 <= WorkerId.id_ to < getSize (pg_ a) ->
  WorkerId.id_ to ≠ getRank (pg_ a) ->
  returns (send to m a).
Proof.
  intros Hwf Hto Hself. rewrite send_eval.
  rewrite (registry_wf_rank _ Hwf), (registry_wf_size _ Hwf).
  rewrite bool_decide_eq_true_2 by done.
  rewrite bool_decide_eq_true_2 by lia.
  destruct Hwf as (_ & _ & Hlen).
  destruct (vector_at_in_range (workerIds_ a) (WorkerId.id_ to)) as [dst ->];
    [lia|]. by eexists.
Qed.

(** Sending to oneself, or to a rank at or above the group size, is
    refused with a diagnostic. *)
Lemma send_rejects (a : Agent) (to : WorkerId.t) (m : Message.t) :
  registry_wf a ->
  WorkerId.id_ to = getRank (pg_ a) \/ getSize (pg_ a) <= WorkerId.id_ to ->
  diagnosed (send to m a).
Proof.
  intros Hwf Hto. rewrite send_eval.
  rewrite (registry_wf_rank _ Hwf), (registry_wf_size _ Hwf).
  case_bool_decide; [|by eexists].
  rewrite bool_decide_eq_false_2 by lia. by eexists.
Qed.

(** A rank below 0 passes both checks; [workerIds_[to.id_]] then reads
    outside the vector. *)
Lemma send_negative_rank (a : Agent) (to : WorkerId.t) (m : Message.t) :
  registry_wf a ->
  WorkerId.id_ to < 0 ->
  send to m a = Undefined OutOfBounds.
Proof.
  intros Hwf Hto. rewrite send_eval.
  rewrite (registry_wf_rank _ Hwf), (registry_wf_size _ Hwf).
  destruct Hwf as (Hr & _ & _).
  rewrite bool_decide_eq_true_2 by lia.
  rewrite bool_decide_eq_true_2 by lia.
  by rewrite vector_at_negative.
Qed.

(** C3, at a destination of rank -1 in the three-worker group: neither
    check refuses it, and the call reads [workerIds_[-1]]; nothing is
    diagnosed. *)
Theorem send_to_negative_rank :
  ~ (0 <= WorkerId.id_ Scenario.nobody < getSize (pg_ Scenario.agent)) /\
  send Scenario.nobody Scenario.ping Scenario.agent = Undefined OutOfBounds /\
  ~ diagnosed (send Scenario.nobody Scenario.ping Scenario.agent).
Proof.
  assert (E : send Scenario.nobody Scenario.ping Scenario.agent
              = Undefined OutOfBounds) by (by vm_compute).
  split; [cbn; lia|]. split; [exact E|]. rewrite E. intros [? ?]. discriminate.
Qed.

(** C2, as stated, fails: a response consumes an id too. *)
Lemma send_response_consumes_id :
  ~ (forall (a a' : Agent) (to : WorkerId.t) (m : Message.t) (f : shared_ptr),
       Message.type m = RESPONSE \/ Message.type m = SHUTDOWN ->
       send to m a = Ok (f, a') -> nextId_ a' = nextId_ a).
Proof.
  intros H.
  specialize (H Scenario.agent
                (sent Scenario.agent Scenario.B (Scenario.pong 0))
                Scenario.B (Scenario.pong 0) (ptr 0)).
  assert (E : nextId_ (sent Scenario.agent Scenario.B (Scenario.pong 0)) = 1)
    by (by vm_compute).
  rewrite E in H. cbn in H. specialize (H (or_introl eq_refl)).
  assert (1 = 0) by (apply H; by vm_compute). discriminate.
Qed.

(** C2, amended: every call of [send] that passes the precondition checks
    takes the next value of the counter, whatever the type of the message,
    and the counter moves up by one (short of [int64_t] overflow).  Only a
    REQUEST gets that id and has its future registered under it; the
    registration is in place, and nothing has been handed to the thread
    pool, when [send] calls [enqueueSend].  A RESPONSE or SHUTDOWN keeps
    its id and leaves the table as it was. *)
Theorem send_allocates_and_registers (a a' : Agent) (to : WorkerId.t)
    (m : Message.t) (f : shared_ptr) :
  send to m a = Ok (f, a') ->
  nextId_ a' = int64_t (nextId_ a + 1) /\
  (is_int64 (nextId_ a) -> nextId_ a ≠ 2 ^ 63 - 1 -> nextId_ a < nextId_ a') /\
  exists (work : SendWork) (mid : Agent),
    send_prepare to m a = Ok ((work, f), mid) /\
    enqueueSend work mid = Ok (tt, a') /\
    threadPool_ mid = threadPool_ a /\
    threadPool_ a' = threadPool_ a ++ [SendJob work] /\
    (Message.isRequest m = true ->
       message_ work = Message.setId m (nextId_ a) /\
       futures_ mid !! nextId_ a = Some f /\
       futures_ a' !! nextId_ a = Some f /\
       unresolved mid f) /\
    (Message.isRequest m = false ->
       message_ work = m /\ futures_ mid = futures_ a /\
       futures_ a' = futures_ a).
Proof.
  intros Hsend. pose proof (send_Ok _ _ _ _ _ Hsend)
    as (Hself & Hsize & dst & Hdst & -> & ->).
  split; [done|]. split.
  { intros Hint Hmax. cbn [sent prepared set_threadPool nextId_].
    unfold int64_t. rewrite wrap_signed_id; [lia | lia |].
    unfold is_int64, in_signed in *. change (2 ^ (64 - 1)) with (2 ^ 63) in *.
    lia. }
  exists (outgoing a dst m), (prepared a m).
  rewrite send_prepare_eval.
  rewrite bool_decide_eq_true_2 by done.
  rewrite bool_decide_eq_true_2 by done. rewrite Hdst.
  split; [done|]. split; [done|]. split; [done|]. split; [done|].
  split; intros Hreq; unfold unresolved, outgoing, sent; unfold prepared;
    cbn [message_ futures_ set_threadPool heap future_at]; rewrite !Hreq.
  - split; [done|]. rewrite lookup_insert_eq. split; [done|]. split; [done|].
    exists FutureMessage.fresh. split; [|done]. by apply list_lookup_middle.
  - done.
Qed.

Lemma send_allocates_and_registers_witness :
  nextId_ Scenario.waiting = int64_t (nextId_ Scenario.agent + 1) /\
  futures_ Scenario.waiting !! nextId_ Scenario.agent = Some Scenario.future.
Proof.
  destruct (send_allocates_and_registers Scenario.agent Scenario.waiting
              Scenario.B Scenario.ping Scenario.future)
    as (Hnext & _ & work & mid & _ & _ & _ & _ & Hreq & _).
  - vm_compute. reflexivity.
  - split; [exact Hnext|]. destruct (Hreq eq_refl) as (_ & _ & H & _). exact H.
Defined.

(** C7: the future that [send] returns for a RESPONSE or a SHUTDOWN is
    completed when [send] returns; and [send] does return one for every
    destination that is a rank of the group other than the agent's own. *)
Theorem send_non_request_completed (a : Agent) (to : WorkerId.t)
    (m : Message.t) :
  Message.type m = RESPONSE \/ Message.type m = SHUTDOWN ->
  (forall f a', send to m a = Ok (f, a') -> completed a' f) /\
  (registry_wf a ->
   0 <= WorkerId.id_ to < getSize (pg_ a) ->
   WorkerId.id_ to ≠ getRank (pg_ a) ->
   exists f a', send to m a = Ok (f, a') /\ completed a' f).
Proof.
  intros Htype.
  assert (Hreq : Message.isRequest m = false).
  { apply bool_decide_eq_false. destruct Htype; congruence. }
  assert (Hc : forall f a', send to m a = Ok (f, a') -> completed a' f).
  { intros f a' Hsend. apply send_Ok in Hsend as (_ & _ & dst & _ & -> & ->).
    exists (FutureMessage.Build true None). split; [|done].
    unfold sent, prepared. cbn [future_at heap set_threadPool].
    rewrite Hreq. by apply list_lookup_middle. }
  split; [exact Hc|].
  intros Hwf Hto Hself.
  destruct (send_returns a to m Hwf Hto Hself) as [[f a'] E].
  exists f, a'. split; [done|]. by apply Hc.
Qed.

Lemma send_non_request_completed_witness :
  exists f a',
    send Scenario.B (Scenario.pong 0) Scenario.agent = Ok (f, a') /\
    completed a' f.
Proof.
  apply (send_non_request_completed Scenario.agent Scenario.B (Scenario.pong 0)).
  - left. reflexivity.
  - apply built_registry_wf; vm_compute; try reflexivity;
      split; discriminate || reflexivity.
  - vm_compute. split; [discriminate | reflexivity].
  - vm_compute. discriminate.
Defined.

(** C1, at a response that answers no request of this agent: the table of
    the freshly built agent is empty, the job subscripts it with the id of
    the response and dereferences the null pointer it gets; nothing is
    diagnosed. *)
Theorem recvJob_response_without_request :
  received Archive.load (Scenario.arrival (Scenario.pong 5))
  = Ok (Scenario.pong 5) /\
  futures_ Scenario.agent !! Message.id (Scenario.pong 5) = None /\
  recvJob Archive.load Scenario.cb (Scenario.arrival (Scenario.pong 5))
          Scenario.agent
  = Undefined NullDereference /\
  ~ diagnosed (recvJob Archive.load Scenario.cb
                 (Scenario.arrival (Scenario.pong 5)) Scenario.agent).
Proof.
  assert (E : recvJob Archive.load Scenario.cb
                (Scenario.arrival (Scenario.pong 5)) Scenario.agent
              = Undefined NullDereference) by (by vm_compute).
  split; [by vm_compute|]. split; [by vm_compute|].
  split; [exact E|]. rewrite E. intros [? ?]. discriminate.
Qed.

(** ** Requests and the responses that resolve them *)

Lemma wrap_signed_congr (w a b : Z) :
  0 < w -> a mod 2 ^ w = b mod 2 ^ w -> wrap_signed w a = wrap_signed w b.
Proof.
  intros Hw H. unfold wrap_signed. f_equal.
  rewrite (Z.add_mod a), (Z.add_mod b), H by lia. reflexivity.
Qed.

Lemma wrap_signed_mod_eq (w z : Z) :
  0 < w -> wrap_signed w z mod 2 ^ w = z mod 2 ^ w.
Proof.
  intros Hw. unfold wrap_signed.
  rewrite Zminus_mod_idemp_l. f_equal. lia.
Qed.

Lemma int64_t_succ (x : Z) : int64_t (int64_t x + 1) = int64_t (x + 1).
Proof.
  unfold int64_t. apply wrap_signed_congr; [lia|].
  rewrite (Z.add_mod (wrap_signed 64 x)), wrap_signed_mod_eq by lia.
  rewrite <- Z.add_mod by lia. reflexivity.
Qed.

(** The ids handed out after [id] differ from it until the counter has gone
    all the way round. *)
Lemma int64_t_later_id (id c : Z) :
  is_int64 id -> 0 <= c < 2 ^ 64 - 1 -> int64_t (id + 1 + c) ≠ id.
Proof.
  intros Hid Hc E.
  assert (H : (id + 1 + c) mod 2 ^ 64 = id mod 2 ^ 64).
  { rewrite <- E at 2. unfold int64_t. by rewrite wrap_signed_mod_eq. }
  assert (H1 : (id + (1 + c)) mod 2 ^ 64 = (id + 0) mod 2 ^ 64)
    by (rewrite Z.add_0_r, <- H; f_equal; lia).
  assert (H2 : (1 + c) mod 2 ^ 64 = 0 mod 2 ^ 64).
  { rewrite <- (Z.add_simpl_l id (1 + c)), <- (Z.add_simpl_l id 0) at 1.
    rewrite Zminus_mod, H1, <- Zminus_mod. reflexivity. }
  rewrite Z.mod_small, Z.mod_0_l in H2 by lia. lia.
Qed.

Lemma sent_pending_new (a : Agent) (dst : WorkerId.t) (m : Message.t) :
  table_wf a -> Message.isRequest m = true ->
  pending (sent a dst m) (nextId_ a) (length (heap a)).
Proof.
  intros [_ Hwf] Hreq. unfold pending, unresolved, sent. unfold prepared.
  cbn [futures_ heap set_threadPool future_at]. rewrite !Hreq.
  split; [by rewrite lookup_insert_eq|]. split.
  { exists FutureMessage.fresh. split; [|done]. by apply list_lookup_middle. }
  intros id' p Hp. rewrite length_app. cbn [length].
  destruct (decide (nextId_ a = id')) as [<-|Hne].
  - rewrite lookup_insert_eq in Hp. injection Hp as <-.
    exists (length (heap a)). split; [done|]. split; [lia | done].
  - rewrite lookup_insert_ne in Hp by done.
    destruct (Hwf _ _ Hp) as (l' & -> & Hl'). exists l'.
    split; [done|]. split; lia.
Qed.

Lemma sent_keeps_pending (a : Agent) (dst : WorkerId.t) (m : Message.t)
    (id : Z) (l : nat) :
  pending a id l -> nextId_ a ≠ id -> pending (sent a dst m) id l.
Proof.
  intros (Hid & (f & Hf & Hc) & Hall) Hne.
  cbn [future_at] in Hf. pose proof (lookup_lt_Some _ _ _ Hf) as Hl.
  unfold pending, unresolved, sent. unfold prepared.
  cbn [futures_ heap set_threadPool future_at].
  split; [|split].
  - destruct (Message.isRequest m); [|done]. by rewrite lookup_insert_ne.
  - exists f. split; [|done]. by rewrite lookup_app_l.
  - intros id' p Hp. rewrite length_app. cbn [length].
    destruct (Message.isRequest m).
    + destruct (decide (nextId_ a = id')) as [<-|Hne'].
      * rewrite lookup_insert_eq in Hp. injection Hp as <-.
        exists (length (heap a)). split; [done|]. split; lia.
      * rewrite lookup_insert_ne in Hp by done.
        destruct (Hall _ _ Hp) as (l' & -> & Hl' & Hinj). exists l'.
        split; [done|]. split; [lia | done].
    + destruct (Hall _ _ Hp) as (l' & -> & Hl' & Hinj). exists l'.
      split; [done|]. split; [lia | done].
Qed.

Lemma answered_keeps_pending (a : Agent) (l' : nat) (m : Message.t)
    (id : Z) (l : nat) :
  pending a id l -> futures_ a !! Message.id m = Some (ptr l') ->
  Message.id m ≠ id -> pending (answered a l' m) id l.
Proof.
  intros (Hid & (f & Hf & Hc) & Hall) Hm Hne.
  cbn [future_at] in Hf.
  assert (Hll : l' ≠ l).
  { intros ->. destruct (Hall _ _ Hm) as (l0 & [= <-] & _ & Hinj). auto. }
  unfold pending, unresolved, answered.
  cbn [futures_ heap set_futures set_heap future_at].
  split; [|split].
  - by rewrite lookup_delete_ne.
  - exists f. split; [|done]. by rewrite list_lookup_insert_ne.
  - intros id' p Hp. rewrite length_insert.
    apply lookup_delete_Some in Hp as [_ Hp]. by apply Hall.
Qed.

Lemma sent_table_wf (a : Agent) (dst : WorkerId.t) (m : Message.t) :
  table_wf a -> table_wf (sent a dst m).
Proof.
  intros [_ Hwf]. unfold table_wf, sent. unfold prepared.
  cbn [nextId_ futures_ heap set_threadPool]. split.
  - apply wrap_signed_range. lia.
  - intros id p Hp. rewrite length_app. cbn [length].
    destruct (Message.isRequest m).
    + destruct (decide (nextId_ a = id)) as [<-|Hne].
      * rewrite lookup_insert_eq in Hp. injection Hp as <-.
        exists (length (heap a)). split; [done | lia].
      * rewrite lookup_insert_ne in Hp by done.
        destruct (Hwf _ _ Hp) as (l & -> & Hl). exists l. split; [done | lia].
    + destruct (Hwf _ _ Hp) as (l & -> & Hl). exists l. split; [done | lia].
Qed.

Lemma answered_table_wf (a : Agent) (l : nat) (m : Message.t) :
  table_wf a -> table_wf (answered a l m).
Proof.
  intros [Hid Hwf]. unfold table_wf, answered.
  cbn [nextId_ futures_ heap set_futures set_heap]. split; [done|].
  intros id p Hp. rewrite length_insert.
  apply lookup_delete_Some in Hp as [_ Hp]. by apply (Hwf id).
Qed.

Section Correlation.

Variable load : list byte -> option (list Tensor.t).
Variable cb_ : Message.t -> Result Message.t.

(** One operation of the agent other than the arrival of the response to
    [id] leaves the request pending, and takes at most one id. *)
Lemma step_keeps_pending (e : Event) (a a' : Agent) (id c : Z) (l : nat) :
  pending a id l -> is_int64 id ->
  nextId_ a = int64_t (id + 1 + c) -> 0 <= c < 2 ^ 64 - 1 ->
  ~ response_to load id e ->
  step load cb_ e a = Ok (tt, a') ->
  pending a' id l /\
  exists c', c <= c' <= c + 1 /\ nextId_ a' = int64_t (id + 1 + c').
Proof.
  intros Hpend Hid Hnext Hc Hother Hstep.
  assert (Hfresh : nextId_ a ≠ id)
    by (rewrite Hnext; by apply int64_t_later_id).
  assert (Hsend : forall to m f a1, send to m a = Ok (f, a1) ->
            pending a1 id l /\
            exists c', c <= c' <= c + 1 /\ nextId_ a1 = int64_t (id + 1 + c')).
  { intros to m f a1 Hs. apply send_Ok in Hs as (_ & _ & dst & _ & _ & ->).
    split; [by apply sent_keeps_pending|].
    exists (c + 1). split; [lia|].
    unfold sent. unfold prepared. cbn [nextId_ set_threadPool].
    rewrite Hnext, int64_t_succ. f_equal. lia. }
  destruct e as [to m|work]; cbn [step] in Hstep.
  - unfold mbind, M_bind in Hstep.
    destruct (send to m a) as [[f a1]| | |] eqn:Hs; try discriminate.
    injection Hstep as <-. by eapply Hsend.
  - destruct (received load work) as [m| | |] eqn:Hm;
      try (exfalso; eapply (recvJob_not_received load cb_ work a);
           [rewrite Hm; intros [? ?]; discriminate | by eexists]).
    destruct (Message.isRequest m) eqn:Hreq.
    + rewrite (recvJob_request _ _ _ _ _ Hm Hreq) in Hstep.
      destruct (cb_ m) as [response| | |]; try discriminate.
      destruct (send (from_ work) response a) as [[f a1]| | |] eqn:Hs;
        try discriminate.
      injection Hstep as <-. by eapply Hsend.
    + destruct (Message.isResponse m) eqn:Hresp.
      * rewrite (recvJob_response _ _ _ _ _ Hm Hresp) in Hstep.
        destruct (futures_ a !! Message.id m) as [[|l']|] eqn:Hl';
          try discriminate.
        destruct (heap a !! l') as [f'|]; [|discriminate].
        destruct (FutureMessage.completed f'); [discriminate|].
        injection Hstep as <-. split.
        -- apply answered_keeps_pending; [done | done |].
           intros Heq. apply Hother. cbn [response_to]. by exists m.
        -- exists c. split; [lia | done].
      * rewrite (recvJob_other _ _ _ _ _ Hm Hreq Hresp) in Hstep.
        discriminate.
Qed.

Lemma run_keeps_pending (es : list Event) :
  forall (a a' : Agent) (id c : Z) (l : nat),
    pending a id l -> is_int64 id ->
    nextId_ a = int64_t (id + 1 + c) -> 0 <= c ->
    c + Z.of_nat (length es) < 2 ^ 64 ->
    Forall (fun e => ~ response_to load id e) es ->
    run load cb_ es a = Ok (tt, a') ->
    pending a' id l.
Proof.
  induction es as [|e es IH]; intros a a' id c l Hpend Hid Hnext Hc Hlen Hall Hrun.
  - cbn in Hrun. by injection Hrun as <-.
  - inversion Hall as [|? ? He Hes]; subst.
    cbn [run] in Hrun. unfold mbind, M_bind in Hrun.
    destruct (step load cb_ e a) as [[[] a1]| | |] eqn:Hstep; try discriminate.
    cbn [length] in Hlen.
    destruct (step_keeps_pending e a a1 id c l) as (Hp1 & c' & Hc' & Hn1);
      try done; try lia.
    apply (IH a1 a' id c' l); try done; lia.
Qed.

(** The invariants of the table and of the registry hold of the agent the
constructor builds and are kept by every operation that returns. *)
Lemma step_table_wf (e : Event) (a a' : Agent) :
table_wf a -> step load cb_ e a = Ok (tt, a') -> table_wf a'.
Proof.
intros Hwf Hstep.
assert (Hsend : forall to m f a1, send to m a = Ok (f, a1) -> table_wf a1).
{ intros to m f a1 Hs. apply send_Ok in Hs as (_ & _ & dst & _ & _ & ->).
  by apply sent_table_wf. }
destruct e as [to m|work]; cbn [step] in Hstep.
- unfold mbind, M_bind in Hstep.
  destruct (send to m a) as [[f a1]| | |] eqn:Hs; try discriminate.
  injection Hstep as <-. by eapply Hsend.
- destruct (received load work) as [m| | |] eqn:Hm;
    try (exfalso; eapply (recvJob_not_received load cb_ work a);
         [rewrite Hm; intros [? ?]; discriminate | by eexists]).
  destruct (Message.isRequest m) eqn:Hreq.
  + rewrite (recvJob_request _ _ _ _ _ Hm Hreq) in Hstep.
    destruct (cb_ m) as [response| | |]; try discriminate.
    destruct (send (from_ work) response a) as [[f a1]| | |] eqn:Hs;
      try discriminate.
    injection Hstep as <-. by eapply Hsend.
  + destruct (Message.isResponse m) eqn:Hresp.
    * rewrite (recvJob_response _ _ _ _ _ Hm Hresp) in Hstep.
      destruct (futures_ a !! Message.id m) as [[|l']|] eqn:Hl';
        try discriminate.
      destruct (heap a !! l') as [f'|]; [|discriminate].
      destruct (FutureMessage.completed f'); [discriminate|].
      injection Hstep as <-. by apply answered_table_wf.
    * rewrite (recvJob_other _ _ _ _ _ Hm Hreq Hresp) in Hstep.
      discriminate.
Qed.

Lemma run_table_wf (es : list Event) :
forall a a', table_wf a -> run load cb_ es a = Ok (tt, a') -> table_wf a'.
Proof.
induction es as [|e es IH]; intros a a' Hwf Hrun.
- cbn in Hrun. by injection Hrun as <-.
- cbn [run] in Hrun. unfold mbind, M_bind in Hrun.
  destruct (step load cb_ e a) as [[[] a1]| | |] eqn:Hstep; try discriminate.
  apply (IH a1 a'); [|done]. by apply (step_table_wf e a).
Qed.

(** C6: [send] hands a REQUEST to the pool under the id it took from the
    counter; the future it returns is not completed when [send] returns,
    and stays so through whatever the agent does next (fewer than 2^64
    operations), as long as no RESPONSE carrying the id of the request is
    received; a receive job that then gets a RESPONSE with that id
    completes the future with exactly that message. *)
Theorem send_request_resolved_by_response (a a1 : Agent) (to : WorkerId.t)
    (m : Message.t) (f : shared_ptr) :
  table_wf a ->
  Message.isRequest m = true ->
  send to m a = Ok (f, a1) ->
  (exists dst, last (threadPool_ a1)
               = Some (SendJob {| to_ := dst;
                                  message_ := Message.setId m (nextId_ a) |})) /\
  unresolved a1 f /\
  forall (es : list Event) (a2 : Agent),
    Z.of_nat (length es) < 2 ^ 64 ->
    Forall (fun e => ~ response_to load (nextId_ a) e) es ->
    run load cb_ es a1 = Ok (tt, a2) ->
    unresolved a2 f /\
    forall (work : RecvWork) (resp : Message.t),
      received load work = Ok resp ->
      Message.isResponse resp = true ->
      Message.id resp = nextId_ a ->
      exists a3, recvJob load cb_ work a2 = Ok (tt, a3) /\
                 resolved_with a3 f resp.
Proof.
  intros Hwf Hreq Hsend.
  apply send_Ok in Hsend as (_ & _ & dst & _ & -> & ->).
  pose proof (sent_pending_new a dst m Hwf Hreq) as Hpend.
  split.
  { exists dst. unfold sent, outgoing. cbn [threadPool_ set_threadPool].
    by rewrite last_snoc, Hreq. }
  split; [apply Hpend|].
  intros es a2 Hlen Hall Hrun.
  assert (Hp2 : pending a2 (nextId_ a) (length (heap a))).
  { apply (run_keeps_pending es (sent a dst m) a2 (nextId_ a) 0);
      try done; try lia; [apply Hwf |].
    unfold sent. unfold prepared. cbn [nextId_ set_threadPool].
    f_equal. lia. }
  split; [apply Hp2|].
  intros work resp Hrecv Hresp Hidr.
  destruct Hp2 as (Hlook & Hun & _).
  destruct (recvJob_known_id load cb_ work resp a2 (ptr (length (heap a))))
    as (a3 & E & Hres & _); try done; [by rewrite Hidr|].
  by exists a3.
Qed.

End Correlation.

Lemma send_request_resolved_by_response_witness :
  unresolved Scenario.waiting Scenario.future /\
  exists a2,
    run Archive.load Scenario.cb Scenario.traffic Scenario.waiting = Ok (tt, a2) /\
    unresolved a2 Scenario.future /\
    exists a3,
      recvJob Archive.load Scenario.cb (Scenario.arrival (Scenario.pong 0)) a2
      = Ok (tt, a3) /\
      resolved_with a3 Scenario.future (Scenario.pong 0).
Proof.
  destruct (send_request_resolved_by_response Archive.load Scenario.cb
              Scenario.agent Scenario.waiting Scenario.B Scenario.ping
              Scenario.future) as (_ & H1 & H2).
  - apply built_table_wf.
  - reflexivity.
  - vm_compute. reflexivity.
  - split; [exact H1|].
    destruct (run Archive.load Scenario.cb Scenario.traffic Scenario.waiting)
      as [[[] a2]| | |] eqn:E; try (vm_compute in E; discriminate).
    exists a2. split; [reflexivity|].
    destruct (H2 Scenario.traffic a2) as [H3 H4].
    + vm_compute. reflexivity.
    + repeat constructor.
      * intros (resp & Hr & Hresp & _). vm_compute in Hr.
        injection Hr as <-. discriminate.
      * intros [].
    + exact E.
    + split; [exact H3|].
      apply (H4 (Scenario.arrival (Scenario.pong 0)) (Scenario.pong 0)).
      * vm_compute. reflexivity.
      * reflexivity.
      * reflexivity.
Defined.

(** ** Send jobs on the pool: one destination, one transmission at a time *)

Lemma waits_not_sending (d : Z) (r : list Instr) : waits r -> ~ sending d r.
Proof. intros Hw Hs. destruct Hw; inversion Hs. Qed.

Lemma sending_not_lock (d m : Z) (r : list Instr) : ~ sending d (Lock m :: r).
Proof. intros Hs. inversion Hs. Qed.

Lemma waits_not_lock (m : Z) (r : list Instr) : ~ waits (Lock m :: r).
Proof. intros Hw. inversion Hw. Qed.

Lemma shape_sendJob (save : list Tensor.t -> list byte) (pg : ProcessGroup)
    (work : SendWork) :
  shape (WorkerId.id_ (to_ work)) (sendJob save pg work).
Proof.
  unfold sendJob. destruct (Message.isShutdown (message_ work));
    repeat constructor.
Qed.

Lemma threads_insert_lookup (ts : list (list Instr)) (i j : nat)
    (r rem : list Instr) :
  <[i := r]> ts !! j = Some rem ->
  (j = i /\ rem = r) \/ (j ≠ i /\ ts !! j = Some rem).
Proof.
  intros H. apply list_lookup_insert_Some in H as [(-> & -> & _)|[Hne H]].
  - by left.
  - right. split; [congruence | done].
Qed.

Lemma pool_step_inv (dsts : list Z) (i : nat) (p p' : Pool) :
  pool_inv dsts p -> pool_step i p = Ok p' -> pool_inv dsts p'.
Proof.
  intros Hinv Hstep. unfold pool_step in Hstep.
  destruct (threads p !! i) as [[|instr rest]|] eqn:Hi;
    try (injection Hstep as <-; exact Hinv).
  destruct (inv_shape _ _ Hinv _ _ Hi) as (d & Hd & Hshape).
  destruct instr as [m|m|ts dst tag|k].
  - (* Lock *)
    assert (m = d /\ sending d rest) as [-> Hrest].
    { inversion Hshape as [r Hs|r Hs|r Hw]; subst; [done | |].
      - by apply sending_not_lock in Hs.
      - by apply waits_not_lock in Hw. }
    result_simpl.
    destruct (vector_at (sendMutexes_ p) d) as [owner| | |] eqn:Hat;
      try discriminate.
    cbn [Result_bind] in Hstep.
    destruct owner as [o|]; [injection Hstep as <-; exact Hinv|].
    apply vector_at_Ok in Hat as [Hd0 Hfree].
    destruct (vector_set (sendMutexes_ p) d (Some i)) as [mx| | |] eqn:Hset;
      try discriminate.
    cbn [Result_bind] in Hstep. injection Hstep as <-.
    apply vector_set_Ok in Hset as [Hrange ->].
    constructor; cbn [threads sendMutexes_ wire].
    + intros j rem Hj.
      apply threads_insert_lookup in Hj as [[-> ->]|[Hne Hj]].
      * exists d. split; [done|]. by apply shape_sending.
      * by apply (inv_shape _ _ Hinv).
    + intros j rem dj Hj Hdj Hs.
      apply threads_insert_lookup in Hj as [[-> ->]|[Hne Hj]].
      * assert (dj = d) as -> by congruence. split; [done|].
        apply list_lookup_insert_eq. lia.
      * destruct (inv_owner _ _ Hinv _ _ _ Hj Hdj Hs) as [Hdj0 Hown].
        split; [done|]. rewrite list_lookup_insert_ne; [done|].
        intros Heq. rewrite Heq in Hfree. congruence.
    + intros j m rest' e Hj He.
      apply threads_insert_lookup in Hj as [[-> Hr]|[Hne Hj]].
      * subst rest. by apply sending_not_lock in Hrest.
      * by apply (inv_idle _ _ Hinv _ _ _ _ Hj).
    + apply (inv_dst _ _ Hinv).
    + intros j rem dj p1 p2 a b Hj Hdj Hs Hlt Ha Hb Hsa Hdb.
      apply threads_insert_lookup in Hj as [[-> ->]|[Hne Hj]].
      * exfalso. apply (inv_idle _ _ Hinv _ _ _ a Hi); [|done].
        apply list_elem_of_lookup. by exists p1.
      * by apply (inv_tail _ _ Hinv j rem dj p1 p2 a b).
    + apply (inv_block _ _ Hinv).
  - (* Unlock *)
    assert (m = d /\ waits rest) as [-> Hrest].
    { inversion Hshape as [r Hs|r Hs|r Hw]; subst.
      - inversion Hs; subst. done.
      - inversion Hw. }
    destruct (inv_owner _ _ Hinv _ _ _ Hi Hd (sending_unlock d rest Hrest))
      as [Hd0 Hown].
    result_simpl.
    destruct (vector_set (sendMutexes_ p) d None) as [mx| | |] eqn:Hset;
      try discriminate.
    cbn [Result_bind] in Hstep. injection Hstep as <-.
    apply vector_set_Ok in Hset as [Hrange ->].
    constructor; cbn [threads sendMutexes_ wire].
    + intros j rem Hj.
      apply threads_insert_lookup in Hj as [[-> ->]|[Hne Hj]].
      * exists d. split; [done|]. by apply shape_waits.
      * by apply (inv_shape _ _ Hinv).
    + intros j rem dj Hj Hdj Hs.
      apply threads_insert_lookup in Hj as [[-> ->]|[Hne Hj]].
      * by apply waits_not_sending in Hs.
      * destruct (inv_owner _ _ Hinv _ _ _ Hj Hdj Hs) as [Hdj0 Hownj].
        split; [done|]. rewrite list_lookup_insert_ne; [done|].
        intros Heq. rewrite Heq in Hown. congruence.
    + intros j m rest' e Hj He.
      apply threads_insert_lookup in Hj as [[-> Hr]|[Hne Hj]].
      * subst rest. by apply waits_not_lock in Hrest.
      * by apply (inv_idle _ _ Hinv _ _ _ _ Hj).
    + apply (inv_dst _ _ Hinv).
    + intros j rem dj p1 p2 a b Hj Hdj Hs Hlt Ha Hb Hsa Hdb.
      apply threads_insert_lookup in Hj as [[-> ->]|[Hne Hj]].
      * by apply waits_not_sending in Hs.
      * by apply (inv_tail _ _ Hinv j rem dj p1 p2 a b).
    + apply (inv_block _ _ Hinv).
  - (* PgSend *)
    assert (dst = d /\ sending d rest) as [-> Hrest].
    { inversion Hshape as [r Hs|r Hs|r Hw]; subst.
      - inversion Hs; subst. done.
      - inversion Hw. }
    assert (Hsend : sending d (PgSend ts d tag :: rest))
      by (by constructor).
    destruct (inv_owner _ _ Hinv _ _ _ Hi Hd Hsend) as [Hd0 Hown].
    injection Hstep as <-.
    constructor; cbn [threads sendMutexes_ wire].
    + intros j rem Hj.
      apply threads_insert_lookup in Hj as [[-> ->]|[Hne Hj]].
      * exists d. split; [done|]. by apply shape_sending.
      * by apply (inv_shape _ _ Hinv).
    + intros j rem dj Hj Hdj Hs.
      apply threads_insert_lookup in Hj as [[-> ->]|[Hne Hj]].
      * assert (dj = d) as -> by congruence. done.
      * by apply (inv_owner _ _ Hinv _ _ _ Hj Hdj Hs).
    + intros j m rest' e Hj He.
      apply threads_insert_lookup in Hj as [[-> Hr]|[Hne Hj]].
      * subst rest. by apply sending_not_lock in Hrest.
      * apply elem_of_app in He as [He|He].
        -- by apply (inv_idle _ _ Hinv _ _ _ _ Hj).
        -- apply list_elem_of_singleton in He as ->. cbn. congruence.
    + intros e He. apply elem_of_app in He as [He|He].
      * by apply (inv_dst _ _ Hinv).
      * apply list_elem_of_singleton in He as ->. done.
    + intros j rem dj p1 p2 a b Hj Hdj Hs Hlt Ha Hb Hsa Hdb.
      apply lookup_snoc_Some in Hb as [[Hp2 Hb]|[Hp2 <-]].
      * apply lookup_snoc_Some in Ha as [[Hp1 Ha]|[Hp1 _]]; [|lia].
        apply threads_insert_lookup in Hj as [[-> ->]|[Hne Hj]].
        -- assert (dj = d) as -> by congruence.
           by apply (inv_tail _ _ Hinv i _ d p1 p2 a b Hi).
        -- by apply (inv_tail _ _ Hinv j rem dj p1 p2 a b).
      * cbn [sender sent_dst] in *. subst dj.
        apply threads_insert_lookup in Hj as [[-> ->]|[Hne Hj]]; [done|].
        destruct (inv_owner _ _ Hinv _ _ _ Hj Hdj Hs) as [_ Hownj].
        congruence.
    + intros p1 p2 p3 a b c Hlt Ha Hb Hc Hac Hba.
      apply lookup_snoc_Some in Hc as [[Hp3 Hc]|[Hp3 <-]].
      * apply lookup_snoc_Some in Hb as [[Hp2 Hb]|[Hp2 _]]; [|lia].
        apply lookup_snoc_Some in Ha as [[Hp1 Ha]|[Hp1 _]]; [|lia].
        by apply (inv_block _ _ Hinv p1 p2 p3 a b c).
      * cbn [sender] in Hac.
        apply lookup_snoc_Some in Hb as [[Hp2 Hb]|[Hp2 _]]; [|lia].
        apply lookup_snoc_Some in Ha as [[Hp1 Ha]|[Hp1 _]]; [|lia].
        rewrite Hac.
        apply (inv_tail _ _ Hinv i _ d p1 p2 a b Hi); try done; [lia|].
        assert (Hda : dsts !! sender a = Some (sent_dst a)).
        { apply (inv_dst _ _ Hinv). apply list_elem_of_lookup. by exists p1. }
        rewrite Hac in Hda. congruence.
  - (* Wait *)
    assert (waits rest) as Hrest.
    { inversion Hshape as [r Hs|r Hs|r Hw]; subst.
      - inversion Hs.
      - by inversion Hw. }
    injection Hstep as <-.
    constructor; cbn [threads sendMutexes_ wire].
    + intros j rem Hj.
      apply threads_insert_lookup in Hj as [[-> ->]|[Hne Hj]].
      * exists d. split; [done|]. by apply shape_waits.
      * by apply (inv_shape _ _ Hinv).
    + intros j rem dj Hj Hdj Hs.
      apply threads_insert_lookup in Hj as [[-> ->]|[Hne Hj]].
      * by apply waits_not_sending in Hs.
      * by apply (inv_owner _ _ Hinv _ _ _ Hj Hdj Hs).
    + intros j m rest' e Hj He.
      apply threads_insert_lookup in Hj as [[-> Hr]|[Hne Hj]].
      * subst rest. by apply waits_not_lock in Hrest.
      * by apply (inv_idle _ _ Hinv _ _ _ _ Hj).
    + apply (inv_dst _ _ Hinv).
    + intros j rem dj p1 p2 a b Hj Hdj Hs Hlt Ha Hb Hsa Hdb.
      apply threads_insert_lookup in Hj as [[-> ->]|[Hne Hj]].
      * by apply waits_not_sending in Hs.
      * by apply (inv_tail _ _ Hinv j rem dj p1 p2 a b).
    + apply (inv_block _ _ Hinv).
Qed.

Lemma pool_run_inv (dsts : list Z) (schedule : list nat) :
  forall p p', pool_inv dsts p -> pool_run schedule p = Ok p' -> pool_inv dsts p'.
Proof.
  induction schedule as [|i schedule IH]; intros p p' Hinv Hrun.
  - cbn in Hrun. by injection Hrun as <-.
  - cbn [pool_run] in Hrun. result_simpl.
    destruct (pool_step i p) as [p1| | |] eqn:Hstep; try discriminate.
    cbn [Result_bind] in Hrun.
    apply (IH p1 p'); [|done]. by apply (pool_step_inv dsts i p).
Qed.

Lemma pool_start_inv (save : list Tensor.t -> list byte) (pg : ProcessGroup)
    (works : list SendWork) (p : Pool) :
  pool_start save pg works = Ok p ->
  pool_inv (map (fun w => WorkerId.id_ (to_ w)) works) p.
Proof.
  unfold pool_start, pool_init. result_simpl.
  destruct (vector_sized _ _) as [mx| | |]; try discriminate.
  cbn [Result_bind]. intros [= <-].
  constructor; cbn [threads sendMutexes_ wire].
  - intros i rem Hi. rewrite list_lookup_fmap in Hi.
    destruct (works !! i) as [w|] eqn:Hw; [|discriminate].
    injection Hi as <-. exists (WorkerId.id_ (to_ w)).
    split; [by rewrite list_lookup_fmap, Hw | apply shape_sendJob].
  - intros i rem d Hi Hd Hs. rewrite list_lookup_fmap in Hi.
    destruct (works !! i) as [w|] eqn:Hw; [|discriminate].
    injection Hi as <-. unfold sendJob in Hs.
    destruct (Message.isShutdown _); by apply sending_not_lock in Hs.
  - intros i m rest e _ He. by apply elem_of_nil in He.
  - intros e He. by apply elem_of_nil in He.
  - intros i rem d p1 p2 a b _ _ _ _ Ha. by rewrite lookup_nil in Ha.
  - intros p1 p2 p3 a b c _ Ha. by rewrite lookup_nil in Ha.
Qed.

(** C9: however the pool schedules its send jobs, the transmissions of two
    jobs to the same destination rank do not interleave (no transmission of
    one lies between two of the other, so a preamble is followed by its
    body), and a job whose next action is a transmission owns the mutex of
    its destination: it took it before the preamble and keeps it until the
    body has been handed to the transport. *)
Theorem sends_to_one_destination_not_interleaved
    (save : list Tensor.t -> list byte) (pg : ProcessGroup)
    (works : list SendWork) (schedule : list nat) (p0 p : Pool) :
  pool_start save pg works = Ok p0 ->
  pool_run schedule p0 = Ok p ->
  (forall i j wi wj,
     works !! i = Some wi -> works !! j = Some wj -> i ≠ j ->
     WorkerId.id_ (to_ wi) = WorkerId.id_ (to_ wj) ->
     ~ interleaved i j (wire p)) /\
  (forall i ts d tag rest,
     threads p !! i = Some (PgSend ts d tag :: rest) ->
     sendMutexes_ p !! Z.to_nat d = Some (Some i)).
Proof.
  intros Hstart Hrun.
  pose proof (pool_run_inv _ _ _ _ (pool_start_inv _ _ _ _ Hstart) Hrun) as Hinv.
  split.
  - intros i j wi wj Hwi Hwj Hne Hsame
      (p1 & p2 & p3 & a & b & c & Hlt & Ha & Hb & Hc & Hsa & Hsb & Hsc).
    apply Hne. rewrite <- Hsa, <- Hsb. symmetry.
    apply (inv_block _ _ Hinv p1 p2 p3 a b c); try done; [congruence|].
    assert (Hda : map (fun w => WorkerId.id_ (to_ w)) works !! sender a
                  = Some (sent_dst a)).
    { apply (inv_dst _ _ Hinv). apply list_elem_of_lookup. by exists p1. }
    assert (Hdb : map (fun w => WorkerId.id_ (to_ w)) works !! sender b
                  = Some (sent_dst b)).
    { apply (inv_dst _ _ Hinv). apply list_elem_of_lookup. by exists p2. }
    rewrite list_lookup_fmap, Hsa, Hwi in Hda.
    rewrite list_lookup_fmap, Hsb, Hwj in Hdb.
    cbn in Hda, Hdb. congruence.
  - intros i ts d tag rest Hi.
    destruct (inv_shape _ _ Hinv _ _ Hi) as (d' & Hd' & Hshape).
    assert (Hs : sending d' (PgSend ts d tag :: rest)).
    { inversion Hshape as [r Hs|r Hs|r Hw]; subst; [done | inversion Hw]. }
    assert (d = d') as -> by (by inversion Hs).
    by apply (inv_owner _ _ Hinv _ _ _ Hi Hd' Hs).
Qed.

Lemma sends_to_one_destination_not_interleaved_witness :
  exists p0 p,
    pool_start Archive.save Scenario.pg Scenario.works = Ok p0 /\
    pool_run Scenario.schedule p0 = Ok p /\
    length (wire p) = 6%nat /\
    (forall i j wi wj,
       Scenario.works !! i = Some wi -> Scenario.works !! j = Some wj ->
       i ≠ j -> WorkerId.id_ (to_ wi) = WorkerId.id_ (to_ wj) ->
       ~ interleaved i j (wire p)).
Proof.
  eassert (E0 : pool_start Archive.save Scenario.pg Scenario.works = Ok _)
    by (vm_compute; reflexivity).
  match type of E0 with
  | _ = Ok ?p0 =>
      eassert (E1 : pool_run Scenario.schedule p0 = Ok _)
        by (vm_compute; reflexivity)
  end.
  eexists. eexists. split; [exact E0|]. split; [exact E1|].
  split; [reflexivity|].
  exact (proj1 (sends_to_one_destination_not_interleaved
                  Archive.save Scenario.pg Scenario.works Scenario.schedule
                  _ _ E0 E1)).
Defined.

(** * Further properties of the code *)

(** ** The codec does not carry the type *)

Section CodecMore.

Variable save : list Tensor.t -> list byte.
Variable load : list byte -> option (list Tensor.t).

Hypothesis load_save : forall ts, load (save ts) = Some ts.

(** X1: the encoded body holds the payload, the auxiliary tensors and the
    id, and not the type: decoding the body of any message (empty payload
    and SHUTDOWN included) under a type [t] gives back its payload, tensors
    and id, with [t] as its type. *)
Theorem deserialize_takes_type_from_caller (m : Message.t) (t : MessageType) :
  is_int64 (Message.id m) ->
  deserialize load t (serialize save m)
  = Ok (Message.Build (Message.payload m) (Message.tensors m) t (Message.id m)).
Proof using load_save.
  intros Hid. unfold deserialize, serialize, torch_load.
  rewrite load_save. unfold serialize_tensors. result_simpl.
  rewrite !length_app. cbn [length].
  replace (2 <=? _)%nat with true by (symmetry; apply Nat.leb_le; lia).
  result_simpl.
  rewrite back_snoc. result_simpl. rewrite pop_back_snoc.
  rewrite back_snoc. result_simpl. rewrite pop_back_snoc.
  rewrite storage_data_int64_0_tensor_int64 by done. result_simpl.
  rewrite numel_from_blob. unfold from_blob. cbn [Tensor.storage].
  by rewrite firstn_all, firstn_all.
Qed.

(** X2: two messages with the same encoded body have the same payload, the
    same auxiliary tensors and the same id; they can differ in type only. *)
Theorem serialize_determines_content (m1 m2 : Message.t) :
  is_int64 (Message.id m1) -> is_int64 (Message.id m2) ->
  serialize save m1 = serialize save m2 ->
  Message.payload m1 = Message.payload m2 /\
  Message.tensors m1 = Message.tensors m2 /\
  Message.id m1 = Message.id m2.
Proof using load_save.
  intros H1 H2 E.
  pose proof (deserialize_serialize save load load_save m1 H1) as D1.
  set (m2' := Message.Build (Message.payload m2) (Message.tensors m2)
                (Message.type m1) (Message.id m2)).
  pose proof (deserialize_serialize save load load_save m2' H2) as D2.
  change (serialize save m2') with (serialize save m2) in D2.
  change (Message.type m2') with (Message.type m1) in D2.
  rewrite E in D1. rewrite D1 in D2. injection D2 as Hm.
  split; [exact (f_equal Message.payload Hm)|].
  split; [exact (f_equal Message.tensors Hm) | exact (f_equal Message.id Hm)].
Qed.

End CodecMore.

Lemma deserialize_takes_type_from_caller_witness :
  deserialize Archive.load SHUTDOWN
    (serialize Archive.save (Message.Build [] [] REQUEST 12))
  = Ok (Message.Build [] [] SHUTDOWN 12).
Proof.
  apply (deserialize_takes_type_from_caller Archive.save Archive.load
           Archive_load_save (Message.Build [] [] REQUEST 12) SHUTDOWN).
  split; [vm_compute; discriminate | reflexivity].
Defined.

Lemma serialize_determines_content_witness :
  Message.payload Scenario.ping
  = Message.payload (Message.Build [x70; x69; x6e; x67] [] RESPONSE (-1)) /\
  Message.tensors Scenario.ping = [] /\
  Message.id Scenario.ping = -1.
Proof.
  apply (serialize_determines_content Archive.save Archive.load
           Archive_load_save Scenario.ping
           (Message.Build [x70; x69; x6e; x67] [] RESPONSE (-1))).
  - split; [vm_compute; discriminate | reflexivity].
  - split; [vm_compute; discriminate | reflexivity].
  - reflexivity.
Defined.

(** ** The constructor, case by case, and the registry it leaves *)

(** X3: the constructor for a group of non-negative size, case by case and
    in the order of its checks: a map of fewer than two names is refused
    with its size; then a local name the map does not hold; then a rank for
    the local name other than the transport's; when the three checks pass,
    a rank of the map outside the group makes the constructor write outside
    its vector of names, and otherwise it returns the agent with one worker
    per rank, an empty table and the counter at 0. *)
Theorem ProcessGroupAgent_new_outcome (workerName : string)
    (nameMap : gmap string Z) (pg : ProcessGroup) :
  0 <= getSize pg ->
  ((size nameMap <= 1)%nat ->
   ProcessGroupAgent_new workerName nameMap pg
   = Error [Str "ProcessGroupAgent requires world_size to be at least 2, but got ";
            Num (Z.of_nat (size nameMap))]) /\
  ((1 < size nameMap)%nat -> nameMap !! workerName = None ->
   ProcessGroupAgent_new workerName nameMap pg
   = Error [Str "Failed to resolve worker name "; Str workerName;
            Str " to a ProcessGroup rank."]) /\
  (forall r, (1 < size nameMap)%nat -> nameMap !! workerName = Some r ->
   r ≠ getRank pg ->
   ProcessGroupAgent_new workerName nameMap pg
   = Error [Str "Resolved worker rank "; Num r;
            Str " does not match ProcessGroup rank "; Num (getRank pg)]) /\
  ((1 < size nameMap)%nat -> nameMap !! workerName = Some (getRank pg) ->
   ~ ranks_in_range nameMap pg ->
   ProcessGroupAgent_new workerName nameMap pg = Undefined OutOfBounds) /\
  ((1 < size nameMap)%nat -> nameMap !! workerName = Some (getRank pg) ->
   ranks_in_range nameMap pg ->
   exists tmp, length tmp = Z.to_nat (getSize pg) /\
     ProcessGroupAgent_new workerName nameMap pg
     = Ok (built workerName nameMap pg tmp)).
Proof.
  intros Hsize.
  split; [|split; [|split; [|split]]].
  - intros Hn. unfold ProcessGroupAgent_new, vector_sized.
    rewrite bool_decide_eq_true_2 by done. result_simpl.
    by rewrite bool_decide_eq_false_2 by lia.
  - intros Hn Hnone. unfold ProcessGroupAgent_new, vector_sized.
    cbn [WorkerId.name_ WorkerId_new].
    rewrite bool_decide_eq_true_2 by done. result_simpl.
    rewrite bool_decide_eq_true_2 by done. result_simpl.
    by rewrite Hnone.
  - intros r Hn Hr Hne. unfold ProcessGroupAgent_new, vector_sized.
    cbn [WorkerId.name_ WorkerId_new].
    rewrite bool_decide_eq_true_2 by done. result_simpl.
    rewrite bool_decide_eq_true_2 by done. result_simpl.
    rewrite Hr. by rewrite bool_decide_eq_false_2 by congruence.
  - intros Hn Hr Hout. by apply ProcessGroupAgent_new_out_of_range.
  - intros Hn Hr Hall.
    destruct (ProcessGroupAgent_new_returns workerName nameMap pg Hsize Hn Hr Hall)
      as [a Ha].
    destruct (ProcessGroupAgent_new_Ok _ _ _ _ Ha)
      as (_ & _ & _ & _ & tmp & Hlen & ->).
    by exists tmp.
Qed.

Lemma ProcessGroupAgent_new_outcome_witness :
  ProcessGroupAgent_new "D" Scenario.nameMap Scenario.pg
  = Error [Str "Failed to resolve worker name "; Str "D";
           Str " to a ProcessGroup rank."] /\
  ProcessGroupAgent_new "B" Scenario.nameMap Scenario.pg
  = Error [Str "Resolved worker rank "; Num 1;
           Str " does not match ProcessGroup rank "; Num 0].
Proof.
  split.
  - apply (ProcessGroupAgent_new_outcome "D" Scenario.nameMap Scenario.pg).
    + vm_compute. discriminate.
    + vm_compute. lia.
    + vm_compute. reflexivity.
  - apply (ProcessGroupAgent_new_outcome "B" Scenario.nameMap Scenario.pg).
    + vm_compute. discriminate.
    + vm_compute. lia.
    + vm_compute. reflexivity.
    + discriminate.
Defined.

Lemma built_registry_ranked (workerName : string) (nameMap : gmap string Z)
    (pg : ProcessGroup) (tmp : list string) :
  getSize pg <= 2 ^ 15 -> length tmp = Z.to_nat (getSize pg) ->
  registry_ranked (built workerName nameMap pg tmp).
Proof.
  intros Hs Hlen i w Hw. cbn [built workerIds_] in Hw.
  apply list_lookup_imap_Some in Hw as (n & Hn & ->).
  apply lookup_lt_Some in Hn. cbn [WorkerId_new WorkerId.id_].
  apply worker_id_t_id. lia.
Qed.

Lemma built_table_inv (workerName : string) (nameMap : gmap string Z)
    (pg : ProcessGroup) (tmp : list string) :
  table_inv (built workerName nameMap pg tmp).
Proof.
  split; [cbn; lia|]. intros id p H. cbn [built futures_] in H.
  by rewrite lookup_empty in H.
Qed.

(** X4: the agent the constructor returns for a group whose size is a
    worker id keeps the map it was given, lists exactly one worker per rank
    of the group, in rank order (the entry at rank r has id r), has an
    empty table of pending requests, no queued job and the counter at 0,
    and its own id is the transport's rank. *)
Theorem ProcessGroupAgent_new_registry (workerName : string)
    (nameMap : gmap string Z) (pg : ProcessGroup) (a : Agent) :
  ProcessGroupAgent_new workerName nameMap pg = Ok a ->
  getSize pg < 2 ^ 15 ->
  nameMap_ a = nameMap /\ pg_ a = pg /\
  length (workerIds_ a) = Z.to_nat (getSize pg) /\
  (forall r, 0 <= r < getSize pg ->
     exists w, vector_at (workerIds_ a) r = Ok w /\ WorkerId.id_ w = r) /\
  futures_ a = ∅ /\ threadPool_ a = [] /\ nextId_ a = 0 /\
  workerId_ a = WorkerId.Build workerName (getRank pg) /\
  registry_wf a /\ registry_ranked a /\ table_inv a.
Proof.
  intros Hnew Hs.
  apply ProcessGroupAgent_new_Ok in Hnew
    as (Hpos & _ & Hr & Hall & tmp & Hlen & ->).
  pose proof (Hall _ _ Hr) as Hrank.
  pose proof (built_registry_ranked workerName nameMap pg tmp) as Hranked.
  split; [done|]. split; [done|].
  split; [by cbn [built workerIds_]; rewrite length_imap|].
  split.
  { intros r Hrr.
    destruct (vector_at_in_range
                (workerIds_ (built workerName nameMap pg tmp)) r) as [w Hw].
    { cbn [built workerIds_]. rewrite length_imap. lia. }
    exists w. split; [done|]. apply vector_at_Ok in Hw as [_ Hw].
    rewrite (Hranked ltac:(lia) Hlen _ _ Hw). lia. }
  split; [done|]. split; [done|]. split; [done|].
  split.
  { cbn [built workerId_]. unfold WorkerId_new. f_equal.
    apply worker_id_t_id. lia. }
  split; [by apply built_registry_wf|].
  split; [apply Hranked; [lia | done] | apply built_table_inv].
Qed.

Lemma ProcessGroupAgent_new_registry_witness :
  length (workerIds_ Scenario.agent) = 3%nat /\
  workerId_ Scenario.agent = WorkerId.Build "A" 0.
Proof.
  destruct (ProcessGroupAgent_new_registry "A" Scenario.nameMap Scenario.pg
              Scenario.agent) as (_ & _ & Hlen & _ & _ & _ & _ & Hid & _).
  - vm_compute. reflexivity.
  - vm_compute. reflexivity.
  - split; [exact Hlen | exact Hid].
Defined.

Lemma fill_names_cons (n1 : string) (r1 : Z) (es : list (string * Z))
    (tmp : list string) :
  fill_names ((n1, r1) :: es) tmp =
  if bool_decide (0 <= r1 < Z.of_nat (length tmp))
  then fill_names es (<[Z.to_nat r1 := n1]> tmp)
  else Undefined OutOfBounds.
Proof.
  rewrite fill_names_unfold. cbn [foldl]. unfold fill_one at 2.
  result_simpl. unfold vector_set. cbn [fst snd]. case_bool_decide.
  - reflexivity.
  - apply foldl_fill_one_Undefined.
Qed.

(** The names the loop of the constructor leaves in its vector. *)
Lemma fill_names_lookup (name : string) (r : Z) (entries : list (string * Z)) :
  forall tmp tmp' : list string,
    fill_names entries tmp = Ok tmp' ->
    0 <= r ->
    (forall n', (n', r) ∈ entries -> n' = name) ->
    (name, r) ∈ entries \/ tmp !! Z.to_nat r = Some name ->
    tmp' !! Z.to_nat r = Some name.
Proof.
  induction entries as [|[n1 r1] es IH]; intros tmp tmp' Hfill Hr Huniq Hin.
  - cbn in Hfill. injection Hfill as <-.
    destruct Hin as [Hin|Hin]; [by apply elem_of_nil in Hin | done].
  - rewrite fill_names_cons in Hfill.
    case_bool_decide as Hr1; [|discriminate].
    apply (IH _ _ Hfill Hr).
    + intros n' Hn'. apply Huniq. by right.
    + destruct (decide (r1 = r)) as [->|Hne].
      * right. assert (n1 = name) as -> by (apply Huniq; by left).
        apply list_lookup_insert_eq. lia.
      * rewrite list_lookup_insert_ne by lia.
        destruct Hin as [Hin|Hin]; [|by right].
        apply elem_of_cons in Hin as [[= <- <-]|Hin]; [done | by left].
Qed.

(** X5: looking a name up gives back the worker registered under it: when
    the map sends [name] to rank [r] and no other name to that rank,
    [getWorkerId(name)] on the constructed agent is the WorkerId of that
    very name and rank. *)
Theorem getWorkerId_returns_registered_name (workerName : string)
    (nameMap : gmap string Z) (pg : ProcessGroup) (a : Agent)
    (name : string) (r : Z) :
  ProcessGroupAgent_new workerName nameMap pg = Ok a ->
  getSize pg <= 2 ^ 15 ->
  nameMap !! name = Some r ->
  (forall n', nameMap !! n' = Some r -> n' = name) ->
  getWorkerId a name = Ok (WorkerId.Build name r).
Proof.
  intros Hnew Hs Hr Huniq. revert Hnew.
  unfold ProcessGroupAgent_new, vector_sized.
  cbn [WorkerId.name_ WorkerId_new].
  case_bool_decide as Hsize; [|discriminate]. result_simpl.
  case_bool_decide as Hn; [|discriminate]. result_simpl.
  destruct (nameMap !! workerName) as [r0|] eqn:Hr0; [|discriminate].
  case_bool_decide as Hrank; [|discriminate]. result_simpl.
  destruct (fill_names _ _) as [tmp| | |] eqn:Hfill; try discriminate.
  result_simpl. intros [= <-].
  pose proof (fill_names_Ok _ _ _ Hfill) as [Hall Hlen].
  rewrite length_replicate in Hlen.
  apply ranks_in_range_entries in Hall; [|done].
  destruct (Hall _ _ Hr) as [Hr1 Hr2].
  assert (Hname : tmp !! Z.to_nat r = Some name).
  { apply (fill_names_lookup name r _ _ _ Hfill Hr1).
    - intros n' Hn'. apply Huniq. by apply elem_of_map_to_list.
    - left. by apply elem_of_map_to_list. }
  unfold getWorkerId. cbn [nameMap_ workerIds_]. rewrite Hr.
  apply vector_at_Ok. split; [done|].
  rewrite list_lookup_imap, Hname. cbn [fmap option_fmap option_map].
  unfold WorkerId_new. rewrite Z2Nat.id by done.
  rewrite worker_id_t_id by lia. reflexivity.
Qed.

Lemma getWorkerId_returns_registered_name_witness :
  getWorkerId Scenario.agent "C" = Ok (WorkerId.Build "C" 2).
Proof.
  apply (getWorkerId_returns_registered_name "A" Scenario.nameMap Scenario.pg
           Scenario.agent "C" 2).
  - vm_compute. reflexivity.
  - vm_compute. discriminate.
  - vm_compute. reflexivity.
  - intros n' Hn'. unfold Scenario.nameMap in Hn'.
    apply lookup_insert_Some in Hn' as [[_ [=]]|[_ Hn']].
    apply lookup_insert_Some in Hn' as [[_ [=]]|[_ Hn']].
    apply lookup_insert_Some in Hn' as [[<- _]|[_ Hn']]; [done|].
    by rewrite lookup_empty in Hn'.
Defined.

Lemma getWorkerId_built (workerName : string) (nameMap : gmap string Z)
    (pg : ProcessGroup) (tmp : list string) (name : string) (r : Z) :
  nameMap !! name = Some r -> 0 <= r < getSize pg -> getSize pg <= 2 ^ 15 ->
  length tmp = Z.to_nat (getSize pg) ->
  exists w, getWorkerId (built workerName nameMap pg tmp) name = Ok w /\
            WorkerId.id_ w = r.
Proof.
  intros Hr Hrr Hs Hlen. unfold getWorkerId. cbn [built nameMap_ workerIds_].
  rewrite Hr.
  destruct (lookup_lt_is_Some_2 tmp (Z.to_nat r)) as [n Hn]; [lia|].
  exists (WorkerId_new n (Z.of_nat (Z.to_nat r))). split.
  - apply vector_at_Ok. split; [lia|]. by rewrite list_lookup_imap, Hn.
  - cbn [WorkerId_new WorkerId.id_]. rewrite Z2Nat.id by lia.
    apply worker_id_t_id. lia.
Qed.

(** X6: the agent's own name resolves to its own id: on a constructed
    agent, [getWorkerId(name)] at the agent's name gives a WorkerId whose
    id is what [getWorkerId()] returns, the transport's rank. *)
Theorem getWorkerId_of_own_name (workerName : string)
    (nameMap : gmap string Z) (pg : ProcessGroup) (a : Agent) :
  ProcessGroupAgent_new workerName nameMap pg = Ok a ->
  getSize pg <= 2 ^ 15 ->
  getWorkerId_self a = getRank pg /\
  exists w, getWorkerId a (WorkerId.name_ (workerId_ a)) = Ok w /\
            WorkerId.id_ w = getWorkerId_self a.
Proof.
  intros Hnew Hs.
  pose proof (ProcessGroupAgent_new_Ok _ _ _ _ Hnew)
    as (Hpos & _ & Hr & Hall & tmp & Hlen & ->).
  destruct (Hall _ _ Hr) as [Hr0 Hr1].
  destruct (getWorkerId_built workerName nameMap pg tmp workerName
              (getRank pg) Hr (conj Hr0 Hr1) Hs Hlen) as (w & Hw & Hid).
  assert (Hself : getWorkerId_self (built workerName nameMap pg tmp) = getRank pg).
  { unfold getWorkerId_self. cbn [built pg_]. apply worker_id_t_id. lia. }
  split; [done|]. exists w. cbn [built workerId_ WorkerId_new WorkerId.name_].
  split; [done | congruence].
Qed.

Lemma getWorkerId_of_own_name_witness :
  getWorkerId_self Scenario.agent = 0 /\
  exists w, getWorkerId Scenario.agent (WorkerId.name_ (workerId_ Scenario.agent))
            = Ok w /\
            WorkerId.id_ w = getWorkerId_self Scenario.agent.
Proof.
  apply (getWorkerId_of_own_name "A" Scenario.nameMap Scenario.pg Scenario.agent).
  - vm_compute. reflexivity.
  - vm_compute. discriminate.
Defined.

(** ** [send], case by case, and what it leaves alone *)

(** X7: [send] on an agent with a well-formed registry, by destination: to
    the agent's own rank it is refused as a call to self; to a rank at or
    above the group size it is refused as out of bound, with a diagnostic
    that prints the agent's rank where it says world size; to a rank below
    0 it reads outside the registry; to any other rank it returns a new
    future and leaves the agent with the message queued. *)
Theorem send_outcome_by_destination (a : Agent) (to : WorkerId.t)
    (m : Message.t) :
  registry_wf a ->
  (WorkerId.id_ to = getRank (pg_ a) ->
   send to m a
   = Error [Str "ProcessGroupAgent does not support making RPC calls to self."]) /\
  (WorkerId.id_ to ≠ getRank (pg_ a) -> getSize (pg_ a) <= WorkerId.id_ to ->
   send to m a
   = Error [Str "Destination rank is out of bound, got "; Num (WorkerId.id_ to);
            Str ", but world size is "; Num (getRank (pg_ a))]) /\
  (WorkerId.id_ to < 0 -> send to m a = Undefined OutOfBounds) /\
  (0 <= WorkerId.id_ to < getSize (pg_ a) ->
   WorkerId.id_ to ≠ getRank (pg_ a) ->
   exists dst, workerIds_ a !! Z.to_nat (WorkerId.id_ to) = Some dst /\
               send to m a = Ok (ptr (length (heap a)), sent a dst m)).
Proof.
  intros Hwf. rewrite send_eval.
  rewrite (registry_wf_rank _ Hwf), (registry_wf_size _ Hwf).
  destruct Hwf as (Hr & Hs & Hlen).
  split; [|split; [|split]].
  - intros ->. by rewrite bool_decide_eq_false_2 by (intros H; by apply H).
  - intros Hne Hge. rewrite bool_decide_eq_true_2 by done.
    by rewrite bool_decide_eq_false_2 by lia.
  - intros Hneg. rewrite bool_decide_eq_true_2 by lia.
    rewrite bool_decide_eq_true_2 by lia. by rewrite vector_at_negative.
  - intros Hin Hne. rewrite bool_decide_eq_true_2 by done.
    rewrite bool_decide_eq_true_2 by lia.
    destruct (vector_at_in_range (workerIds_ a) (WorkerId.id_ to)) as [dst Hdst];
      [lia|].
    rewrite Hdst. exists dst. split; [|done].
    by apply vector_at_Ok in Hdst as [_ Hdst].
Qed.

Lemma send_outcome_by_destination_witness :
  send (WorkerId.Build "A" 0) Scenario.ping Scenario.agent
  = Error [Str "ProcessGroupAgent does not support making RPC calls to self."] /\
  send (WorkerId.Build "Z" 3) Scenario.ping Scenario.agent
  = Error [Str "Destination rank is out of bound, got "; Num 3;
           Str ", but world size is "; Num 0].
Proof.
  assert (Hwf : registry_wf Scenario.agent).
  { apply built_registry_wf; vm_compute; try reflexivity;
      split; discriminate || reflexivity. }
  split.
  - apply (send_outcome_by_destination Scenario.agent (WorkerId.Build "A" 0)
             Scenario.ping Hwf). reflexivity.
  - apply (send_outcome_by_destination Scenario.agent (WorkerId.Build "Z" 3)
             Scenario.ping Hwf).
    + discriminate.
    + vm_compute. discriminate.
Defined.

(** X8: a [send] that returns leaves the registry alone and every earlier
    future as it was; it adds exactly one future, the one it returns, at
    most the one table entry under the id it took, and exactly one send job,
    addressed to the registry's own WorkerId for the destination rank (not
    the caller's object) and carrying the caller's payload, tensors and
    type. *)
Theorem send_frame (a a' : Agent) (to : WorkerId.t) (m : Message.t)
    (f : shared_ptr) :
  send to m a = Ok (f, a') ->
  workerId_ a' = workerId_ a /\ nameMap_ a' = nameMap_ a /\
  pg_ a' = pg_ a /\ workerIds_ a' = workerIds_ a /\
  future_at a f = None /\
  (exists x, heap a' = heap a ++ [x] /\ future_at a' f = Some x) /\
  (forall p x, future_at a p = Some x -> future_at a' p = Some x) /\
  (forall id, id ≠ nextId_ a -> futures_ a' !! id = futures_ a !! id) /\
  exists dst msg,
    threadPool_ a' = threadPool_ a ++ [SendJob {| to_ := dst; message_ := msg |}] /\
    workerIds_ a !! Z.to_nat (WorkerId.id_ to) = Some dst /\
    (registry_ranked a -> WorkerId.id_ dst = WorkerId.id_ to) /\
    Message.payload msg = Message.payload m /\
    Message.tensors msg = Message.tensors m /\
    Message.type msg = Message.type m.
Proof.
  intros Hsend. apply send_Ok in Hsend as (_ & _ & dst & Hdst & -> & ->).
  apply vector_at_Ok in Hdst as [Hpos Hdst].
  unfold sent. unfold prepared, outgoing.
  cbn [workerId_ nameMap_ pg_ workerIds_ futures_ threadPool_ heap
       set_threadPool future_at].
  split; [done|]. split; [done|]. split; [done|]. split; [done|].
  split; [by apply lookup_ge_None_2|].
  split; [eexists; split; [done | by apply list_lookup_middle]|].
  split.
  { intros [|l] x Hx; [done|]. cbn [future_at] in *. by apply lookup_app_l_Some. }
  split.
  { intros id Hne. destruct (Message.isRequest m); [|done].
    by rewrite lookup_insert_ne. }
  eexists dst, _. split; [done|]. split; [done|]. split.
  { intros Hranked. rewrite (Hranked _ _ Hdst). lia. }
  by destruct (Message.isRequest m).
Qed.

Lemma send_frame_witness :
  workerIds_ Scenario.waiting = workerIds_ Scenario.agent /\
  future_at Scenario.agent Scenario.future = None.
Proof.
  destruct (send_frame Scenario.agent Scenario.waiting Scenario.B
              Scenario.ping Scenario.future) as (_ & _ & _ & H1 & H2 & _).
  - vm_compute. reflexivity.
  - split; [exact H1 | exact H2].
Defined.

(** ** The receive job, branch by branch *)

Section JobMore.

Variable save : list Tensor.t -> list byte.
Variable load : list byte -> option (list Tensor.t).
Variable cb_ : Message.t -> Result Message.t.

(** The type of the decoded message is the one the work carries. *)
Lemma received_type (work : RecvWork) (m : Message.t) :
  received load work = Ok m -> Message.type m = type_ work.
Proof.
  unfold received, storage_data_char, deserialize. result_simpl.
  destruct (bool_decide _); [|discriminate]. result_simpl.
  destruct (torch_load _ _) as [ts| | |]; try discriminate. result_simpl.
  destruct (2 <=? length ts)%nat; [|discriminate]. result_simpl.
  destruct (back ts) as [idT| | |]; try discriminate. result_simpl.
  destruct (back (pop_back ts)) as [pT| | |]; try discriminate. result_simpl.
  destruct (storage_data_int64_0 idT) as [id| | |]; try discriminate.
  result_simpl. by intros [= <-].
Qed.

Hypothesis load_save : forall ts, load (save ts) = Some ts.

(** What arrives is what was sent. *)
Lemma received_arrival (from : WorkerId.t) (m : Message.t) :
  is_int64 (Message.id m) -> received load (arrival save from m) = Ok m.
Proof using load_save.
  intros Hid. unfold received, arrival, storage_data_char.
  cbn [payload_ type_]. result_simpl.
  rewrite numel_from_blob. unfold from_blob.
  cbn [Tensor.scalar_type Tensor.storage].
  rewrite bool_decide_eq_true_2 by done. result_simpl.
  rewrite !firstn_all. by apply deserialize_serialize.
Qed.

End JobMore.

Section JobBranches.

Variable load : list byte -> option (list Tensor.t).
Variable cb_ : Message.t -> Result Message.t.

(** X9: a receive job that decodes a REQUEST from a worker of the group
    (other than the agent itself) calls the callback once and queues one
    send job, to the registry's WorkerId of the sender, carrying the
    callback's message; when that message is no REQUEST it goes out exactly
    as the callback made it (its id included) and the table of pending
    requests is as before. *)
Theorem recvJob_request_replies_to_sender (work : RecvWork)
    (m r : Message.t) (a : Agent) :
  registry_wf a ->
  received load work = Ok m -> Message.isRequest m = true ->
  cb_ m = Ok r ->
  0 <= WorkerId.id_ (from_ work) < getSize (pg_ a) ->
  WorkerId.id_ (from_ work) ≠ getRank (pg_ a) ->
  exists dst a',
    workerIds_ a !! Z.to_nat (WorkerId.id_ (from_ work)) = Some dst /\
    recvJob load cb_ work a = Ok (tt, a') /\
    nextId_ a' = int64_t (nextId_ a + 1) /\
    (exists msg, threadPool_ a'
                 = threadPool_ a ++ [SendJob {| to_ := dst; message_ := msg |}] /\
                 (Message.isRequest r = false -> msg = r)) /\
    (Message.isRequest r = false -> futures_ a' = futures_ a).
Proof.
  intros Hwf Hm Hreq Hcb Hin Hne.
  rewrite (recvJob_request load cb_ work m a Hm Hreq), Hcb.
  rewrite send_eval.
  rewrite (registry_wf_rank _ Hwf), (registry_wf_size _ Hwf).
  rewrite bool_decide_eq_true_2 by done.
  rewrite bool_decide_eq_true_2 by lia.
  destruct Hwf as (_ & _ & Hlen).
  destruct (vector_at_in_range (workerIds_ a) (WorkerId.id_ (from_ work)))
    as [dst Hdst]; [lia|].
  rewrite Hdst. apply vector_at_Ok in Hdst as [_ Hdst].
  exists dst, (sent a dst r). split; [done|]. split; [done|].
  unfold sent. unfold prepared, outgoing.
  cbn [nextId_ threadPool_ futures_ set_threadPool].
  split; [done|]. split.
  - eexists. split; [done|]. by intros ->.
  - by intros ->.
Qed.

(** X10: a receive job that decodes a RESPONSE and returns has completed
    the future registered under the id of the response with that response
    and erased that entry, and nothing else: every other entry and every
    other future are as before, and so are the counter, the queue and the
    registry. *)
Theorem recvJob_response_frame (work : RecvWork) (m : Message.t)
    (a a' : Agent) :
  received load work = Ok m -> Message.isResponse m = true ->
  recvJob load cb_ work a = Ok (tt, a') ->
  exists l,
    futures_ a !! Message.id m = Some (ptr l) /\
    unresolved a (ptr l) /\
    resolved_with a' (ptr l) m /\
    futures_ a' !! Message.id m = None /\
    (forall id, id ≠ Message.id m -> futures_ a' !! id = futures_ a !! id) /\
    (forall l', l' ≠ l -> heap a' !! l' = heap a !! l') /\
    length (heap a') = length (heap a) /\
    nextId_ a' = nextId_ a /\ threadPool_ a' = threadPool_ a /\
    workerIds_ a' = workerIds_ a /\ nameMap_ a' = nameMap_ a.
Proof.
  intros Hm Hresp. rewrite (recvJob_response load cb_ work m a Hm Hresp).
  destruct (futures_ a !! Message.id m) as [[|l]|] eqn:Hl; try discriminate.
  destruct (heap a !! l) as [f|] eqn:Hf; [|discriminate].
  destruct (FutureMessage.completed f) eqn:Hc; [discriminate|].
  intros [= <-]. exists l. unfold answered, resolved_with, unresolved.
  cbn [futures_ heap nextId_ threadPool_ workerIds_ nameMap_ set_futures
       set_heap future_at].
  split; [done|]. split; [by exists f|].
  split; [apply list_lookup_insert_eq; by eapply lookup_lt_Some|].
  split; [apply lookup_delete_eq|].
  split; [intros id Hne; by apply lookup_delete_ne|].
  split; [intros l' Hne; by apply list_lookup_insert_ne|].
  split; [apply length_insert | done].
Qed.

(** X11: a RESPONSE is accepted once: after a receive job has answered an
    id, a further RESPONSE carrying the same id finds no entry, and its
    job dereferences the null pointer the subscript inserts. *)
Theorem recvJob_response_twice (work1 work2 : RecvWork) (m1 m2 : Message.t)
    (a a1 : Agent) :
  received load work1 = Ok m1 -> Message.isResponse m1 = true ->
  recvJob load cb_ work1 a = Ok (tt, a1) ->
  received load work2 = Ok m2 -> Message.isResponse m2 = true ->
  Message.id m2 = Message.id m1 ->
  recvJob load cb_ work2 a1 = Undefined NullDereference.
Proof.
  intros Hm1 Hr1 Hjob Hm2 Hr2 Hid.
  rewrite (recvJob_response load cb_ work1 m1 a Hm1 Hr1) in Hjob.
  destruct (futures_ a !! Message.id m1) as [[|l]|] eqn:Hl; try discriminate.
  destruct (heap a !! l) as [f|] eqn:Hf; [|discriminate].
  destruct (FutureMessage.completed f) eqn:Hc; [discriminate|].
  injection Hjob as <-.
  apply (recvJob_unknown_id load cb_ work2 m2); [done | done |].
  rewrite Hid. unfold answered. cbn [futures_ set_futures].
  apply lookup_delete_eq.
Qed.

(** X12: a work of type SHUTDOWN that reaches a receive job with a body
    that decodes is refused as an unrecognized message type, whatever the
    body holds: the type of the decoded message is the type of the work. *)
Theorem recvJob_shutdown_type (work : RecvWork) (m : Message.t) (a : Agent) :
  received load work = Ok m -> type_ work = SHUTDOWN ->
  recvJob load cb_ work a
  = Error [Str "unrecognized message type "; Enum SHUTDOWN].
Proof.
  intros Hm Hty. pose proof (received_type load work m Hm) as Ht.
  rewrite Hty in Ht. unfold recvJob. agent_simpl. rewrite Hm.
  unfold Message.isRequest, Message.isResponse. rewrite Ht.
  rewrite !bool_decide_eq_false_2 by discriminate. reflexivity.
Qed.

End JobBranches.

Lemma recvJob_request_replies_to_sender_witness :
  exists dst a',
    workerIds_ Scenario.agent !! 1%nat = Some dst /\
    recvJob Archive.load Scenario.cb
      (Scenario.arrival (Message.Build [x68; x69] [] REQUEST 9)) Scenario.agent
    = Ok (tt, a') /\
    threadPool_ a' = [SendJob {| to_ := dst; message_ := Scenario.pong 9 |}].
Proof.
  destruct (recvJob_request_replies_to_sender Archive.load Scenario.cb
              (Scenario.arrival (Message.Build [x68; x69] [] REQUEST 9))
              (Message.Build [x68; x69] [] REQUEST 9) (Scenario.pong 9)
              Scenario.agent)
    as (dst & a' & Hdst & Hjob & _ & (msg & Hpool & Hmsg) & _).
  - apply built_registry_wf; vm_compute; try reflexivity;
      split; discriminate || reflexivity.
  - vm_compute. reflexivity.
  - reflexivity.
  - reflexivity.
  - vm_compute. split; [discriminate | reflexivity].
  - vm_compute. discriminate.
  - exists dst, a'. split; [exact Hdst|]. split; [exact Hjob|].
    rewrite Hpool, (Hmsg eq_refl). reflexivity.
Defined.

Lemma recvJob_response_frame_witness :
  exists l a',
    recvJob Archive.load Scenario.cb (Scenario.arrival (Scenario.pong 0))
      Scenario.waiting = Ok (tt, a') /\
    futures_ Scenario.waiting !! 0 = Some (ptr l) /\
    resolved_with a' (ptr l) (Scenario.pong 0) /\
    futures_ a' !! 0 = None.
Proof.
  destruct (recvJob Archive.load Scenario.cb
              (Scenario.arrival (Scenario.pong 0)) Scenario.waiting)
    as [[[] a']| | |] eqn:E; try (vm_compute in E; discriminate).
  destruct (recvJob_response_frame Archive.load Scenario.cb
              (Scenario.arrival (Scenario.pong 0)) (Scenario.pong 0)
              Scenario.waiting a')
    as (l & H1 & _ & H2 & H3 & _).
  - vm_compute. reflexivity.
  - reflexivity.
  - exact E.
  - exists l, a'. split; [reflexivity|]. split; [exact H1|].
    split; [exact H2 | exact H3].
Defined.

Lemma recvJob_response_twice_witness :
  exists a1,
    recvJob Archive.load Scenario.cb (Scenario.arrival (Scenario.pong 0))
      Scenario.waiting = Ok (tt, a1) /\
    recvJob Archive.load Scenario.cb (Scenario.arrival (Scenario.pong 0)) a1
    = Undefined NullDereference.
Proof.
  destruct (recvJob Archive.load Scenario.cb
              (Scenario.arrival (Scenario.pong 0)) Scenario.waiting)
    as [[[] a1]| | |] eqn:E; try (vm_compute in E; discriminate).
  exists a1. split; [reflexivity|].
  apply (recvJob_response_twice Archive.load Scenario.cb
           (Scenario.arrival (Scenario.pong 0))
           (Scenario.arrival (Scenario.pong 0))
           (Scenario.pong 0) (Scenario.pong 0) Scenario.waiting a1).
  - vm_compute. reflexivity.
  - reflexivity.
  - exact E.
  - vm_compute. reflexivity.
  - reflexivity.
  - reflexivity.
Defined.

Lemma recvJob_shutdown_type_witness :
  recvJob Archive.load Scenario.cb
    {| from_ := Scenario.B; type_ := SHUTDOWN;
       payload_ := payload_ (Scenario.arrival (Scenario.pong 0)) |}
    Scenario.agent
  = Error [Str "unrecognized message type "; Enum SHUTDOWN].
Proof.
  apply (recvJob_shutdown_type Archive.load Scenario.cb
           {| from_ := Scenario.B; type_ := SHUTDOWN;
              payload_ := payload_ (Scenario.arrival (Scenario.pong 0)) |}
           (Message.Build [x70; x6f; x6e; x67] [] SHUTDOWN 0)).
  - vm_compute. reflexivity.
  - reflexivity.
Defined.

(** ** The table of pending requests over the life of an agent *)

Lemma sent_table_inv (a : Agent) (dst : WorkerId.t) (m : Message.t) :
  table_inv a -> nextId_ a < 2 ^ 63 - 1 -> table_inv (sent a dst m).
Proof.
  intros [Hn Hinv] Hmax. unfold table_inv, sent. unfold prepared.
  cbn [nextId_ futures_ heap set_threadPool].
  assert (Hnext : int64_t (nextId_ a + 1) = nextId_ a + 1).
  { apply wrap_signed_id; [lia|]. unfold in_signed.
    change (2 ^ (64 - 1)) with (2 ^ 63). lia. }
  rewrite Hnext. split; [lia|].
  assert (Hold : forall id p, futures_ a !! id = Some p ->
            0 <= id < nextId_ a + 1 /\
            exists l f, p = ptr l /\ (l < length (heap a))%nat /\
              (heap a ++ [if Message.isRequest m then FutureMessage.fresh
                          else FutureMessage.Build true None]) !! l = Some f /\
              FutureMessage.completed f = false /\
              forall id', futures_ a !! id' = Some (ptr l) -> id' = id).
  { intros id p Hp. destruct (Hinv _ _ Hp) as (Hid & l & f & -> & Hf & Hc & Hu).
    split; [lia|]. exists l, f. split; [done|].
    split; [by eapply lookup_lt_Some|]. split; [by apply lookup_app_l_Some|].
    done. }
  destruct (Message.isRequest m).
  - intros id p Hp. destruct (decide (nextId_ a = id)) as [<-|Hne].
    + rewrite lookup_insert_eq in Hp. injection Hp as <-. split; [lia|].
      exists (length (heap a)), FutureMessage.fresh. split; [done|].
      split; [by apply list_lookup_middle|]. split; [done|].
      intros id' Hid'. destruct (decide (nextId_ a = id')) as [|Hne']; [done|].
      rewrite lookup_insert_ne in Hid' by done.
      destruct (Hold _ _ Hid') as (_ & l & f & [= <-] & Hl & _). lia.
    + rewrite lookup_insert_ne in Hp by done.
      destruct (Hold _ _ Hp) as (Hid & l & f & -> & Hl & Hf & Hc & Hu).
      split; [done|]. exists l, f. split; [done|]. split; [done|].
      split; [done|]. intros id' Hid'.
      destruct (decide (nextId_ a = id')) as [<-|Hne'].
      * rewrite lookup_insert_eq in Hid'. injection Hid' as Heq. lia.
      * rewrite lookup_insert_ne in Hid' by done. by apply Hu.
  - intros id p Hp.
    destruct (Hold _ _ Hp) as (Hid & l & f & -> & Hl & Hf & Hc & Hu).
    split; [done|]. by exists l, f.
Qed.

Lemma answered_table_inv (a : Agent) (l0 : nat) (m : Message.t) :
  table_inv a -> futures_ a !! Message.id m = Some (ptr l0) ->
  table_inv (answered a l0 m).
Proof.
  intros [Hn Hinv] Hm. unfold table_inv, answered.
  cbn [nextId_ futures_ heap set_futures set_heap]. split; [done|].
  intros id p Hp. apply lookup_delete_Some in Hp as [Hne Hp].
  destruct (Hinv _ _ Hp) as (Hid & l & f & -> & Hf & Hc & Hu).
  split; [done|]. exists l, f. split; [done|]. split.
  - rewrite list_lookup_insert_ne; [done|]. intros ->.
    apply Hne. by apply Hu.
  - split; [done|]. intros id' Hid'.
    apply lookup_delete_Some in Hid' as [_ Hid']. by apply Hu.
Qed.

Section TableLife.

Variable load : list byte -> option (list Tensor.t).
Variable cb_ : Message.t -> Result Message.t.

Lemma step_table_inv (e : Event) (a a' : Agent) :
  table_inv a -> nextId_ a < 2 ^ 63 - 1 ->
  step load cb_ e a = Ok (tt, a') ->
  table_inv a' /\ nextId_ a <= nextId_ a' <= nextId_ a + 1.
Proof.
  intros Hinv Hmax Hstep.
  assert (Hsend : forall to m f a1, send to m a = Ok (f, a1) ->
            table_inv a1 /\ nextId_ a <= nextId_ a1 <= nextId_ a + 1).
  { intros to m f a1 Hs. apply send_Ok in Hs as (_ & _ & dst & _ & _ & ->).
    split; [by apply sent_table_inv|].
    unfold sent. unfold prepared. cbn [nextId_ set_threadPool].
    destruct Hinv as [Hn _].
    unfold int64_t. rewrite (wrap_signed_id 64 (nextId_ a + 1)); [lia | lia |].
    unfold in_signed. change (2 ^ (64 - 1)) with (2 ^ 63). lia. }
  destruct e as [to m|work]; cbn [step] in Hstep.
  - unfold mbind, M_bind in Hstep.
    destruct (send to m a) as [[f a1]| | |] eqn:Hs; try discriminate.
    injection Hstep as <-. by eapply Hsend.
  - destruct (received load work) as [m| | |] eqn:Hm;
      try (exfalso; eapply (recvJob_not_received load cb_ work a);
           [rewrite Hm; intros [? ?]; discriminate | by eexists]).
    destruct (Message.isRequest m) eqn:Hreq.
    + rewrite (recvJob_request _ _ _ _ _ Hm Hreq) in Hstep.
      destruct (cb_ m) as [response| | |]; try discriminate.
      destruct (send (from_ work) response a) as [[f a1]| | |] eqn:Hs;
        try discriminate.
      injection Hstep as <-. by eapply Hsend.
    + destruct (Message.isResponse m) eqn:Hresp.
      * rewrite (recvJob_response _ _ _ _ _ Hm Hresp) in Hstep.
        destruct (futures_ a !! Message.id m) as [[|l']|] eqn:Hl';
          try discriminate.
        destruct (heap a !! l') as [f'|]; [|discriminate].
        destruct (FutureMessage.completed f'); [discriminate|].
        injection Hstep as <-. split; [by apply answered_table_inv|].
        unfold answered. cbn [nextId_ set_futures set_heap]. lia.
      * rewrite (recvJob_other _ _ _ _ _ Hm Hreq Hresp) in Hstep.
        discriminate.
Qed.

Lemma run_table_inv (es : list Event) :
  forall a a', table_inv a ->
    nextId_ a + Z.of_nat (length es) < 2 ^ 63 ->
    run load cb_ es a = Ok (tt, a') ->
    table_inv a' /\ nextId_ a' <= nextId_ a + Z.of_nat (length es).
Proof.
  induction es as [|e es IH]; intros a a' Hinv Hlen Hrun.
  - cbn in Hrun. injection Hrun as <-. cbn. split; [done | lia].
  - cbn [run] in Hrun. unfold mbind, M_bind in Hrun.
    destruct (step load cb_ e a) as [[[] a1]| | |] eqn:Hstep; try discriminate.
    cbn [length] in Hlen.
    destruct (step_table_inv e a a1 Hinv ltac:(lia) Hstep) as [Hinv1 Hn1].
    destruct (IH a1 a' Hinv1 ltac:(lia) Hrun) as [Hinv' Hn'].
    split; [done|]. cbn [length]. lia.
Qed.

(** X13: over the life of an agent (any sequence of fewer than 2^63 [send]
    calls and receive jobs that return, from the state the constructor
    leaves) the table of pending requests holds only ids the counter has
    already passed, each with a future of its own that is not completed;
    so a RESPONSE whose id is in the table is always accepted: its job
    returns and completes exactly the registered future with it. *)
Theorem pending_requests_invariant (a a' : Agent) (es : list Event) :
  table_inv a ->
  nextId_ a + Z.of_nat (length es) < 2 ^ 63 ->
  run load cb_ es a = Ok (tt, a') ->
  table_inv a' /\
  nextId_ a' <= nextId_ a + Z.of_nat (length es) /\
  forall (work : RecvWork) (resp : Message.t) (p : shared_ptr),
    received load work = Ok resp -> Message.isResponse resp = true ->
    futures_ a' !! Message.id resp = Some p ->
    exists a'', recvJob load cb_ work a' = Ok (tt, a'') /\
                resolved_with a'' p resp /\ table_inv a''.
Proof.
  intros Hinv Hlen Hrun.
  destruct (run_table_inv es a a' Hinv Hlen Hrun) as [Hinv' Hn'].
  split; [done|]. split; [done|].
  intros work resp p Hm Hresp Hp.
  destruct Hinv' as [Hc Hall].
  destruct (Hall _ _ Hp) as (_ & l & f & -> & Hf & Hfc & _).
  destruct (recvJob_known_id load cb_ work resp a' (ptr l) Hm Hresp Hp)
    as (a'' & Hjob & Hres & _); [by exists f|].
  exists a''. split; [done|]. split; [done|].
  rewrite (recvJob_response _ _ _ _ _ Hm Hresp), Hp, Hf, Hfc in Hjob.
  injection Hjob as <-. by apply answered_table_inv.
Qed.

End TableLife.

Lemma pending_requests_invariant_witness :
  exists a',
    run Archive.load Scenario.cb
      (CallSend Scenario.B Scenario.ping :: Scenario.traffic) Scenario.agent
    = Ok (tt, a') /\
    table_inv a' /\ nextId_ a' <= 3.
Proof.
  destruct (run Archive.load Scenario.cb
              (CallSend Scenario.B Scenario.ping :: Scenario.traffic)
              Scenario.agent) as [[[] a']| | |] eqn:E;
    try (vm_compute in E; discriminate).
  exists a'. split; [reflexivity|].
  destruct (pending_requests_invariant Archive.load Scenario.cb
              Scenario.agent a'
              (CallSend Scenario.B Scenario.ping :: Scenario.traffic))
    as (H1 & H2 & _).
  - apply built_table_inv.
  - vm_compute. reflexivity.
  - exact E.
  - split; [exact H1 | exact H2].
Defined.

(** ** Send jobs on the pool: every message goes out once, and the pool
    never gets stuck *)

Lemma sent_by_app (i : nat) (w1 w2 : list Sent) :
  sent_by i (w1 ++ w2) = sent_by i w1 ++ sent_by i w2.
Proof. apply flat_map_app. Qed.

(** What each job has transmitted and what it has yet to transmit make up
    the transmissions of its program, whatever the programs are. *)
Lemma pool_step_sends (programs : list (list Instr)) (j : nat) (p p' : Pool) :
  (forall i prog rem, programs !! i = Some prog -> threads p !! i = Some rem ->
     sent_by i (wire p) ++ sends_of rem = sends_of prog) ->
  pool_step j p = Ok p' ->
  forall i prog rem, programs !! i = Some prog -> threads p' !! i = Some rem ->
    sent_by i (wire p') ++ sends_of rem = sends_of prog.
Proof.
  intros Hinv Hstep i prog rem Hprog Hrem. unfold pool_step in Hstep.
  destruct (threads p !! j) as [[|instr rest]|] eqn:Hj;
    try (injection Hstep as <-; by apply Hinv).
  assert (Hother : j ≠ i -> threads p !! i = Some rem ->
            sent_by i (wire p) ++ sends_of rem = sends_of prog)
    by (intros _ H; by apply Hinv).
  destruct instr as [m|m|ts dst tag|k].
  - revert Hstep. result_simpl.
    destruct (vector_at _ _) as [[o|]| | |]; try discriminate;
      cbn [Result_bind]; [intros [= <-]; by apply Hinv|].
    destruct (vector_set _ _ _) as [mx| | |]; try discriminate.
    cbn [Result_bind]. intros [= <-]. cbn [threads wire] in *.
    apply threads_insert_lookup in Hrem as [[-> ->]|[Hne Hrem]].
    + by rewrite <- (Hinv _ _ _ Hprog Hj).
    + by apply Hinv.
  - revert Hstep. result_simpl.
    destruct (vector_set _ _ _) as [mx| | |]; try discriminate.
    cbn [Result_bind]. intros [= <-]. cbn [threads wire] in *.
    apply threads_insert_lookup in Hrem as [[-> ->]|[Hne Hrem]].
    + by rewrite <- (Hinv _ _ _ Hprog Hj).
    + by apply Hinv.
  - injection Hstep as <-. cbn [threads wire] in *.
    rewrite sent_by_app. cbn [sent_by flat_map sender sent_tensors sent_dst
                               sent_tag]. rewrite app_nil_r.
    apply threads_insert_lookup in Hrem as [[-> ->]|[Hne Hrem]].
    + rewrite bool_decide_eq_true_2 by done.
      rewrite <- (Hinv _ _ _ Hprog Hj). cbn [sends_of flat_map].
      by rewrite <- app_assoc.
    + rewrite bool_decide_eq_false_2 by done. rewrite app_nil_r.
      by apply Hinv.
  - injection Hstep as <-. cbn [threads wire] in *.
    apply threads_insert_lookup in Hrem as [[-> ->]|[Hne Hrem]].
    + by rewrite <- (Hinv _ _ _ Hprog Hj).
    + by apply Hinv.
Qed.

Lemma pool_run_sends (programs : list (list Instr)) (schedule : list nat) :
  forall p p',
    (forall i prog rem, programs !! i = Some prog -> threads p !! i = Some rem ->
       sent_by i (wire p) ++ sends_of rem = sends_of prog) ->
    pool_run schedule p = Ok p' ->
    forall i prog rem, programs !! i = Some prog -> threads p' !! i = Some rem ->
      sent_by i (wire p') ++ sends_of rem = sends_of prog.
Proof.
  induction schedule as [|j schedule IH]; intros p p' Hinv Hrun.
  - cbn in Hrun. by injection Hrun as <-.
  - cbn [pool_run] in Hrun. revert Hrun. result_simpl.
    destruct (pool_step j p) as [p1| | |] eqn:Hstep; try discriminate.
    cbn [Result_bind]. intros Hrun.
    apply (IH p1 p'); [|done]. by apply (pool_step_sends programs j p).
Qed.

Lemma pool_step_threads_length (j : nat) (p p' : Pool) :
  pool_step j p = Ok p' ->
  length (threads p') = length (threads p) /\
  length (sendMutexes_ p') = length (sendMutexes_ p).
Proof.
  unfold pool_step.
  destruct (threads p !! j) as [[|instr rest]|] eqn:Hj;
    try (by intros [= <-]).
  destruct instr as [m|m|ts dst tag|k]; result_simpl.
  - destruct (vector_at _ _) as [[o|]| | |]; try discriminate;
      cbn [Result_bind]; [by intros [= <-]|].
    destruct (vector_set _ _ _) as [mx| | |] eqn:Hset; try discriminate.
    cbn [Result_bind]. intros [= <-]. cbn [threads sendMutexes_].
    apply vector_set_Ok in Hset as [_ ->]. by rewrite !length_insert.
  - destruct (vector_set _ _ _) as [mx| | |] eqn:Hset; try discriminate.
    cbn [Result_bind]. intros [= <-]. cbn [threads sendMutexes_].
    apply vector_set_Ok in Hset as [_ ->]. by rewrite !length_insert.
  - intros [= <-]. cbn [threads sendMutexes_]. by rewrite length_insert.
  - intros [= <-]. cbn [threads sendMutexes_]. by rewrite length_insert.
Qed.

Lemma pool_run_threads_length (schedule : list nat) :
  forall p p', pool_run schedule p = Ok p' ->
    length (threads p') = length (threads p).
Proof.
  induction schedule as [|j schedule IH]; intros p p' Hrun.
  - cbn in Hrun. by injection Hrun as <-.
  - cbn [pool_run] in Hrun. revert Hrun. result_simpl.
    destruct (pool_step j p) as [p1| | |] eqn:Hstep; try discriminate.
    cbn [Result_bind]. intros Hrun. rewrite (IH _ _ Hrun).
    by apply pool_step_threads_length in Hstep as [-> _].
Qed.

(** X14: under every schedule each send job transmits what its program
    says, in order, and nothing else: its transmissions so far and those it
    has left make up those of the job; once it has finished, a SHUTDOWN job
    has made exactly one transmission, its preamble, and any other job
    exactly two, the preamble and then the body, all to its destination
    rank and under that rank as tag. *)
Theorem send_job_transmits_once (save : list Tensor.t -> list byte)
    (pg : ProcessGroup) (works : list SendWork) (schedule : list nat)
    (p0 p : Pool) :
  pool_start save pg works = Ok p0 ->
  pool_run schedule p0 = Ok p ->
  forall i work, works !! i = Some work ->
    exists rem, threads p !! i = Some rem /\
      sent_by i (wire p) ++ sends_of rem = sends_of (sendJob save pg work) /\
      (rem = [] ->
       let body := serialize save (message_ work) in
       let dst := WorkerId.id_ (to_ work) in
       let preamble :=
         ([tensor_int64s [getRank pg; Z.of_nat (length body);
                          MessageType_value (Message.type (message_ work))]],
          dst, dst) in
       sent_by i (wire p) =
       if Message.isShutdown (message_ work) then [preamble]
       else [preamble; ([from_blob body (length body)], dst, dst)]).
Proof.
  intros Hstart Hrun i work Hwork.
  assert (H0 : threads p0 = map (sendJob save pg) works /\ wire p0 = []).
  { revert Hstart. unfold pool_start, pool_init. result_simpl.
    destruct (vector_sized _ _) as [mx| | |]; try discriminate.
    cbn [Result_bind]. by intros [= <-]. }
  destruct H0 as [Hthreads Hwire].
  destruct (lookup_lt_is_Some_2 (threads p) i) as [rem Hrem].
  { rewrite (pool_run_threads_length _ _ _ Hrun), Hthreads, length_map.
    by eapply lookup_lt_Some. }
  exists rem. split; [done|].
  assert (Hsends : sent_by i (wire p) ++ sends_of rem
                   = sends_of (sendJob save pg work)).
  { apply (pool_run_sends (map (sendJob save pg) works) schedule p0 p);
      [| done | by rewrite list_lookup_fmap, Hwork | done].
    intros i' prog rem' Hprog Hrem'. rewrite Hwire, Hthreads in *.
    cbn. congruence. }
  split; [done|]. intros -> body dst preamble.
  cbn [sends_of flat_map] in Hsends. rewrite app_nil_r in Hsends.
  rewrite Hsends. unfold sendJob.
  by destruct (Message.isShutdown (message_ work)).
Qed.

Lemma send_job_transmits_once_witness :
  exists p0 p,
    pool_start Archive.save Scenario.pg Scenario.works = Ok p0 /\
    pool_run Scenario.schedule p0 = Ok p /\
    exists rem, threads p !! 1%nat = Some rem /\
      sent_by 1 (wire p) ++ sends_of rem
      = sends_of (sendJob Archive.save Scenario.pg
                    {| to_ := Scenario.B; message_ := Scenario.pong 9 |}).
Proof.
  eassert (E0 : pool_start Archive.save Scenario.pg Scenario.works = Ok _)
    by (vm_compute; reflexivity).
  match type of E0 with
  | _ = Ok ?p0 =>
      eassert (E1 : pool_run Scenario.schedule p0 = Ok _)
        by (vm_compute; reflexivity)
  end.
  eexists. eexists. split; [exact E0|]. split; [exact E1|].
  destruct (send_job_transmits_once Archive.save Scenario.pg Scenario.works
              Scenario.schedule _ _ E0 E1 1%nat
              {| to_ := Scenario.B; message_ := Scenario.pong 9 |} eq_refl)
    as (rem & Hrem & Hsends & _).
  exists rem. split; [exact Hrem | exact Hsends].
Defined.

Lemma pool_step_inv2 (dsts : list Z) (i : nat) (p p' : Pool) :
  pool_inv dsts p -> pool_inv2 dsts p -> pool_step i p = Ok p' ->
  pool_inv2 dsts p'.
Proof.
  intros Hinv Hinv2 Hstep.
  pose proof (pool_step_threads_length _ _ _ Hstep) as [_ Hmlen].
  unfold pool_step in Hstep.
  destruct (threads p !! i) as [[|instr rest]|] eqn:Hi;
    try (injection Hstep as <-; exact Hinv2).
  destruct (inv_shape _ _ Hinv _ _ Hi) as (d & Hd & Hshape).
  assert (Hranks : forall j dj, dsts !! j = Some dj ->
            0 <= dj < Z.of_nat (length (sendMutexes_ p'))).
  { intros j dj Hdj. rewrite Hmlen. by apply (inv_ranks _ _ Hinv2 j). }
  constructor; [|exact Hranks]. clear Hranks Hmlen.
  destruct instr as [m|m|ts dst tag|k].
  - assert (m = d /\ sending d rest) as [-> Hrest].
    { inversion Hshape as [r Hs|r Hs|r Hw]; subst; [done | |].
      - by apply sending_not_lock in Hs.
      - by apply waits_not_lock in Hw. }
    revert Hstep. result_simpl.
    destruct (vector_at (sendMutexes_ p) d) as [[o|]| | |] eqn:Hat;
      try discriminate; cbn [Result_bind];
      [intros [= <-]; apply (inv_owned _ _ Hinv2)|].
    destruct (vector_set _ _ _) as [mx| | |] eqn:Hset; try discriminate.
    cbn [Result_bind]. intros [= <-]. cbn [threads sendMutexes_].
    apply vector_set_Ok in Hset as [Hrange ->].
    intros m j Hm. apply list_lookup_insert_Some in Hm
      as [(<- & [= <-] & _)|[Hne Hm]].
    + exists rest, d. split; [apply list_lookup_insert_eq; by eapply lookup_lt_Some|].
      done.
    + destruct (inv_owned _ _ Hinv2 _ _ Hm) as (rem & dj & Hj & Hdj & Hs & Hto).
      exists rem, dj. split; [|done].
      rewrite list_lookup_insert_ne; [done|]. intros <-.
      rewrite Hi in Hj. injection Hj as <-. by apply sending_not_lock in Hs.
  - assert (m = d /\ waits rest) as [-> Hrest].
    { inversion Hshape as [r Hs|r Hs|r Hw]; subst.
      - inversion Hs; subst. done.
      - inversion Hw. }
    revert Hstep. result_simpl.
    destruct (vector_set _ _ _) as [mx| | |] eqn:Hset; try discriminate.
    cbn [Result_bind]. intros [= <-]. cbn [threads sendMutexes_].
    apply vector_set_Ok in Hset as [Hrange ->].
    intros m j Hm. apply list_lookup_insert_Some in Hm
      as [(_ & [=] & _)|[Hne Hm]].
    destruct (inv_owned _ _ Hinv2 _ _ Hm) as (rem & dj & Hj & Hdj & Hs & Hto).
    exists rem, dj. split; [|done].
    rewrite list_lookup_insert_ne; [done|]. intros <-.
    assert (dj = d) as -> by congruence. by apply Hne.
  - assert (dst = d /\ sending d rest) as [-> Hrest].
    { inversion Hshape as [r Hs|r Hs|r Hw]; subst.
      - inversion Hs; subst. done.
      - inversion Hw. }
    injection Hstep as <-. cbn [threads sendMutexes_].
    intros m j Hm.
    destruct (inv_owned _ _ Hinv2 _ _ Hm) as (rem & dj & Hj & Hdj & Hs & Hto).
    destruct (decide (j = i)) as [->|Hne].
    + exists rest, d. assert (dj = d) as -> by congruence.
      split; [apply list_lookup_insert_eq; by eapply lookup_lt_Some | done].
    + exists rem, dj. by rewrite list_lookup_insert_ne.
  - assert (waits rest) as Hrest.
    { inversion Hshape as [r Hs|r Hs|r Hw]; subst.
      - inversion Hs.
      - by inversion Hw. }
    injection Hstep as <-. cbn [threads sendMutexes_].
    intros m j Hm.
    destruct (inv_owned _ _ Hinv2 _ _ Hm) as (rem & dj & Hj & Hdj & Hs & Hto).
    exists rem, dj. split; [|done].
    rewrite list_lookup_insert_ne; [done|]. intros <-.
    rewrite Hi in Hj. injection Hj as <-. inversion Hs.
Qed.

Lemma pool_run_inv2 (dsts : list Z) (schedule : list nat) :
  forall p p', pool_inv dsts p -> pool_inv2 dsts p ->
    pool_run schedule p = Ok p' -> pool_inv2 dsts p'.
Proof.
  induction schedule as [|i schedule IH]; intros p p' Hinv Hinv2 Hrun.
  - cbn in Hrun. by injection Hrun as <-.
  - cbn [pool_run] in Hrun. revert Hrun. result_simpl.
    destruct (pool_step i p) as [p1| | |] eqn:Hstep; try discriminate.
    cbn [Result_bind]. intros Hrun.
    apply (IH p1 p'); [| |done].
    + by apply (pool_step_inv dsts i p).
    + by apply (pool_step_inv2 dsts i p).
Qed.

Lemma pool_start_inv2 (save : list Tensor.t -> list byte) (pg : ProcessGroup)
    (works : list SendWork) (p : Pool) :
  pool_start save pg works = Ok p ->
  Forall (fun w => 0 <= WorkerId.id_ (to_ w) < getSize pg) works ->
  pool_inv2 (map (fun w => WorkerId.id_ (to_ w)) works) p.
Proof.
  unfold pool_start, pool_init, vector_sized. result_simpl.
  case_bool_decide as Hsize; [|discriminate]. cbn [Result_bind].
  intros [= <-] Hall. constructor; cbn [threads sendMutexes_].
  - intros m i Hm. apply lookup_replicate in Hm as [[=] _].
  - intros i d Hd. rewrite list_lookup_fmap in Hd.
    destruct (works !! i) as [w|] eqn:Hw; [|discriminate].
    injection Hd as <-. rewrite length_replicate, Z2Nat.id by done.
    rewrite Forall_forall in Hall. apply Hall.
    apply list_elem_of_lookup. by exists i.
Qed.

Lemma remaining_insert (ts : list (list Instr)) (i : nat) (x : Instr)
    (rest : list Instr) :
  ts !! i = Some (x :: rest) ->
  length (concat ts) = S (length (concat (<[i := rest]> ts))).
Proof.
  revert i. induction ts as [|t ts IH]; intros [|i] Hi; try discriminate.
  - cbn in Hi. injection Hi as ->.
    change (<[0%nat := rest]> ((x :: rest) :: ts)) with (rest :: ts).
    cbn [concat]. rewrite !length_app. cbn [length]. lia.
  - cbn in Hi. change (<[S i := rest]> (t :: ts)) with (t :: <[i := rest]> ts).
    cbn [concat]. rewrite !length_app, (IH _ Hi). lia.
Qed.

Lemma remaining_zero (ts : list (list Instr)) :
  length (concat ts) = 0%nat -> Forall (fun rem => rem = []) ts.
Proof.
  induction ts as [|t ts IH]; [constructor|].
  cbn. rewrite length_app. intros H. constructor.
  - destruct t; [done | cbn in H; lia].
  - apply IH. lia.
Qed.

Lemma remaining_positive (ts : list (list Instr)) (n : nat) :
  length (concat ts) = S n ->
  exists i x rest, ts !! i = Some (x :: rest).
Proof.
  induction ts as [|t ts IH]; [discriminate|].
  cbn. rewrite length_app. intros H. destruct t as [|x rest].
  - destruct IH as (i & x & rest & Hi); [exact H|]. by exists (S i), x, rest.
  - by exists 0%nat, x, rest.
Qed.

(** While a job has an action left, some job can take its next action. *)
Lemma pool_progress (dsts : list Z) (p : Pool) (n : nat) :
  pool_inv dsts p -> pool_inv2 dsts p -> remaining p = S n ->
  exists i p', pool_step i p = Ok p' /\ remaining p' = n.
Proof.
  intros Hinv Hinv2 Hrem. unfold remaining in *.
  assert (Hgo : forall i x rest, threads p !! i = Some (x :: rest) ->
            (forall m, x = Lock m -> exists d, m = d /\ 0 <= d /\
               sendMutexes_ p !! Z.to_nat d = Some None) ->
            exists p', pool_step i p = Ok p' /\
                       length (concat (threads p')) = n).
  { intros i x rest Hi Hlock.
    pose proof (remaining_insert _ _ _ _ Hi) as Hless.
    destruct (inv_shape _ _ Hinv _ _ Hi) as (d & Hd & Hshape).
    unfold pool_step. rewrite Hi. destruct x as [m|m|ts dst tag|k].
    - destruct (Hlock m eq_refl) as (d' & -> & Hd0 & Hfree).
      result_simpl. unfold vector_at. rewrite bool_decide_eq_true_2 by done.
      rewrite Hfree. cbn [Result_bind]. unfold vector_set.
      rewrite bool_decide_eq_true_2
        by (apply lookup_lt_Some in Hfree; lia).
      cbn [Result_bind]. eexists. split; [done|]. cbn [threads]. lia.
    - assert (m = d /\ waits rest) as [-> Hrest].
      { inversion Hshape as [r Hs|r Hs|r Hw]; subst.
        - inversion Hs; subst. done.
        - inversion Hw. }
      destruct (inv_owner _ _ Hinv _ _ _ Hi Hd (sending_unlock d rest Hrest))
        as [Hd0 Hown].
      result_simpl. unfold vector_set.
      rewrite bool_decide_eq_true_2 by (apply lookup_lt_Some in Hown; lia).
      cbn [Result_bind]. eexists. split; [done|]. cbn [threads]. lia.
    - eexists. split; [done|]. cbn [threads]. lia.
    - eexists. split; [done|]. cbn [threads]. lia. }
  destruct (decide (Exists (fun rem => moves_freely rem = true) (threads p)))
    as [Hex|Hnone].
  - apply Exists_exists in Hex as (rem & Hin & Hfree).
    apply list_elem_of_lookup in Hin as [i Hi].
    destruct rem as [|x rest]; [discriminate|].
    destruct (Hgo i x rest Hi) as (p' & Hstep & Hn).
    { intros m ->. discriminate. }
    by exists i, p'.
  - destruct (remaining_positive _ _ Hrem) as (i & x & rest & Hi).
    destruct (Hgo i x rest Hi) as (p' & Hstep & Hn); [|by exists i, p'].
    intros m ->. destruct (inv_shape _ _ Hinv _ _ Hi) as (d & Hd & Hshape).
    assert (m = d) as ->.
    { inversion Hshape as [r Hs|r Hs|r Hw]; subst; [done | |].
      - by apply sending_not_lock in Hs.
      - by apply waits_not_lock in Hw. }
    destruct (inv_ranks _ _ Hinv2 _ _ Hd) as [Hd0 Hd1].
    exists d. split; [done|]. split; [done|].
    destruct (lookup_lt_is_Some_2 (sendMutexes_ p) (Z.to_nat d)) as [o Ho];
      [lia|].
    destruct o as [j|]; [|done]. exfalso.
    destruct (inv_owned _ _ Hinv2 _ _ Ho) as (rem & dj & Hj & _ & Hs & _).
    apply Hnone. apply Exists_exists. exists rem.
    split; [apply list_elem_of_lookup; by exists j|].
    by destruct Hs.
Qed.

Lemma pool_can_finish (dsts : list Z) (n : nat) :
  forall p, pool_inv dsts p -> pool_inv2 dsts p -> remaining p = n ->
    exists schedule p', pool_run schedule p = Ok p' /\ finished p' /\
                        length schedule = n.
Proof.
  induction n as [|n IH]; intros p Hinv Hinv2 Hrem.
  - exists [], p. split; [done|]. split; [by apply remaining_zero | done].
  - destruct (pool_progress dsts p n Hinv Hinv2 Hrem) as (i & p1 & Hstep & Hn).
    destruct (IH p1) as (schedule & p' & Hrun & Hfin & Hlen); [| |done|].
    + by apply (pool_step_inv dsts i p).
    + by apply (pool_step_inv2 dsts i p).
    + exists (i :: schedule), p'. cbn [pool_run]. result_simpl.
      rewrite Hstep. cbn [Result_bind length]. split; [done|].
      split; [done | by rewrite Hlen].
Qed.

(** X15: the send jobs cannot get stuck: when every job is addressed to a
    rank of the group, then from whatever state a schedule has brought the
    pool to, some schedule (of as many steps as the jobs have actions left)
    runs every job to its end, without undefined behaviour; a job takes one
    mutex, never waits for anything while it owns it, and gives it back. *)
Theorem send_jobs_can_finish (save : list Tensor.t -> list byte)
    (pg : ProcessGroup) (works : list SendWork) (schedule : list nat)
    (p0 p : Pool) :
  Forall (fun w => 0 <= WorkerId.id_ (to_ w) < getSize pg) works ->
  pool_start save pg works = Ok p0 ->
  pool_run schedule p0 = Ok p ->
  exists schedule' p',
    pool_run schedule' p = Ok p' /\ finished p' /\
    length schedule' = remaining p /\
    pool_run (schedule ++ schedule') p0 = Ok p'.
Proof.
  intros Hall Hstart Hrun.
  set (dsts := map (fun w => WorkerId.id_ (to_ w)) works).
  pose proof (pool_start_inv save pg works p0 Hstart) as Hinv0.
  pose proof (pool_start_inv2 save pg works p0 Hstart Hall) as Hinv20.
  pose proof (pool_run_inv dsts schedule p0 p Hinv0 Hrun) as Hinv.
  pose proof (pool_run_inv2 dsts schedule p0 p Hinv0 Hinv20 Hrun) as Hinv2.
  destruct (pool_can_finish dsts (remaining p) p Hinv Hinv2 eq_refl)
    as (schedule' & p' & Hrun' & Hfin & Hlen).
  exists schedule', p'. split; [done|]. split; [done|]. split; [done|].
  clear -Hrun Hrun'. revert p0 Hrun.
  induction schedule as [|i schedule IH]; intros p0 Hrun.
  - cbn in Hrun. injection Hrun as ->. done.
  - cbn [pool_run app] in *. revert Hrun. result_simpl.
    destruct (pool_step i p0) as [p1| | |]; try discriminate.
    cbn [Result_bind]. apply IH.
Qed.

Lemma send_jobs_can_finish_witness :
  exists p0 p schedule' p',
    pool_start Archive.save Scenario.pg Scenario.works = Ok p0 /\
    pool_run [0; 1; 2; 1]%nat p0 = Ok p /\
    pool_run schedule' p = Ok p' /\ finished p' /\
    length schedule' = remaining p.
Proof.
  eassert (E0 : pool_start Archive.save Scenario.pg Scenario.works = Ok _)
    by (vm_compute; reflexivity).
  match type of E0 with
  | _ = Ok ?p0 =>
      eassert (E1 : pool_run [0; 1; 2; 1]%nat p0 = Ok _)
        by (vm_compute; reflexivity)
  end.
  assert (Hall : Forall (fun w => 0 <= WorkerId.id_ (to_ w) < getSize Scenario.pg)
                   Scenario.works)
    by (repeat constructor; vm_compute; discriminate).
  destruct (send_jobs_can_finish Archive.save Scenario.pg Scenario.works
              [0; 1; 2; 1]%nat _ _ Hall E0 E1)
    as (schedule' & p' & H1 & H2 & H3 & _).
  eexists. eexists. exists schedule', p'.
  split; [exact E0|]. split; [exact E1|]. split; [exact H1|].
  split; [exact H2 | exact H3].
Defined.

(** ** The listener *)

Ltac listen_simpl :=
  repeat (agent_simpl; unfold enqueueRecv;
          cbn [workerId_ nameMap_ pg_ nextId_ workerIds_ futures_
               threadPool_ heap set_threadPool]).

Lemma int64_item_of_le_bytes (v : Z) (rest : list byte) :
  is_int64 v -> int64_item (le_bytes 8 v ++ rest) 0 = v.
Proof.
  intros Hv. unfold int64_item. change (8 * 0)%nat with 0%nat.
  rewrite drop_0, take_app_length' by (by rewrite length_le_bytes).
  rewrite le_value_le_bytes. unfold int64_t.
  change (8 * Z.of_nat 8) with 64.
  rewrite wrap_signed_mod by lia. by apply wrap_signed_id.
Qed.

Lemma int64_item_skip (v : Z) (rest : list byte) (k : nat) :
  int64_item (le_bytes 8 v ++ rest) (S k) = int64_item rest k.
Proof.
  unfold int64_item. f_equal. f_equal. f_equal.
  replace (8 * S k)%nat with (length (le_bytes 8 v) + 8 * k)%nat
    by (rewrite length_le_bytes; lia).
  apply drop_app_add.
Qed.

Lemma is_int64_small (z : Z) : - 2 ^ 31 <= z < 2 ^ 62 -> is_int64 z.
Proof.
  intros Hz. unfold is_int64, in_signed. change (2 ^ (64 - 1)) with (2 ^ 63). lia.
Qed.

Lemma enqueued_enqueued (xs ys : list RecvWork) (a : Agent) :
  enqueued ys (enqueued xs a) = enqueued (xs ++ ys) a.
Proof.
  unfold enqueued. cbn [threadPool_ set_threadPool].
  by rewrite map_app, app_assoc.
Qed.

Lemma enqueued_nil (a : Agent) : enqueued [] a = a.
Proof. unfold enqueued. cbn. rewrite app_nil_r. by destruct a. Qed.

Lemma wire_of_shutdown (save : list Tensor.t -> list byte) (pg : ProcessGroup)
    (work : SendWork) :
  Message.isShutdown (message_ work) = true ->
  wire_of save pg work =
  [{| source := getRank pg; dtag := WorkerId.id_ (to_ work);
      data := [tensor_int64s
                 [getRank pg;
                  Z.of_nat (length (serialize save (message_ work)));
                  MessageType_value (Message.type (message_ work))]] |}].
Proof. intros H. unfold wire_of, sendJob. by rewrite H. Qed.

Lemma wire_of_message (save : list Tensor.t -> list byte) (pg : ProcessGroup)
    (work : SendWork) :
  Message.isShutdown (message_ work) = false ->
  wire_of save pg work =
  let body := serialize save (message_ work) in
  [{| source := getRank pg; dtag := WorkerId.id_ (to_ work);
      data := [tensor_int64s
                 [getRank pg; Z.of_nat (length body);
                  MessageType_value (Message.type (message_ work))]] |};
   {| source := getRank pg; dtag := WorkerId.id_ (to_ work);
      data := [from_blob body (length body)] |}].
Proof. intros H. unfold wire_of, sendJob. by rewrite H. Qed.

Section ListenerFacts.

Variable save : list Tensor.t -> list byte.
Variable MessageType_cast : Z -> MessageType.

(** Reading the [int64_t] a type was written as gives the type back. *)
Hypothesis cast_value :
  forall t, MessageType_cast (MessageType_value t) = t.

Lemma preamble_items (r len : Z) (t : MessageType) :
  is_int64 len ->
  let bytes := flat_map Tensor.storage
                 [tensor_int64s [r; len; MessageType_value t]] in
  length bytes = 24%nat /\
  (is_int64 r -> int64_item bytes 0 = r) /\
  int64_item bytes 1 = len /\
  MessageType_cast (int64_item bytes 2) = t.
Proof using cast_value.
  intros Hlen bytes. unfold bytes, tensor_int64s.
  cbn [flat_map Tensor.storage]. rewrite !app_nil_r.
  split; [by rewrite !length_app, !length_le_bytes|].
  split; [intros Hr; by apply int64_item_of_le_bytes|].
  split.
  - rewrite int64_item_skip. by apply int64_item_of_le_bytes.
  - rewrite !int64_item_skip.
    rewrite <- (app_nil_r (le_bytes 8 (MessageType_value t))).
    rewrite int64_item_of_le_bytes; [apply cast_value|].
    apply is_int64_small. destruct t; cbn; lia.
Qed.

(** The listener on a SHUTDOWN frame addressed to it: it returns, with the
    agent as it was and the rest unread. *)
Lemma listen_shutdown_frame (fuel : nat) (pg : ProcessGroup) (work : SendWork)
    (rest : list Delivery) (a : Agent) :
  Message.isShutdown (message_ work) = true ->
  WorkerId.id_ (to_ work) = getRank (pg_ a) ->
  Z.of_nat (length (serialize save (message_ work))) < 2 ^ 63 ->
  listen MessageType_cast (S fuel) (wire_of save pg work ++ rest) a
  = Ok ((Returned, rest), a).
Proof using cast_value.
  intros Hsh Hto Hlen. rewrite (wire_of_shutdown _ _ _ Hsh).
  cbn [app listen]. listen_simpl.
  unfold recvAnysource. cbn [take_first dtag].
  rewrite bool_decide_eq_true_2 by done.
  destruct (preamble_items (getRank pg)
              (Z.of_nat (length (serialize save (message_ work))))
              (Message.type (message_ work))) as (Hl & _ & _ & Hty).
  { unfold is_int64, in_signed. change (2 ^ (64 - 1)) with (2 ^ 63). lia. }
  unfold fill_buffer. cbn [data]. rewrite bool_decide_eq_true_2 by done.
  listen_simpl. rewrite Hty.
  apply bool_decide_eq_true in Hsh. by rewrite bool_decide_eq_true_2.
Qed.

(** The listener on a frame it can take in: it queues the work and goes
    round. *)
Lemma listen_message_frame (fuel : nat) (f : ProcessGroup * SendWork)
    (rw : RecvWork) (rest : list Delivery) (a : Agent) :
  delivers save a f rw ->
  listen MessageType_cast (S fuel) (wire_of save f.1 f.2 ++ rest) a
  = listen MessageType_cast fuel rest (enqueued [rw] a).
Proof using cast_value.
  intros (Hto & Hsh & Hid & Hlen & Hr & from & Hfrom & ->).
  rewrite (wire_of_message _ _ _ Hsh). cbn zeta.
  cbn [app listen]. listen_simpl.
  unfold recvAnysource. cbn [take_first dtag].
  rewrite bool_decide_eq_true_2 by done.
  destruct (preamble_items (getRank f.1)
              (Z.of_nat (length (serialize save (message_ f.2))))
              (Message.type (message_ f.2))) as (Hl & Hi0 & Hi1 & Hty).
  { unfold is_int64, in_signed. change (2 ^ (64 - 1)) with (2 ^ 63). lia. }
  unfold fill_buffer at 1. cbn [data]. rewrite bool_decide_eq_true_2 by done.
  listen_simpl. rewrite Hty, Hi1, Hi0 by (apply is_int64_small; lia).
  apply bool_decide_eq_false in Hsh.
  rewrite bool_decide_eq_false_2 by done.
  rewrite bool_decide_eq_true_2 by lia. listen_simpl.
  unfold recv. cbn [take_first source dtag].
  assert (Hint : int_t (getRank f.1) = getRank f.1).
  { apply wrap_signed_id; [lia|]. unfold in_signed.
    change (2 ^ (32 - 1)) with (2 ^ 31). lia. }
  rewrite Hint, bool_decide_eq_true_2 by done.
  unfold fill_buffer. cbn [data flat_map]. rewrite app_nil_r.
  unfold from_blob at 1 2. cbn [Tensor.storage]. rewrite !firstn_all.
  rewrite Nat2Z.id, bool_decide_eq_true_2 by done. listen_simpl.
  unfold vector_at. rewrite bool_decide_eq_true_2 by lia. rewrite Hfrom.
  listen_simpl. unfold enqueued, arrival, from_blob.
  cbn [map threadPool_ set_threadPool]. by rewrite firstn_all.
Qed.

Lemma listen_nothing (fuel : nat) (a : Agent) :
  listen MessageType_cast fuel [] a = Ok ((Blocked, []), a).
Proof. destruct fuel; cbn [listen]; listen_simpl; done. Qed.

Lemma delivers_enqueued (a : Agent) (xs : list RecvWork)
    (f : ProcessGroup * SendWork) (rw : RecvWork) :
  delivers save a f rw -> delivers save (enqueued xs a) f rw.
Proof. done. Qed.

Lemma listen_stream (frames : list (ProcessGroup * SendWork)) :
  forall (works : list RecvWork) (fuel : nat) (tail : list Delivery)
         (a : Agent),
    Forall2 (delivers save a) frames works ->
    listen MessageType_cast (length frames + fuel)
           (stream save frames ++ tail) a
    = listen MessageType_cast fuel tail (enqueued works a).
Proof using cast_value.
  induction frames as [|f frames IH]; intros works fuel tail a Hall.
  - apply Forall2_nil_inv_l in Hall as ->. cbn. by rewrite enqueued_nil.
  - apply Forall2_cons_inv_l in Hall as (rw & works' & Hf & Hall & ->).
    cbn [length Nat.add stream flat_map]. rewrite <- app_assoc.
    rewrite (listen_message_frame _ f rw _ a Hf).
    fold (stream save frames).
    rewrite (IH works' fuel tail (enqueued [rw] a)).
    + by rewrite enqueued_enqueued.
    + eapply Forall2_impl; [exact Hall|]. intros ? ? H. exact H.
Qed.

Lemma length_stream (frames : list (ProcessGroup * SendWork))
    (works : list RecvWork) (a : Agent) :
  Forall2 (delivers save a) frames works ->
  length (stream save frames) = (2 * length frames)%nat.
Proof.
  induction 1 as [|f rw frames works Hf Hall IH]; [done|].
  cbn [stream flat_map length]. rewrite length_app. fold (stream save frames).
  rewrite IH. destruct Hf as (_ & Hsh & _).
  rewrite (wire_of_message _ _ _ Hsh). cbn. lia.
Qed.

(** X16: what the listener makes of the send jobs addressed to it, when
    the deliveries of one job come after those of another: for every
    message short of the first SHUTDOWN it queues one receive job, in the
    order of arrival, carrying the registry's WorkerId of the sending rank,
    the type of the message and its encoded body; at the first SHUTDOWN it
    returns and leaves whatever follows unread; with no SHUTDOWN it stays
    blocked once it has read everything.  It changes nothing else of the
    agent. *)
Theorem listenLoop_on_frames (frames : list (ProcessGroup * SendWork))
    (works : list RecvWork) (a : Agent) :
  Forall2 (delivers save a) frames works ->
  listenLoop MessageType_cast (stream save frames) a
  = Ok ((Blocked, []), enqueued works a) /\
  forall (pg : ProcessGroup) (last : SendWork) (rest : list Delivery),
    Message.isShutdown (message_ last) = true ->
    WorkerId.id_ (to_ last) = getRank (pg_ a) ->
    Z.of_nat (length (serialize save (message_ last))) < 2 ^ 63 ->
    listenLoop MessageType_cast
      (stream save frames ++ wire_of save pg last ++ rest) a
    = Ok ((Returned, rest), enqueued works a).
Proof using cast_value.
  intros Hall. pose proof (length_stream _ _ _ Hall) as Hlen. split.
  - unfold listenLoop. rewrite Hlen.
    replace (2 * length frames)%nat with (length frames + length frames)%nat
      by lia.
    rewrite <- (app_nil_r (stream save frames)).
    rewrite (listen_stream frames works _ [] a Hall).
    apply listen_nothing.
  - intros pg last rest Hsh Hto Hl. unfold listenLoop.
    rewrite !length_app, Hlen, (wire_of_shutdown _ _ _ Hsh).
    cbn [length].
    replace (2 * length frames + (1 + length rest))%nat
      with (length frames + S (length frames + length rest))%nat by lia.
    rewrite (listen_stream frames works _ _ a Hall).
    rewrite <- (wire_of_shutdown save pg last Hsh).
    by apply listen_shutdown_frame.
Qed.

End ListenerFacts.

Lemma Ring_cast_value (t : MessageType) :
  Ring.cast (MessageType_value t) = t.
Proof. by destruct t. Qed.

Lemma listenLoop_on_frames_witness :
  listenLoop Ring.cast
    (stream Archive.save [(Ring.pgB, Ring.fromB); (Ring.pgC, Ring.fromC)]
     ++ wire_of Archive.save Ring.pgC Ring.shutdownFromC
     ++ wire_of Archive.save Ring.pgB Ring.fromB)
    Scenario.waiting
  = Ok ((Returned, wire_of Archive.save Ring.pgB Ring.fromB),
        enqueued [arrival Archive.save Scenario.B (Scenario.pong 0);
                  arrival Archive.save Scenario.C
                    (Message.Build [x68; x69] [] REQUEST 4)]
                 Scenario.waiting).
Proof.
  apply (listenLoop_on_frames Archive.save Ring.cast Ring_cast_value
           [(Ring.pgB, Ring.fromB); (Ring.pgC, Ring.fromC)]
           [arrival Archive.save Scenario.B (Scenario.pong 0);
            arrival Archive.save Scenario.C
              (Message.Build [x68; x69] [] REQUEST 4)]
           Scenario.waiting).
  - repeat constructor; try (vm_compute; congruence).
    + exists Scenario.B. split; reflexivity.
    + exists Scenario.C. split; reflexivity.
  - reflexivity.
  - reflexivity.
  - vm_compute. reflexivity.
Defined.

Lemma take_first_length (p : Delivery -> bool) (incoming : list Delivery) :
  forall d rest, take_first p incoming = Some (d, rest) ->
    length incoming = S (length rest).
Proof.
  induction incoming as [|x incoming IH]; intros d rest H; [discriminate|].
  cbn [take_first] in H. destruct (p x).
  - by injection H as <- <-.
  - destruct (take_first p incoming) as [[y r]|] eqn:E; [|discriminate].
    injection H as <- <-. cbn [length]. by rewrite (IH _ _ eq_refl).
Qed.

Section ListenerFrame.

Variable MessageType_cast : Z -> MessageType.

(** X17: whatever arrives and however the type is read, a listener that
    ends (returned or blocked) has only added receive jobs to the queue of
    the thread pool: the table of pending requests, the futures, the id
    counter and the registry are as before; it has read at least one
    delivery if it returned, and it has queued at most one job per
    iteration. *)
Theorem listen_only_enqueues (fuel : nat) :
  forall (incoming rest : list Delivery) (a a' : Agent) (e : ListenEnd),
    listen MessageType_cast fuel incoming a = Ok ((e, rest), a') ->
    (exists works, a' = enqueued works a /\ (length works <= fuel)%nat) /\
    (length rest <= length incoming)%nat /\
    (e = Returned -> (length rest < length incoming)%nat).
Proof.
  induction fuel as [|fuel IH]; intros incoming rest a a' e.
  - cbn [listen]. listen_simpl. intros [= <- <- <-].
    split; [exists []; split; [by rewrite enqueued_nil | cbn; lia]|]. split; [lia | discriminate].
  - cbn [listen]. listen_simpl. unfold recvAnysource.
    destruct (take_first _ incoming) as [[d inc1]|] eqn:Hd.
    2:{ intros [= <- <- <-].
        split; [exists []; split; [by rewrite enqueued_nil | cbn; lia]|].
        split; [lia | discriminate]. }
    apply take_first_length in Hd.
    destruct (fill_buffer 24 d) as [items| | |]; try discriminate.
    listen_simpl. case_bool_decide as Hty.
    { intros [= <- <- <-].
      split; [exists []; split; [by rewrite enqueued_nil | cbn; lia]|]. split; lia. }
    destruct (bool_decide (0 <= _)); listen_simpl; [|discriminate].
    unfold recv. destruct (take_first _ inc1) as [[b inc2]|] eqn:Hb.
    2:{ intros [= <- <- <-].
        split; [exists []; split; [by rewrite enqueued_nil | cbn; lia]|].
        split; [lia | discriminate]. }
    apply take_first_length in Hb.
    destruct (fill_buffer _ b) as [bytes| | |]; try discriminate.
    listen_simpl.
    destruct (vector_at _ _) as [from| | |]; try discriminate.
    listen_simpl. intros Hrec.
    match type of Hrec with
    | listen _ _ _ ?a1 = _ =>
        destruct (IH inc2 rest a1 a' e Hrec)
          as ((works & -> & Hw) & Hlen & Hret)
    end.
    split.
    + match goal with
      | |- context [RecvJob ?rw] =>
          exists (rw :: works)
      end.
      split; [|cbn [length]; lia].
      unfold enqueued. cbn [threadPool_ set_threadPool map].
      by rewrite <- app_assoc.
    + split; [lia|]. intros He. specialize (Hret He). lia.
Qed.

(** The loop needs no more fuel than there are deliveries: every iteration
    that goes round has taken two of them. *)
Lemma listen_fuel (fuel1 : nat) :
  forall (fuel2 : nat) (incoming : list Delivery) (a : Agent),
    (length incoming <= fuel1)%nat -> (length incoming <= fuel2)%nat ->
    listen MessageType_cast fuel1 incoming a
    = listen MessageType_cast fuel2 incoming a.
Proof.
  induction fuel1 as [|fuel1 IH]; intros fuel2 incoming a H1 H2.
  - destruct incoming; [|cbn in H1; lia].
    destruct fuel2; cbn [listen]; listen_simpl; done.
  - destruct fuel2 as [|fuel2].
    + destruct incoming; [|cbn in H2; lia]. cbn [listen]. listen_simpl. done.
    + cbn [listen]. listen_simpl. unfold recvAnysource.
      destruct (take_first _ incoming) as [[d inc1]|] eqn:Hd; [|done].
      apply take_first_length in Hd.
      destruct (fill_buffer 24 d) as [items| | |]; try done.
      listen_simpl. case_bool_decide; [done|].
      destruct (bool_decide (0 <= _)); listen_simpl; [|done].
      unfold recv. destruct (take_first _ inc1) as [[b inc2]|] eqn:Hb; [|done].
      apply take_first_length in Hb.
      destruct (fill_buffer _ b) as [bytes| | |]; try done.
      listen_simpl.
      destruct (vector_at _ _) as [from| | |]; try done.
      listen_simpl. apply IH; lia.
Qed.

End ListenerFrame.

Lemma listen_only_enqueues_witness :
  (exists works,
     enqueued [arrival Archive.save Scenario.B (Scenario.pong 0)]
       Scenario.waiting = enqueued works Scenario.waiting /\
     (length works <= 2)%nat).
Proof.
  apply (listen_only_enqueues Ring.cast 2
           (wire_of Archive.save Ring.pgB Ring.fromB) []
           Scenario.waiting
           (enqueued [arrival Archive.save Scenario.B (Scenario.pong 0)]
              Scenario.waiting) Blocked).
  vm_compute. reflexivity.
Defined.

(** ** The shutdown ring *)

Lemma join_dst_mod (pg : ProcessGroup) :
  0 <= getRank pg < getSize pg ->
  join_dst pg = (getRank pg + 1) mod getSize pg /\
  0 <= join_dst pg < getSize pg /\
  (2 <= getSize pg -> join_dst pg ≠ getRank pg) /\
  (getSize pg = 1 -> join_dst pg = getRank pg).
Proof.
  intros Hr. unfold join_dst.
  rewrite Z.rem_mod_nonneg by lia.
  destruct (decide (getRank pg + 1 = getSize pg)) as [E|E].
  - rewrite E, Z.mod_same by lia. split; [done|]. split; [lia|]. split; lia.
  - rewrite Z.mod_small by lia. split; [done|]. split; [lia|]. split; lia.
Qed.

(** X18: [join] queues exactly one job, a SHUTDOWN without payload for the
    worker at the next rank of the ring, (rank + 1) mod size, and changes
    nothing else of the agent.  With two workers or more that is another
    worker; in a group of one it is the agent itself, the destination that
    [send] refuses ([join] calls [enqueueSend] directly). *)
Theorem join_signals_next_rank (a : Agent) :
  registry_wf a -> registry_ranked a ->
  exists to,
    workerIds_ a !! Z.to_nat (join_dst (pg_ a)) = Some to /\
    join a = Ok (tt, set_threadPool
                       (threadPool_ a
                        ++ [SendJob {| to_ := to; message_ := Message_shutdown |}])
                       a) /\
    WorkerId.id_ to = (getRank (pg_ a) + 1) mod getSize (pg_ a) /\
    0 <= WorkerId.id_ to < getSize (pg_ a) /\
    (2 <= getSize (pg_ a) -> WorkerId.id_ to ≠ getRank (pg_ a)) /\
    (getSize (pg_ a) = 1 -> WorkerId.id_ to = getRank (pg_ a)).
Proof.
  intros (Hr & Hs & Hlen) Hranked.
  destruct (join_dst_mod (pg_ a) Hr) as (Hmod & Hd & Hne & Hone).
  destruct (lookup_lt_is_Some_2 (workerIds_ a) (Z.to_nat (join_dst (pg_ a))))
    as [to Hto]; [lia|].
  exists to. split; [done|].
  assert (Hid : WorkerId.id_ to = join_dst (pg_ a)).
  { rewrite (Hranked _ _ Hto). lia. }
  split.
  { unfold join. agent_simpl.
    rewrite bool_decide_eq_false_2 by lia.
    unfold vector_at. rewrite bool_decide_eq_true_2 by lia. rewrite Hto.
    by agent_simpl. }
  rewrite Hid. split; [done|]. split; [done|]. split; done.
Qed.

Lemma join_signals_next_rank_witness :
  exists to,
    workerIds_ Ring.agentB !! Z.to_nat (join_dst (pg_ Ring.agentB)) = Some to /\
    WorkerId.id_ to = 2.
Proof.
  destruct (join_signals_next_rank Ring.agentB) as (to & H1 & _ & H2 & _).
  - apply built_registry_wf; vm_compute; try reflexivity;
      split; discriminate || reflexivity.
  - apply built_registry_ranked; vm_compute; [discriminate | reflexivity].
  - exists to. split; [exact H1 | exact H2].
Defined.

(** X19: the ring reaches everyone once: in a group of [n] workers every
    rank is the rank that exactly one worker's [join] signals. *)
Theorem join_ring_covers_every_rank (n d : Z) :
  0 <= d < n ->
  exists r, 0 <= r < n /\
    join_dst {| getRank := r; getSize := n |} = d /\
    forall r', 0 <= r' < n ->
      join_dst {| getRank := r'; getSize := n |} = d -> r' = r.
Proof.
  intros Hd.
  assert (Hdst : forall r, 0 <= r < n ->
            join_dst {| getRank := r; getSize := n |}
            = if decide (r + 1 = n) then 0 else r + 1).
  { intros r Hr. unfold join_dst. cbn [getRank getSize].
    rewrite Z.rem_mod_nonneg by lia. destruct (decide (r + 1 = n)) as [E|E].
    - rewrite E. apply Z.mod_same. lia.
    - apply Z.mod_small. lia. }
  destruct (decide (d = 0)) as [->|Hne].
  - exists (n - 1). split; [lia|]. split.
    + rewrite Hdst by lia. destruct (decide _); lia.
    + intros r' Hr' E. rewrite Hdst in E by lia. destruct (decide _); lia.
  - exists (d - 1). split; [lia|]. split.
    + rewrite Hdst by lia. destruct (decide _); lia.
    + intros r' Hr' E. rewrite Hdst in E by lia. destruct (decide _); lia.
Qed.

Lemma join_ring_covers_every_rank_witness :
  exists r, 0 <= r < 3 /\
    join_dst {| getRank := r; getSize := 3 |} = 0 /\
    forall r', 0 <= r' < 3 ->
      join_dst {| getRank := r'; getSize := 3 |} = 0 -> r' = r.
Proof.
  apply (join_ring_covers_every_rank 3 0). lia.
Defined.

Section RingFacts.

Variable save : list Tensor.t -> list byte.
Variable MessageType_cast : Z -> MessageType.

Hypothesis cast_value :
  forall t, MessageType_cast (MessageType_value t) = t.

(** X20: the shutdown goes round: the job that [join] queues on a worker
    transmits one preamble and no body, and that preamble makes the
    listener of the next worker on the ring return, whatever else is
    waiting to be read, without a receive job queued or anything else
    changed. *)
Theorem join_stops_next_listener (a b : Agent) :
  registry_wf a -> registry_ranked a ->
  getRank (pg_ b) = join_dst (pg_ a) ->
  Z.of_nat (length (serialize save Message_shutdown)) < 2 ^ 63 ->
  exists a' work,
    join a = Ok (tt, a') /\
    last (threadPool_ a') = Some (SendJob work) /\
    length (sends_of (sendJob save (pg_ a) work)) = 1%nat /\
    forall rest,
      listenLoop MessageType_cast (wire_of save (pg_ a) work ++ rest) b
      = Ok ((Returned, rest), b).
Proof using cast_value.
  intros Hwf Hranked Hnext Hlen.
  pose proof Hwf as (Hr & Hs & Hl).
  destruct (join_dst_mod (pg_ a) Hr) as (_ & Hd & _).
  destruct (lookup_lt_is_Some_2 (workerIds_ a) (Z.to_nat (join_dst (pg_ a))))
    as [to Hto]; [lia|].
  assert (Hid : WorkerId.id_ to = join_dst (pg_ a)).
  { rewrite (Hranked _ _ Hto). lia. }
  eexists _, {| to_ := to; message_ := Message_shutdown |}. split.
  { unfold join. agent_simpl.
    rewrite bool_decide_eq_false_2 by lia.
    unfold vector_at. rewrite bool_decide_eq_true_2 by lia. rewrite Hto.
    agent_simpl. reflexivity. }
  cbn [threadPool_ set_threadPool]. split; [by rewrite last_snoc|].
  split; [reflexivity|].
  intros rest. unfold listenLoop.
  pose proof (wire_of_shutdown save (pg_ a)
                {| to_ := to; message_ := Message_shutdown |} eq_refl) as Hw.
  rewrite length_app, Hw. cbn [length Nat.add]. rewrite <- Hw.
  apply (listen_shutdown_frame save MessageType_cast cast_value);
    [reflexivity | cbn [to_]; congruence | exact Hlen].
Qed.

End RingFacts.

Lemma join_stops_next_listener_witness :
  exists a' work,
    join Ring.agentB = Ok (tt, a') /\
    last (threadPool_ a') = Some (SendJob work) /\
    length (sends_of (sendJob Archive.save (pg_ Ring.agentB) work)) = 1%nat.
Proof.
  destruct (join_stops_next_listener Archive.save Ring.cast Ring_cast_value
              Ring.agentB
              (built "C" Scenario.nameMap Ring.pgC ["A"; "B"; "C"]%string))
    as (a' & work & H1 & H2 & H3 & _).
  - apply built_registry_wf; vm_compute; try reflexivity;
      split; discriminate || reflexivity.
  - apply built_registry_ranked; vm_compute; [discriminate | reflexivity].
  - reflexivity.
  - vm_compute. reflexivity.
  - exists a', work. split; [exact H1|]. split; [exact H2 | exact H3].
Defined.

(** ** A request and its response, end to end *)

Section RoundTrip.

Variable save : list Tensor.t -> list byte.
Variable load : list byte -> option (list Tensor.t).
Variable MessageType_cast : Z -> MessageType.
Variable cbA cbB : Message.t -> Result Message.t.

Hypothesis load_save : forall ts, load (save ts) = Some ts.
Hypothesis cast_value :
  forall t, MessageType_cast (MessageType_value t) = t.

Lemma listenLoop_one_frame (f : ProcessGroup * SendWork) (rw : RecvWork)
    (a : Agent) :
  delivers save a f rw ->
  listenLoop MessageType_cast (wire_of save f.1 f.2) a
  = Ok ((Blocked, []), enqueued [rw] a).
Proof using cast_value.
  intros Hf. unfold listenLoop.
  pose proof Hf as (_ & Hsh & _).
  pose proof (wire_of_message save f.1 f.2 Hsh) as Hw. cbn zeta in Hw.
  rewrite Hw at 1. cbn [length].
  rewrite <- (app_nil_r (wire_of save f.1 f.2)).
  rewrite (listen_message_frame save MessageType_cast cast_value _ f rw [] a Hf).
  apply listen_nothing.
Qed.

(** X21: a remote call, end to end, between two workers A and B of one
    group.  A's [send] of a request queues a job; what that job transmits
    makes B's listener queue a receive job; that job decodes the very
    request, with the id A gave it, calls B's callback and queues the
    callback's answer for A; what B's send job transmits makes A's listener
    queue a receive job; and when the answer is a RESPONSE carrying the id
    of the request, that job completes the future A's [send] returned with
    exactly the callback's answer.  Until then the future is not
    completed. *)
Theorem rpc_round_trip (a a1 b : Agent) (to : WorkerId.t) (m r : Message.t)
    (f : shared_ptr) :
  table_wf a ->
  registry_wf a -> registry_ranked a ->
  registry_wf b -> registry_ranked b ->
  getSize (pg_ a) = getSize (pg_ b) ->
  WorkerId.id_ to = getRank (pg_ b) ->
  Message.isRequest m = true ->
  send to m a = Ok (f, a1) ->
  cbB (Message.setId m (nextId_ a)) = Ok r ->
  Message.isResponse r = true ->
  Message.id r = nextId_ a ->
  Z.of_nat (length (serialize save (Message.setId m (nextId_ a)))) < 2 ^ 63 ->
  Z.of_nat (length (serialize save r)) < 2 ^ 63 ->
  let request := Message.setId m (nextId_ a) in
  exists (toB fromA : WorkerId.t) (b1 b2 a2 a3 : Agent),
    last (threadPool_ a1)
    = Some (SendJob {| to_ := toB; message_ := request |}) /\
    listenLoop MessageType_cast
      (wire_of save (pg_ a) {| to_ := toB; message_ := request |}) b
    = Ok ((Blocked, []), b1) /\
    last (threadPool_ b1) = Some (RecvJob (arrival save fromA request)) /\
    received load (arrival save fromA request) = Ok request /\
    recvJob load cbB (arrival save fromA request) b1 = Ok (tt, b2) /\
    last (threadPool_ b2) = Some (SendJob {| to_ := fromA; message_ := r |}) /\
    listenLoop MessageType_cast
      (wire_of save (pg_ b) {| to_ := fromA; message_ := r |}) a1
    = Ok ((Blocked, []), a2) /\
    last (threadPool_ a2) = Some (RecvJob (arrival save toB r)) /\
    unresolved a2 f /\
    recvJob load cbA (arrival save toB r) a2 = Ok (tt, a3) /\
    resolved_with a3 f r.
Proof using load_save cast_value.
  intros [Hk Htab] Hwfa Hranka Hwfb Hrankb Hsame Hto Hreq Hsend Hcb Hresp
         Hidr Hlen1 Hlen2 request.
  apply send_Ok in Hsend as (Hself & _ & dst & Hdst & -> & ->).
  apply vector_at_Ok in Hdst as [Hto0 Hdst].
  rewrite (registry_wf_rank _ Hwfa) in Hself.
  pose proof Hwfa as (Hra & Hna & Hla).
  pose proof Hwfb as (Hrb & Hnb & Hlb).
  assert (Hdstid : WorkerId.id_ dst = getRank (pg_ b)).
  { rewrite (Hranka _ _ Hdst). lia. }
  destruct (lookup_lt_is_Some_2 (workerIds_ b) (Z.to_nat (getRank (pg_ a))))
    as [fromA HfromA]; [lia|].
  assert (HfromAid : WorkerId.id_ fromA = getRank (pg_ a)).
  { rewrite (Hrankb _ _ HfromA). lia. }
  assert (Hnotreq : Message.isRequest r = false)
    by (by apply isResponse_not_isRequest).
  assert (Hshreq : Message.isShutdown request = false).
  { apply bool_decide_eq_true in Hreq. apply bool_decide_eq_false.
    unfold request. cbn [Message.setId Message.type]. congruence. }
  assert (Hshr : Message.isShutdown r = false).
  { apply bool_decide_eq_true in Hresp. apply bool_decide_eq_false.
    congruence. }
  set (b1 := enqueued [arrival save fromA request] b).
  set (b2 := sent b1 fromA r).
  set (a1 := sent a dst m).
  set (a2 := enqueued [arrival save dst r] a1).
  assert (Hfut : futures_ a2 !! Message.id r = Some (ptr (length (heap a)))).
  { unfold a2, a1, enqueued, sent. unfold prepared.
    cbn [futures_ set_threadPool]. rewrite Hreq, Hidr. apply lookup_insert_eq. }
  assert (Hun : unresolved a2 (ptr (length (heap a)))).
  { exists FutureMessage.fresh. split; [|done].
    unfold a2, a1, enqueued, sent. unfold prepared.
    cbn [future_at heap set_threadPool]. rewrite Hreq.
    by apply list_lookup_middle. }
  assert (Hrecv2 : received load (arrival save dst r) = Ok r).
  { apply (received_arrival save load load_save). by rewrite Hidr. }
  destruct (recvJob_known_id load cbA (arrival save dst r) r a2
              (ptr (length (heap a))) Hrecv2 Hresp Hfut Hun)
    as (a3 & Ha3 & Hres & _).
  exists dst, fromA, b1, b2, a2, a3.
  split.
  { unfold a1, sent, outgoing. cbn [threadPool_ set_threadPool].
    by rewrite last_snoc, Hreq. }
  split.
  { apply (listenLoop_one_frame
             (pg_ a, {| to_ := dst; message_ := request |})).
    split; [done|]. split; [done|]. split; [done|]. split; [done|].
    split; [cbn [fst]; lia|]. by exists fromA. }
  split; [unfold b1, enqueued; cbn [threadPool_ set_threadPool map];
          by rewrite last_snoc|].
  split; [by apply (received_arrival save load load_save)|].
  split.
  { rewrite (recvJob_request load cbB _ request b1);
      [| by apply (received_arrival save load load_save) | exact Hreq].
    unfold request. rewrite Hcb, send_eval.
    change (pg_ b1) with (pg_ b). change (workerIds_ b1) with (workerIds_ b).
    cbn [arrival from_].
    rewrite (registry_wf_rank _ Hwfb), (registry_wf_size _ Hwfb), HfromAid.
    rewrite bool_decide_eq_true_2 by lia.
    rewrite bool_decide_eq_true_2 by lia.
    unfold vector_at. rewrite bool_decide_eq_true_2 by lia.
    by rewrite HfromA. }
  split.
  { unfold b2, sent, outgoing. cbn [threadPool_ set_threadPool].
    by rewrite last_snoc, Hnotreq. }
  split.
  { apply (listenLoop_one_frame
             (pg_ b, {| to_ := fromA; message_ := r |})).
    split; [done|]. split; [done|]. split; [by cbn; rewrite Hidr|].
    split; [done|]. split; [cbn [fst]; lia|].
    exists dst. split; [|done]. cbn [fst]. by rewrite <- Hto. }
  split; [unfold a2, enqueued; cbn [threadPool_ set_threadPool map];
          by rewrite last_snoc|].
  split; [done|]. split; done.
Qed.

End RoundTrip.

Lemma rpc_round_trip_witness :
  exists (toB : WorkerId.t) (a2 a3 : Agent),
    unresolved a2 Scenario.future /\
    recvJob Archive.load Scenario.cb
      (arrival Archive.save toB (Scenario.pong 0)) a2 = Ok (tt, a3) /\
    resolved_with a3 Scenario.future (Scenario.pong 0).
Proof.
  destruct (rpc_round_trip Archive.save Archive.load Ring.cast
              Scenario.cb Scenario.cb Archive_load_save Ring_cast_value
              Scenario.agent Scenario.waiting Ring.agentB Scenario.B
              Scenario.ping (Scenario.pong 0) Scenario.future)
    as (toB & fromA & b1 & b2 & a2 & a3 & _ & _ & _ & _ & _ & _ & _ & _
        & H1 & H2 & H3).
  - apply built_table_wf.
  - apply built_registry_wf; vm_compute; try reflexivity;
      split; discriminate || reflexivity.
  - apply built_registry_ranked; vm_compute; [discriminate | reflexivity].
  - apply built_registry_wf; vm_compute; try reflexivity;
      split; discriminate || reflexivity.
  - apply built_registry_ranked; vm_compute; [discriminate | reflexivity].
  - reflexivity.
  - reflexivity.
  - reflexivity.
  - vm_compute. reflexivity.
  - reflexivity.
  - reflexivity.
  - reflexivity.
  - vm_compute. reflexivity.
  - vm_compute. reflexivity.
  - exists toB, a2, a3. split; [exact H1|]. split; [exact H2 | exact H3].
Defined.
